(** * Sequence assignment and recent-window read of [src/app/server.py]

    The development embeds the persisted schema ([User], [Message]), the
    SQL statements the handler [post_message] issues through its session,
    the transaction block [async with db.begin()] and the handler itself,
    and then states the properties of the sequencer and of the
    recent-window read over that embedding.

    Integers are [Z]; the column widths of the schema ([Integer],
    [BigInteger]) appear as explicit range checks of the statements that
    write them.  Tables are lists of rows in their physical order, strings
    are [string].  A connection can fail at any statement; which statements
    fail is a parameter of the handler.  The database stores no string with
    a NUL character, and no row whose entry in a btree index is larger than
    the index allows; as the size of an entry depends on how well the
    server compresses the string, which entries fit is a parameter too.

    Two readings of the handler are given.  In the first a call runs from
    its first statement to its commit or rollback with no other call in
    between ([post_message]); calls are then served one after the other
    ([serve_all]).  In the second two calls advance statement by statement
    in any interleaving ([run]); a call that runs alone there, with a
    request the database stores, does what [post_message] does
    ([alone_is_post_message]). *)

From Stdlib Require Import ZArith List String Ascii Bool Lia Permutation Sorted.
From Stdlib Require Import DecimalString DecimalZ DecimalPos.
Import ListNotations.
Open Scope string_scope.
Open Scope list_scope.
Open Scope Z_scope.

Set Implicit Arguments.

(* ------------------------------------------------------------------ *)
(** ** Schema *)

(** [class User(Base)], table [users]. *)
Module User.
Record t : Type := mk
  { id : Z;                 (* Integer, primary key, autoincrement *)
    username : string;      (* String, unique *)
    last_msg_num : Z }.     (* Integer, default 0, not null *)
End User.

(** [class Message(Base)], table [messages]. *)
Module Message.
Record t : Type := mk
  { message_id : Z;         (* BigInteger, primary key, autoincrement *)
    sender_name : string;
    text : string;
    created_at : Z;         (* server_default=func.now() *)
    user_msg_num : Z }.     (* Integer, not null *)
End Message.

(** [class MessageRequest(BaseModel)]. *)
Module MessageRequest.
Record t : Type := mk
  { sender_name : string;
    text : string }.
End MessageRequest.

(** [class MessageResponse(BaseModel)]. *)
Module MessageResponse.
Record t : Type := mk
  { message_id : Z;
    sender_name : string;
    text : string;
    created_at : Z;
    user_msg_num : Z }.
End MessageResponse.

(** [class MessagesListResponse(BaseModel)]: the field [messages]. *)
Definition MessagesListResponse : Type := list MessageResponse.t.

(** Largest values of the column types [Integer] and [BigInteger]. *)
Definition INT4_MAX : Z := 2147483647.
Definition INT8_MAX : Z := 9223372036854775807.

(** The database: both tables and the two sequences behind the
    autoincrement keys (each holds the next value it hands out). *)
Record Db : Type := mkDb
  { users : list User.t;
    messages : list Message.t;
    users_id_seq : Z;
    messages_message_id_seq : Z }.

(** A freshly created schema. *)
Definition empty_db : Db := mkDb [] [] 1 1.

(* ------------------------------------------------------------------ *)
(** ** Sessions, statements and failures *)

(** The statements [post_message] sends to the database. *)
Inductive Stmt : Type :=
  | SelectUserForUpdate   (* select(User).where(...).with_for_update() *)
  | InsertUser            (* db.add(user); await db.flush() *)
  | UpdateUser            (* user.last_msg_num += 1, written by the flush *)
  | InsertMessage         (* db.add(new_message); await db.flush() *)
  | SelectLast10          (* last_10_stmt *)
  | Commit.               (* leaving [async with db.begin()] *)

Definition Stmt_eqb (a b : Stmt) : bool :=
  match a, b with
  | SelectUserForUpdate, SelectUserForUpdate
  | InsertUser, InsertUser
  | UpdateUser, UpdateUser
  | InsertMessage, InsertMessage
  | SelectLast10, SelectLast10
  | Commit, Commit => true
  | _, _ => false
  end.

(** What the connection did, oldest first. *)
Inductive Event : Type :=
  | EvBegin
  | EvStmt (s : Stmt)
  | EvCommit
  | EvRollback.

(** What makes the handler raise, by cause.  The handler catches nothing,
    so the exception the session raises for it leaves the handler. *)
Inductive Exn : Type :=
  | IntegrityError          (* a primary-key or unique constraint *)
  | DataError               (* a value outside its column type: an integer
                               out of range, a string with a NUL character *)
  | ProgramLimitExceeded    (* an index row too large for its index *)
  | MultipleResultsFound    (* scalar_one_or_none() on several rows *)
  | ConnectionLost.         (* the connection or the server failed *)

Inductive Result (A : Type) : Type :=
  | Ok (a : A)
  | Raise (e : Exn).
Arguments Ok {A} a.
Arguments Raise {A} e.

(** The session: the database as the open transaction sees it, and the
    trace of the connection. *)
Record Session : Type := mkSession
  { db : Db;
    trace : list Event }.

(** Computations of the handler: they thread the session and may raise;
    the session survives a raise (sequences keep their values, the trace
    goes on). *)
Definition M (A : Type) : Type := Session -> Result A * Session.

Definition ret {A} (a : A) : M A := fun s => (Ok a, s).

Definition raise {A} (e : Exn) : M A := fun s => (Raise e, s).

Definition bind {A B} (m : M A) (k : A -> M B) : M B :=
  fun s => match m s with
           | (Ok a, s') => k a s'
           | (Raise e, s') => (Raise e, s')
           end.

Declare Scope tx_scope.
Delimit Scope tx_scope with tx.
Notation "x <- m ;; k" := (bind m (fun x => k))
  (at level 61, m at next level, right associativity) : tx_scope.
Notation "m ;; k" := (bind m (fun _ => k))
  (at level 61, right associativity) : tx_scope.
Open Scope tx_scope.

Definition get_db : M Db := fun s => (Ok (db s), s).

Definition put_db (d : Db) : M unit :=
  fun s => (Ok tt, mkSession d (trace s)).

Definition emit (e : Event) : M unit :=
  fun s => (Ok tt, mkSession (db s) (trace s ++ [e])).

(* ------------------------------------------------------------------ *)
(** ** Constraints and row operations of the two tables *)

(** The rows [WHERE users.username = name] selects. *)
Definition users_named (name : string) (us : list User.t) : list User.t :=
  filter (fun u => String.eqb (User.username u) name) us.

(** The primary key of [users]: is the key [i] already there? *)
Definition users_pkey_taken (i : Z) (us : list User.t) : bool :=
  existsb (fun u => User.id u =? i) us.

(** The unique index on [users.username]. *)
Definition username_taken (name : string) (us : list User.t) : bool :=
  existsb (fun u => String.eqb (User.username u) name) us.

(** The primary key of [messages]. *)
Definition messages_pkey_taken (i : Z) (ms : list Message.t) : bool :=
  existsb (fun m => Message.message_id m =? i) ms.

(** [UniqueConstraint("sender_name", "user_msg_num",
    name="uq_sender_msgnum")]. *)
Definition uq_sender_msgnum_taken (name : string) (num : Z)
                                  (ms : list Message.t) : bool :=
  existsb (fun m => String.eqb (Message.sender_name m) name
                    && (Message.user_msg_num m =? num)) ms.

(** The rows of [users] after [SET last_msg_num = v WHERE id = i]. *)
Definition set_last_msg_num (i v : Z) (us : list User.t) : list User.t :=
  map (fun u => if User.id u =? i
                then User.mk (User.id u) (User.username u) v
                else u) us.

(** [ORDER BY message_id DESC]: insertion into a list that is already
    in descending order. *)
Fixpoint insert_desc (m : Message.t) (l : list Message.t) : list Message.t :=
  match l with
  | [] => [m]
  | x :: l' =>
      if Message.message_id x <=? Message.message_id m
      then m :: x :: l'
      else x :: insert_desc m l'
  end.

Definition order_by_message_id_desc (l : list Message.t) : list Message.t :=
  fold_right insert_desc [] l.

(** The recent-window read:
    [select(Message).where(Message.message_id <= upto)
       .order_by(Message.message_id.desc()).limit(lim)]. *)
Definition recent_window (upto : Z) (lim : nat) (rows : list Message.t)
  : list Message.t :=
  firstn lim
    (order_by_message_id_desc
       (filter (fun m => Message.message_id m <=? upto) rows)).

(** A string with the character of code 0, which no column of type
    [String] or [Text] holds: the server refuses the parameter when the
    statement is bound, before it runs. *)
Definition has_nul (x : string) : bool :=
  existsb (Ascii.eqb zero) (list_ascii_of_string x).

(** The btree indexes that hold a string: the unique index of
    [users.username] ([unique=True, index=True]) and the index behind
    [uq_sender_msgnum]. *)
Inductive Index : Type :=
  | ix_users_username
  | uq_sender_msgnum.

(** One row of the response, built field by field from a row read. *)
Definition to_response (m : Message.t) : MessageResponse.t :=
  MessageResponse.mk (Message.message_id m) (Message.sender_name m)
                     (Message.text m) (Message.created_at m)
                     (Message.user_msg_num m).

Section Handler.

(** Whether the index row of a string fits the index: a btree refuses a
    row larger than a third of a page.  The row holds the string as the
    server compresses it, so its size is no function of the length. *)
Variable fits : Index -> string -> bool.

(** The statements at which the connection fails in this request. *)
Variable fault : Stmt -> bool.

(** The value of [now()] in this transaction. *)
Variable now : Z.

(** Every statement is sent, and the connection may fail on it. *)
Definition send (k : Stmt) : M unit :=
  emit (EvStmt k) ;;
  if fault k then raise ConnectionLost else ret tt.

(** [nextval] of the sequence behind [users.id] (a 4-byte serial). *)
Definition nextval_users_id : M Z :=
  d <- get_db ;;
  let v := users_id_seq d in
  if v >? INT4_MAX then raise DataError
  else
    put_db (mkDb (users d) (messages d) (v + 1) (messages_message_id_seq d)) ;;
    ret v.

(** [nextval] of the sequence behind [messages.message_id] (8 bytes). *)
Definition nextval_messages_message_id : M Z :=
  d <- get_db ;;
  let v := messages_message_id_seq d in
  if v >? INT8_MAX then raise DataError
  else
    put_db (mkDb (users d) (messages d) (users_id_seq d) (v + 1)) ;;
    ret v.

(** [select(User).where(User.username == name).with_for_update()]
    followed by [scalar_one_or_none()].  The name is a parameter of the
    statement. *)
Definition select_user_for_update (name : string) : M (option User.t) :=
  send SelectUserForUpdate ;;
  if has_nul name then raise DataError
  else
    d <- get_db ;;
    match users_named name (users d) with
    | [] => ret None
    | [u] => ret (Some u)
    | _ :: _ :: _ => raise MultipleResultsFound
    end.

(** [INSERT INTO users (username, last_msg_num) VALUES (name, 0)
    RETURNING id]: a name with a NUL character is refused when the
    statement is bound; then the key comes from the sequence, the primary
    key is checked, and the row enters the unique index on [username],
    which looks for an equal name first and for room then. *)
Definition insert_user (name : string) : M User.t :=
  send InsertUser ;;
  if has_nul name then raise DataError
  else
    i <- nextval_users_id ;;
    d <- get_db ;;
    if users_pkey_taken i (users d) then raise IntegrityError
    else if username_taken name (users d) then raise IntegrityError
    else if negb (fits ix_users_username name) then raise ProgramLimitExceeded
    else
      let u := User.mk i name 0 in
      put_db (mkDb (users d ++ [u]) (messages d)
                   (users_id_seq d) (messages_message_id_seq d)) ;;
      ret u.

(** [UPDATE users SET last_msg_num = v WHERE users.id = i]. *)
Definition update_user_last_msg_num (i v : Z) : M unit :=
  send UpdateUser ;;
  if v >? INT4_MAX then raise DataError
  else
    d <- get_db ;;
    put_db (mkDb (set_last_msg_num i v (users d))
                 (messages d) (users_id_seq d) (messages_message_id_seq d)).

(** [INSERT INTO messages (sender_name, text, user_msg_num) VALUES ...
    RETURNING message_id, created_at]: the parameters are checked when the
    statement is bound (the number against [Integer] by the driver, the
    strings for a NUL character by the server), before anything runs; then
    the key comes from the sequence and [created_at] from [now()], the
    primary key is checked, and the row enters the index of
    [uq_sender_msgnum], which looks for an equal pair first and for room
    then. *)
Definition insert_message (name txt : string) (num : Z) : M Message.t :=
  send InsertMessage ;;
  if num >? INT4_MAX then raise DataError
  else if has_nul name || has_nul txt then raise DataError
  else
    i <- nextval_messages_message_id ;;
    d <- get_db ;;
    if messages_pkey_taken i (messages d) then raise IntegrityError
    else if uq_sender_msgnum_taken name num (messages d)
    then raise IntegrityError
    else if negb (fits uq_sender_msgnum name) then raise ProgramLimitExceeded
    else
      let m := Message.mk i name txt now num in
      put_db (mkDb (users d) (messages d ++ [m])
                   (users_id_seq d) (messages_message_id_seq d)) ;;
      ret m.

Definition select_last_10 (upto : Z) : M (list Message.t) :=
  send SelectLast10 ;;
  d <- get_db ;;
  ret (recent_window upto 10 (messages d)).

(** [async with db.begin(): body]: the block commits when the body
    returns and rolls back when it raises; a rollback restores the
    tables, the sequences keep the values they reached. *)
Definition rollback_to (saved cur : Db) : Db :=
  mkDb (users saved) (messages saved)
       (users_id_seq cur) (messages_message_id_seq cur).

Definition rollback {A} (saved : Db) (e : Exn) : M A :=
  d <- get_db ;;
  put_db (rollback_to saved d) ;;
  emit EvRollback ;;
  raise e.

Definition db_begin {A} (body : M A) : M A :=
  fun s =>
    let saved := db s in
    match (emit EvBegin ;; body) s with
    | (Ok a, s1) =>
        if fault Commit then rollback saved ConnectionLost s1
        else (emit EvCommit ;; ret a) s1
    | (Raise e, s1) => rollback saved e s1
    end.

(** The body of the transaction block of [post_message].  The first
    flush, on the branch [user is None], inserts the row.  The second
    flush has two things to write, the new message and the incremented
    counter: it sends the [INSERT] of the message first and the [UPDATE]
    of the counter after it, so the [UPDATE] is not sent when the
    [INSERT] fails. *)
Definition post_message_tx (msg : MessageRequest.t) : M (list Message.t) :=
  result <- select_user_for_update (MessageRequest.sender_name msg) ;;
  user <- match result with
          | Some u => ret u
          | None => insert_user (MessageRequest.sender_name msg)
          end ;;
  let user_msg_counter := User.last_msg_num user + 1 in
  new_message <- insert_message (MessageRequest.sender_name msg)
                                (MessageRequest.text msg)
                                user_msg_counter ;;
  update_user_last_msg_num (User.id user) user_msg_counter ;;
  select_last_10 (Message.message_id new_message).

(** [post_message]: the transaction, then the response built from the
    rows it read. *)
Definition post_message (msg : MessageRequest.t) : M MessagesListResponse :=
  last_10_messages <- db_begin (post_message_tx msg) ;;
  ret (map to_response last_10_messages).

End Handler.

(* ------------------------------------------------------------------ *)
(** ** What a call does *)

(** How the handler obtains the [User] row: it finds the one row of that
    name, or inserts a row with counter 0.  [user_row name d u us q evs]:
    from database [d] the handler holds row [u], the table is [us], the
    sequence of [users.id] stands at [q] and the statements sent were
    [evs]. *)
Inductive user_row (name : string) (d : Db)
  : User.t -> list User.t -> Z -> list Event -> Prop :=
  | user_found u :
      users_named name (users d) = [u] ->
      user_row name d u (users d) (users_id_seq d)
               [EvStmt SelectUserForUpdate]
  | user_created :
      users_named name (users d) = [] ->
      users_id_seq d <= INT4_MAX ->
      users_pkey_taken (users_id_seq d) (users d) = false ->
      username_taken name (users d) = false ->
      user_row name d (User.mk (users_id_seq d) name 0)
               (users d ++ [User.mk (users_id_seq d) name 0])
               (users_id_seq d + 1)
               [EvStmt SelectUserForUpdate; EvStmt InsertUser].

(** [accepted now msg s u m s']: the call for [msg] in session [s]
    committed; [u] is the sender's row before the increment, [m] the row
    inserted into [messages], [s'] the session afterwards. *)
Definition accepted (now : Z) (msg : MessageRequest.t) (s : Session)
                    (u : User.t) (m : Message.t) (s' : Session) : Prop :=
  let name := MessageRequest.sender_name msg in
  let d := db s in
  exists us q evs,
    user_row name d u us q evs /\
    m = Message.mk (messages_message_id_seq d) name
                   (MessageRequest.text msg) now (User.last_msg_num u + 1) /\
    User.last_msg_num u + 1 <= INT4_MAX /\
    messages_message_id_seq d <= INT8_MAX /\
    messages_pkey_taken (Message.message_id m) (messages d) = false /\
    uq_sender_msgnum_taken name (Message.user_msg_num m) (messages d) = false /\
    db s' = mkDb (set_last_msg_num (User.id u) (Message.user_msg_num m) us)
                 (messages d ++ [m]) q (messages_message_id_seq d + 1) /\
    trace s' = trace s ++ [EvBegin] ++ evs
                 ++ [EvStmt InsertMessage; EvStmt UpdateUser;
                     EvStmt SelectLast10; EvCommit].

(* ------------------------------------------------------------------ *)
(** ** What is stored for a sender *)

(** The keys of a list of messages. *)
Definition ids (l : list Message.t) : list Z := map Message.message_id l.

(** The pairs [uq_sender_msgnum] ranges over. *)
Definition sender_keys (l : list Message.t) : list (string * Z) :=
  map (fun m => (Message.sender_name m, Message.user_msg_num m)) l.

(** The counters stored for [name]: [last_msg_num] of every row of
    [users] with that [username]. *)
Definition counters (name : string) (d : Db) : list Z :=
  map User.last_msg_num (users_named name (users d)).

(** The rows of [messages] sent by [name], in the order of the table. *)
Definition messages_from (name : string) (ms : list Message.t)
  : list Message.t :=
  filter (fun m => String.eqb (Message.sender_name m) name) ms.

(** The values of [user_msg_num] stored for [name]. *)
Definition sender_sequences (name : string) (d : Db) : list Z :=
  map Message.user_msg_num (messages_from name (messages d)).

(** The value the handler computes for [user_msg_counter]: one more than
    the stored counter, which is 0 for a row it has just created. *)
Definition assigned_num (name : string) (d : Db) : Z :=
  match users_named name (users d) with
  | u :: _ => User.last_msg_num u + 1
  | [] => 1
  end.

(** The numbers [1; 2; ...; n]. *)
Definition one_to (n : nat) : list Z := map Z.of_nat (seq 1 n).

(** No value the call for [name] writes leaves its column type, and
    [username] selects at most one row. *)
Definition well_ranged (name : string) (d : Db) : Prop :=
  (List.length (users_named name (users d)) <= 1)%nat /\
  users_id_seq d <= INT4_MAX /\
  assigned_num name d <= INT4_MAX /\
  messages_message_id_seq d <= INT8_MAX.

(** The counter stored for [name] as a number of messages; no row
    counts as none sent. *)
Definition stored (name : string) (d : Db) : nat :=
  match users_named name (users d) with
  | u :: _ => Z.to_nat (User.last_msg_num u)
  | [] => 0%nat
  end.

(** What the sequencer keeps true of one sender: no row and no message,
    or one row whose counter [n >= 1] says that the messages stored for
    the sender are numbered [1 .. n], in the order they were inserted. *)
Definition sender_ok (name : string) (d : Db) : Prop :=
  match users_named name (users d) with
  | [] => sender_sequences name d = []
  | [u] => 1 <= User.last_msg_num u /\
           sender_sequences name d
           = one_to (Z.to_nat (User.last_msg_num u))
  | _ :: _ :: _ => False
  end.

(** The invariant of the store. *)
Definition sequenced (d : Db) : Prop :=
  NoDup (map User.id (users d)) /\ forall name, sender_ok name d.

(* ------------------------------------------------------------------ *)
(** ** Requests served one after the other *)

(** One request as the server meets it: the validated body, the clock
    of its transaction and the statements at which its connection
    fails. *)
Record Call : Type := mkCall
  { call_msg : MessageRequest.t;
    call_now : Z;
    call_fault : Stmt -> bool }.

Definition serve (fits : Index -> string -> bool) (c : Call)
  : M MessagesListResponse :=
  post_message fits (call_fault c) (call_now c) (call_msg c).

(** The calls are served in turn; the outcomes are listed in the same
    order. *)
Fixpoint serve_all (fits : Index -> string -> bool) (cs : list Call)
                   (s : Session)
  : list (Result MessagesListResponse) * Session :=
  match cs with
  | [] => ([], s)
  | c :: cs' =>
      let (out, s1) := serve fits c s in
      let (outs, s2) := serve_all fits cs' s1 in
      (out :: outs, s2)
  end.

Definition is_ok {A} (r : Result A) : bool :=
  match r with Ok _ => true | Raise _ => false end.

(** How many of the calls [cs], with outcomes [outs], were accepted
    messages of [name]. *)
Fixpoint accepted_from (name : string) (cs : list Call)
                       (outs : list (Result MessagesListResponse)) : nat :=
  match cs, outs with
  | c :: cs', out :: outs' =>
      (if String.eqb (MessageRequest.sender_name (call_msg c)) name
          && is_ok out
       then 1 else 0)%nat + accepted_from name cs' outs'
  | _, _ => 0%nat
  end.

(* ------------------------------------------------------------------ *)
(** ** The route *)

(** A decoded JSON body. *)
#[warnings="-register-all"]
Inductive Json : Type :=
  | JNull
  | JBool (b : bool)
  | JNumber (z : Z)
  | JString (s : string)
  | JArray (items : list Json)
  | JObject (fields : list (string * Json)).

(** Field lookup in a decoded object: of two fields of the same name the
    later one stands. *)
Definition json_field (key : string) (fields : list (string * Json))
  : option Json :=
  match find (fun kv => String.eqb (fst kv) key) (rev fields) with
  | Some kv => Some (snd kv)
  | None => None
  end.

(** Validation of a body against [MessageRequest]: an object whose
    fields [sender_name] and [text] are both strings ([sender_name: str],
    [text: str]; no further constraint is declared). *)
Definition validate_MessageRequest (body : Json) : option MessageRequest.t :=
  match body with
  | JObject fields =>
      match json_field "sender_name" fields, json_field "text" fields with
      | Some (JString n), Some (JString t) => Some (MessageRequest.mk n t)
      | _, _ => None
      end
  | _ => None
  end.

(** What the caller receives. *)
Inductive HttpResponse : Type :=
  | Http200 (body : MessagesListResponse)   (* the handler returned *)
  | Http422                                 (* the body was not valid *)
  | Http500.                                (* the handler raised *)

(** [@app.post("/messages/", response_model=MessagesListResponse)]: the
    body is validated before the handler is called; an exception that
    leaves the handler is a server error. *)
Definition route_post_messages (fits : Index -> string -> bool)
                               (fault : Stmt -> bool) (now : Z) (body : Json)
  : Session -> HttpResponse * Session :=
  fun s =>
    match validate_MessageRequest body with
    | None => (Http422, s)
    | Some msg =>
        match post_message fits fault now msg s with
        | (Ok r, s') => (Http200 r, s')
        | (Raise _, s') => (Http500, s')
        end
    end.

(* ------------------------------------------------------------------ *)
(** ** Two calls at once

    Two requests are served at the same time, each in its own transaction
    on the one database, under the isolation level the engine is created
    with (none is set, so PostgreSQL's READ COMMITTED): a statement sees
    what is committed when it runs and what its own transaction wrote.
    A transaction advances one statement at a time; drawing a key from a
    sequence and entering the row into the unique indexes are separate
    steps, as a transaction can be made to wait between them.

    Waiting.  [SELECT ... FOR UPDATE] waits while the other transaction
    holds the lock of the selected row, and selects and locks nothing
    when no committed row qualifies.  An [INSERT] waits while the other
    transaction has an uncommitted row with the same unique key.  A row of
    [users] is identified by its [username], which the unique index makes
    a key.

    The second flush.  The [UPDATE] of the counter follows the [INSERT] of
    the message; it writes the row the transaction holds already, so it
    waits for nobody, and nobody sees what it wrote before the commit.
    The machine therefore has no step of its own for it: the new counter
    is checked against [Integer] before the key of the message is drawn
    ([AtUpdateUser], the check the driver makes when it binds the
    [INSERT]), and it is written with the commit.  The requests are taken
    to be ones the database stores; for those a transaction that runs
    alone does what [post_message] does ([alone_is_post_message]). *)

(** Where a transaction stands: the statement it runs next and what it
    holds.  [u] is the sender's row as read or inserted ([own] tells that
    this transaction inserted it), [m] the message inserted. *)
Inductive Pc : Type :=
  | AtSelectUser
  | AtInsertUser
  | AtUsersIndex (i : Z)
  | AtUpdateUser (u : User.t) (own : bool)
  | AtInsertMessage (u : User.t) (own : bool)
  | AtMessagesIndex (u : User.t) (own : bool) (i : Z)
  | AtSelectLast10 (u : User.t) (own : bool) (m : Message.t)
  | AtCommit (u : User.t) (own : bool) (m : Message.t)
             (rows : list Message.t)
  | Done (m : Message.t) (rows : list Message.t)   (* committed *)
  | Failed (e : Exn).                              (* rolled back *)

Record Txn : Type := mkTxn
  { tx_msg : MessageRequest.t;
    tx_now : Z;
    tx_pc : Pc }.

(** The row of [users] an open transaction holds. *)
Definition row_held (t : Txn) : option (User.t * bool) :=
  match tx_pc t with
  | AtUpdateUser u own | AtInsertMessage u own | AtMessagesIndex u own _
  | AtSelectLast10 u own _ | AtCommit u own _ _ => Some (u, own)
  | _ => None
  end.

(** [t] holds the [FOR UPDATE] lock of the committed row of [name]. *)
Definition locks_username (name : string) (t : Txn) : bool :=
  match row_held t with
  | Some (u, false) => String.eqb (User.username u) name
  | _ => false
  end.

(** [t] has an uncommitted row of [name] in the index of [username]. *)
Definition inserting_username (name : string) (t : Txn) : bool :=
  match row_held t with
  | Some (u, true) => String.eqb (User.username u) name
  | _ => false
  end.

(** [t] has an uncommitted message with the pair [(name, num)]. *)
Definition inserting_message (name : string) (num : Z) (t : Txn) : bool :=
  match tx_pc t with
  | AtSelectLast10 _ _ m | AtCommit _ _ m _ =>
      String.eqb (Message.sender_name m) name
      && (Message.user_msg_num m =? num)
  | _ => false
  end.

(** One statement of transaction [t] against the committed database [d],
    the other transaction being [other]: the database and the place
    afterwards, or [None] when the statement has to wait (or the
    transaction is over). *)
Definition tx_step (d : Db) (other t : Txn) : option (Db * Pc) :=
  let name := MessageRequest.sender_name (tx_msg t) in
  match tx_pc t with
  | AtSelectUser =>
      match users_named name (users d) with
      | [] => Some (d, AtInsertUser)
      | [u] => if locks_username (User.username u) other then None
               else Some (d, AtUpdateUser u false)
      | _ :: _ :: _ => Some (d, Failed MultipleResultsFound)
      end
  | AtInsertUser =>
      let v := users_id_seq d in
      if v >? INT4_MAX then Some (d, Failed DataError)
      else Some (mkDb (users d) (messages d) (v + 1)
                      (messages_message_id_seq d),
                 AtUsersIndex v)
  | AtUsersIndex i =>
      if users_pkey_taken i (users d) then Some (d, Failed IntegrityError)
      else if username_taken name (users d)
      then Some (d, Failed IntegrityError)
      else if inserting_username name other then None
      else Some (d, AtUpdateUser (User.mk i name 0) true)
  | AtUpdateUser u own =>
      if User.last_msg_num u + 1 >? INT4_MAX then Some (d, Failed DataError)
      else Some (d, AtInsertMessage u own)
  | AtInsertMessage u own =>
      let v := messages_message_id_seq d in
      if v >? INT8_MAX then Some (d, Failed DataError)
      else Some (mkDb (users d) (messages d) (users_id_seq d) (v + 1),
                 AtMessagesIndex u own v)
  | AtMessagesIndex u own i =>
      let num := User.last_msg_num u + 1 in
      if num >? INT4_MAX then Some (d, Failed DataError)
      else if messages_pkey_taken i (messages d)
      then Some (d, Failed IntegrityError)
      else if uq_sender_msgnum_taken name num (messages d)
      then Some (d, Failed IntegrityError)
      else if inserting_message name num other then None
      else Some (d, AtSelectLast10 u own
                      (Message.mk i name (MessageRequest.text (tx_msg t))
                                  (tx_now t) num))
  | AtSelectLast10 u own m =>
      Some (d, AtCommit u own m
                 (recent_window (Message.message_id m) 10
                                (messages d ++ [m])))
  | AtCommit u own m rows =>
      Some (mkDb (set_last_msg_num (User.id u) (Message.user_msg_num m)
                    (if own then users d ++ [u] else users d))
                 (messages d ++ [m])
                 (users_id_seq d) (messages_message_id_seq d),
            Done m rows)
  | Done _ _ | Failed _ => None
  end.

(** The committed database and the two transactions. *)
Record World : Type := mkWorld
  { committed : Db;
    left_tx : Txn;
    right_tx : Txn }.

Inductive Side : Type := L | R.

Definition tx_of (sd : Side) (w : World) : Txn :=
  match sd with L => left_tx w | R => right_tx w end.

Definition flip (sd : Side) : Side :=
  match sd with L => R | R => L end.

(** The transaction on side [sd] runs its next statement. *)
Definition step (sd : Side) (w : World) : option World :=
  let t := tx_of sd w in
  match tx_step (committed w) (tx_of (flip sd) w) t with
  | None => None
  | Some (d, pc) =>
      let t' := mkTxn (tx_msg t) (tx_now t) pc in
      Some (match sd with
            | L => mkWorld d t' (right_tx w)
            | R => mkWorld d (left_tx w) t'
            end)
  end.

Definition is_over (t : Txn) : bool :=
  match tx_pc t with Done _ _ | Failed _ => true | _ => false end.

(** The connection of the transaction on side [sd] is lost, or its
    request is cancelled: an open transaction is rolled back, which
    releases what it holds. *)
Definition drop (sd : Side) (w : World) : option World :=
  let t := tx_of sd w in
  if is_over t then None
  else
    let t' := mkTxn (tx_msg t) (tx_now t) (Failed ConnectionLost) in
    Some (match sd with
          | L => mkWorld (committed w) t' (right_tx w)
          | R => mkWorld (committed w) (left_tx w) t'
          end).

(** What happens at one turn: a side runs its next statement, or loses
    its connection. *)
Inductive Turn : Type :=
  | Go (sd : Side)
  | Drop (sd : Side).

Definition turn (tn : Turn) (w : World) : option World :=
  match tn with
  | Go sd => step sd w
  | Drop sd => drop sd w
  end.

(** A schedule lists the turns; a side that has to wait, or is over,
    lets its turn pass. *)
Fixpoint run (sched : list Turn) (w : World) : World :=
  match sched with
  | [] => w
  | tn :: sched' =>
      run sched' (match turn tn w with Some w' => w' | None => w end)
  end.

Definition start (d : Db) (x : MessageRequest.t) (nowx : Z)
                 (y : MessageRequest.t) (nowy : Z) : World :=
  mkWorld d (mkTxn x nowx AtSelectUser) (mkTxn y nowy AtSelectUser).

(** The number a committed transaction gave to its message. *)
Definition assigned (t : Txn) : option Z :=
  match tx_pc t with
  | Done m _ => Some (Message.user_msg_num m)
  | _ => None
  end.

(** What the caller of an ended transaction receives. *)
Definition outcome (t : Txn) : option (Result MessagesListResponse) :=
  match tx_pc t with
  | Done _ rows => Some (Ok (map to_response rows))
  | Failed e => Some (Raise e)
  | _ => None
  end.

(** Two calls of one sender were served one after the other from the
    counter [k]: one was given [k + 1], the other [k + 2]. *)
Definition serialized_from (k : Z) (w : World) : Prop :=
  (assigned (left_tx w) = Some (k + 1) /\
   assigned (right_tx w) = Some (k + 2)) \/
  (assigned (left_tx w) = Some (k + 2) /\
   assigned (right_tx w) = Some (k + 1)).

(** What holds of a transaction of sender [n] while the row [u] of [n]
    is committed: it has not tried to insert a row of its own; the row it
    holds is [u], locked, and the message it has ready is numbered one more
    than the counter of [u]; a number it has committed lies above the
    counter [k0] the two calls started from and not above the counter of
    [u]. *)
Definition side_ok (n : string) (k0 : Z) (u : User.t) (t : Txn) : Prop :=
  MessageRequest.sender_name (tx_msg t) = n /\
  match tx_pc t with
  | AtSelectUser | Failed _ => True
  | AtInsertUser | AtUsersIndex _ => False
  | AtUpdateUser v own | AtInsertMessage v own | AtMessagesIndex v own _ =>
      own = false /\ v = u
  | AtSelectLast10 v own m | AtCommit v own m _ =>
      own = false /\ v = u /\ Message.sender_name m = n /\
      Message.user_msg_num m = User.last_msg_num u + 1
  | Done m _ => k0 < Message.user_msg_num m <= User.last_msg_num u
  end.

Definition done_count (t : Txn) : Z :=
  match tx_pc t with Done _ _ => 1 | _ => 0 end.

(** The invariant of two calls of sender [n] whose row exists, started
    from the counter [k0]. *)
Definition lock_inv (n : string) (k0 : Z) (w : World) : Prop :=
  sequenced (committed w) /\
  exists u,
    users_named n (users (committed w)) = [u] /\
    side_ok n k0 u (left_tx w) /\
    side_ok n k0 u (right_tx w) /\
    (row_held (left_tx w) = None \/ row_held (right_tx w) = None) /\
    (forall a b, assigned (left_tx w) = Some a ->
                 assigned (right_tx w) = Some b -> a <> b) /\
    User.last_msg_num u
    = k0 + done_count (left_tx w) + done_count (right_tx w).

(** What holds of a transaction of sender [n] in any case: the row and
    the message it holds carry the name [n]. *)
Definition carries_name (n : string) (t : Txn) : Prop :=
  MessageRequest.sender_name (tx_msg t) = n /\
  match tx_pc t with
  | AtUpdateUser v _ | AtInsertMessage v _ | AtMessagesIndex v _ _ =>
      User.username v = n
  | AtSelectLast10 v _ m | AtCommit v _ m _ =>
      User.username v = n /\ Message.sender_name m = n
  | _ => True
  end.

(* ------------------------------------------------------------------ *)
(** ** Sample requests *)

Definition no_fault : Stmt -> bool := fun _ => false.

(** A server on which the index row of a name of at most 2000 characters
    fits, and no other does. *)
Definition short_rows_fit : Index -> string -> bool :=
  fun _ x => (String.length x <=? 2000)%nat.

Definition fail_at (k : Stmt) : Stmt -> bool := Stmt_eqb k.

Definition fresh_session : Session := mkSession empty_db [].

Definition hi_alice : MessageRequest.t := MessageRequest.mk "Alice" "hi".

Definition alice_response : MessagesListResponse :=
  [MessageResponse.mk 1 "Alice" "hi" 100 1].

(** A store whose counter for Alice lags behind her messages: the row of
    [users] says 0, a message numbered 1 is already there. *)
Definition stale_session : Session :=
  mkSession (mkDb [User.mk 1 "Alice" 0] [Message.mk 1 "Alice" "hi" 100 1] 2 2)
            [].

Definition alice_session : Session :=
  mkSession (mkDb [User.mk 1 "Alice" 1] [Message.mk 1 "Alice" "hi" 100 1] 2 2)
            [EvBegin; EvStmt SelectUserForUpdate; EvStmt InsertUser;
             EvStmt InsertMessage; EvStmt UpdateUser; EvStmt SelectLast10;
             EvCommit].

Definition bob_x : MessageRequest.t := MessageRequest.mk "Bob" "x".
Definition bob_y : MessageRequest.t := MessageRequest.mk "Bob" "y".

(** Both calls look for the row of Bob before either has committed one;
    then the left one runs to its commit, then the right one goes on. *)
Definition race_schedule : list Turn :=
  map Go [L; R; L; L; L; L; L; L; L; R; R; R; R; R; R; R].

Definition bye_alice : MessageRequest.t := MessageRequest.mk "Alice" "bye".

(** A text with a NUL character, and a name of 2001 characters. *)
Definition nul_alice : MessageRequest.t :=
  MessageRequest.mk "Alice" (String zero "hi").

Definition long_name : string :=
  string_of_list_ascii (repeat "a"%char 2001).

Definition hi_long : MessageRequest.t := MessageRequest.mk long_name "hi".

(** The right call takes the lock, the left one tries and waits; the
    right one runs to its commit, then the left one runs. *)
Definition turns_right_first : list Turn :=
  map Go [R; L; R; R; R; R; R; L; L; L; L; L; L].

(** Alice, Bob, Alice again with the connection lost at the insert of
    the message, then Alice once more. *)
Definition four_calls : list Call :=
  [mkCall hi_alice 100 no_fault;
   mkCall bob_x 101 no_fault;
   mkCall bye_alice 102 (fail_at InsertMessage);
   mkCall bye_alice 103 no_fault].

Definition empty_sender_body : Json :=
  JObject [("sender_name", JString EmptyString); ("text", JString "hi")].

Definition missing_text_body : Json :=
  JObject [("sender_name", JString "Alice")].

(* ------------------------------------------------------------------ *)
(** ** Keys and sequences *)

(** The keys of both tables were drawn from their sequences: in the order
    of insertion they increase, and each is below the value its sequence
    hands out next. *)
Definition keyed (d : Db) : Prop :=
  StronglySorted Z.lt (map User.id (users d)) /\
  Forall (fun i => i < users_id_seq d) (map User.id (users d)) /\
  StronglySorted Z.lt (ids (messages d)) /\
  Forall (fun i => i < messages_message_id_seq d) (ids (messages d)).

(** A store as the handler leaves it. *)
Definition consistent (d : Db) : Prop := sequenced d /\ keyed d.

(** How many of the outcomes are returns. *)
Definition count_ok {A} (outs : list (Result A)) : nat :=
  List.length (filter is_ok outs).


(** Neither sequence stands lower in [d'] than in [d]. *)
Definition seqs_le (d d' : Db) : Prop :=
  users_id_seq d <= users_id_seq d' /\
  messages_message_id_seq d <= messages_message_id_seq d'.

(** A computation of the handler that never sets a sequence back. *)
Definition grows {A} (m : M A) : Prop :=
  forall s out s', m s = (out, s') -> seqs_le (db s) (db s').

(** A computation of the handler that draws at most [a] keys from the
    sequence of [users.id] and at most [b] from the one of
    [messages.message_id]. *)
Definition draws_at_most (a b : Z) {A} (m : M A) : Prop :=
  forall s out s', m s = (out, s') ->
    users_id_seq (db s') <= users_id_seq (db s) + a /\
    messages_message_id_seq (db s') <= messages_message_id_seq (db s) + b.

(** A request the database stores: no NUL character in its strings, and
    room in both indexes for the rows that hold the sender's name. *)
Definition storable (fits : Index -> string -> bool) (msg : MessageRequest.t)
  : Prop :=
  has_nul (MessageRequest.sender_name msg) = false /\
  has_nul (MessageRequest.text msg) = false /\
  fits ix_users_username (MessageRequest.sender_name msg) = true /\
  fits uq_sender_msgnum (MessageRequest.sender_name msg) = true.


(** The statements of a call in the order they are sent: when the handler
    finds the sender's row, and when it has to insert one. *)
Definition statements_row_found : list Stmt :=
  [SelectUserForUpdate; InsertMessage; UpdateUser; SelectLast10].

Definition statements_row_created : list Stmt :=
  [SelectUserForUpdate; InsertUser; InsertMessage; UpdateUser; SelectLast10].

(** A statement of the handler: whatever its outcome, it was sent once. *)
Definition sent_once (k : Stmt) {A} (m : M A) : Prop :=
  forall s out s', m s = (out, s') -> trace s' = trace s ++ [EvStmt k].

(* ------------------------------------------------------------------ *)
(** ** Settings: [class DBSettings] *)

(** The fields read from the environment. *)
Module DBSettings.
Record t : Type := mk
  { POSTGRES_HOST : string;
    POSTGRES_PORT : Z;          (* int *)
    POSTGRES_DB : string;
    POSTGRES_USER : string;
    POSTGRES_PASSWORD : string }.
End DBSettings.

(** [str(n)] of an [int], which is what an f-string puts for [{n}]. *)
Definition str_of_int (n : Z) : string :=
  NilZero.string_of_int (Z.to_int n).

(** The property [POSTGRES_URL]: the fields are put between the
    separators as they are. *)
Definition POSTGRES_URL (self : DBSettings.t) : string :=
  let _user := DBSettings.POSTGRES_USER self in
  let _password := DBSettings.POSTGRES_PASSWORD self in
  let _host := DBSettings.POSTGRES_HOST self in
  let _port := DBSettings.POSTGRES_PORT self in
  let _db := DBSettings.POSTGRES_DB self in
  ("postgresql+asyncpg://" ++ _user ++ ":" ++ _password ++ "@" ++ _host
     ++ ":" ++ str_of_int _port ++ "/" ++ _db)%string.

(** The character [c] does not occur in [s]. *)
Definition free_of (c : ascii) (s : string) : Prop :=
  ~ In c (list_ascii_of_string s).

(* ------------------------------------------------------------------ *)
(** ** The load generator, [src/app/client.py]: the sender names

    The module [random] is a generator with a state.  Which numbers it
    yields is left open: a generator is any sequence of numbers, together
    with how many of them have been drawn. *)

Record Random : Type := mkRandom
  { draws : nat -> nat;
    drawn : nat }.

(** Computations that draw from the generator; [None] is an exception
    ([ValueError] of an empty range, [IndexError] of an empty sequence). *)
Definition Rand (A : Type) : Type := Random -> option A * Random.

Definition rand_ret {A} (a : A) : Rand A := fun g => (Some a, g).

Definition rand_bind {A B} (m : Rand A) (k : A -> Rand B) : Rand B :=
  fun g => match m g with
           | (Some a, g') => k a g'
           | (None, g') => (None, g')
           end.

(** A number below [n], for [n > 0]: the next number of the generator,
    reduced to the range. *)
Definition randbelow (n : nat) : Rand nat :=
  fun g => match n with
           | O => (None, g)
           | S _ => (Some (draws g (drawn g) mod n)%nat,
                     mkRandom (draws g) (S (drawn g)))
           end.

(** [random.randint(a, b)]: a number [a <= N <= b]. *)
Definition randint (a b : Z) : Rand Z :=
  rand_bind (randbelow (Z.to_nat (b - a + 1)))
            (fun k => rand_ret (a + Z.of_nat k)).

(** [random.choice(seq)]. *)
Definition choice (seq : string) : Rand ascii :=
  rand_bind (randbelow (String.length seq))
            (fun k => match String.get k seq with
                      | Some c => rand_ret c
                      | None => fun g => (None, g)
                      end).

(** [string.ascii_letters]: the lowercase letters, then the uppercase
    ones. *)
Definition ascii_lowercase : string := "abcdefghijklmnopqrstuvwxyz".
Definition ascii_uppercase : string := "ABCDEFGHIJKLMNOPQRSTUVWXYZ".
Definition ascii_letters : string :=
  (ascii_lowercase ++ ascii_uppercase)%string.

Definition is_ascii_lowercase (c : ascii) : bool :=
  (("a" <=? c) && (c <=? "z"))%char.

Definition is_ascii_uppercase (c : ascii) : bool :=
  (("A" <=? c) && (c <=? "Z"))%char.

(** [str.upper] and [str.lower] on one character of ASCII text. *)
Definition upper (c : ascii) : ascii :=
  if is_ascii_lowercase c then ascii_of_nat (nat_of_ascii c - 32) else c.

Definition lower (c : ascii) : ascii :=
  if is_ascii_uppercase c then ascii_of_nat (nat_of_ascii c + 32) else c.

Fixpoint string_map (f : ascii -> ascii) (s : string) : string :=
  match s with
  | EmptyString => EmptyString
  | String c s' => String (f c) (string_map f s')
  end.

(** [str.capitalize] on ASCII text: the first character in upper case,
    the others in lower case. *)
Definition capitalize (s : string) : string :=
  match s with
  | EmptyString => EmptyString
  | String c s' => String (upper c) (string_map lower s')
  end.

(** ["".join(random.choice(seq) for _ in range(n))]: the characters are
    drawn one after the other. *)
Fixpoint join_choices (seq : string) (n : nat) : Rand string :=
  match n with
  | O => rand_ret EmptyString
  | S n' =>
      rand_bind (choice seq) (fun c =>
      rand_bind (join_choices seq n') (fun s =>
      rand_ret (String c s)))
  end.

(** The list comprehension of [generate_random_names] over
    [range(count)]: for each name the length is drawn first (the argument
    of [range] is evaluated when the generator expression is created), then
    its letters. *)
Fixpoint random_names (count : nat) : Rand (list string) :=
  match count with
  | O => rand_ret []
  | S count' =>
      rand_bind (randint 5 7) (fun n =>
      rand_bind (join_choices ascii_letters (Z.to_nat n)) (fun s =>
      rand_bind (random_names count') (fun names =>
      rand_ret (capitalize s :: names))))
  end.

Definition generate_random_names (count : Z) : Rand (list string) :=
  random_names (Z.to_nat count).

(** What the docstring and [capitalize] promise of a name: 5 to 7
    letters, the first one a capital, the others small. *)
Definition capitalized_name (s : string) : Prop :=
  (5 <= String.length s <= 7)%nat /\
  match s with
  | EmptyString => False
  | String c s' =>
      is_ascii_uppercase c = true /\
      Forall (fun x => is_ascii_lowercase x = true) (list_ascii_of_string s')
  end.

(** A generator that yields the same number again and again. *)
Definition stuck_at (v : nat) (n : nat) : Random := mkRandom (fun _ => v) n.

(** Settings of two databases on one host. *)
Definition local_settings : DBSettings.t :=
  DBSettings.mk "localhost" 5432 "messages" "postgres" "secret".

Definition replica_settings : DBSettings.t :=
  DBSettings.mk "localhost" 5433 "messages" "postgres" "secret".

(* ------------------------------------------------------------------ *)
(** ** Two calls at once: what every pair of calls keeps *)

(** How many statements a transaction has at most before it is over. *)
Definition statements_left (pc : Pc) : nat :=
  match pc with
  | AtSelectUser => 8
  | AtInsertUser => 7
  | AtUsersIndex _ => 6
  | AtUpdateUser _ _ => 5
  | AtInsertMessage _ _ => 4
  | AtMessagesIndex _ _ _ => 3
  | AtSelectLast10 _ _ _ => 2
  | AtCommit _ _ _ _ => 1
  | Done _ _ | Failed _ => 0
  end.

(** The two sides take turns, [n] times each. *)
Definition round_robin (n : nat) : list Turn :=
  List.concat (repeat [Go L; Go R] n).

(** The key of [users] a transaction has drawn for a row that is not
    committed yet. *)
Definition pending_id (t : Txn) : option Z :=
  match tx_pc t with
  | AtUsersIndex i => Some i
  | _ => match row_held t with
         | Some (u, true) => Some (User.id u)
         | _ => None
         end
  end.

(** What holds of an open transaction against the committed database: a
    row it has read under the lock is the committed row of its sender; a
    row it has inserted is the only one of its sender, new, with counter 0
    and a key no committed row has; the message it has ready is numbered
    one more than the counter of the row it holds, and the message it has
    committed is in the table; the key it has drawn is below the
    sequence. *)
Definition tx_inv (d : Db) (t : Txn) : Prop :=
  let n := MessageRequest.sender_name (tx_msg t) in
  match row_held t with
  | Some (u, false) => users_named n (users d) = [u]
  | Some (u, true) =>
      User.username u = n /\ User.last_msg_num u = 0 /\
      users_named n (users d) = [] /\
      ~ In (User.id u) (map User.id (users d))
  | None => True
  end /\
  match tx_pc t with
  | AtSelectLast10 u _ m | AtCommit u _ m _ =>
      Message.sender_name m = n /\
      Message.user_msg_num m = User.last_msg_num u + 1
  | Done m _ => In m (messages d)
  | _ => True
  end /\
  forall i, pending_id t = Some i -> i < users_id_seq d.

(** Two transactions that both hold a row are of different senders, and
    never have drawn the same key. *)
Definition apart (t other : Txn) : Prop :=
  (row_held t <> None -> row_held other <> None ->
   MessageRequest.sender_name (tx_msg t)
   <> MessageRequest.sender_name (tx_msg other)) /\
  forall i j, pending_id t = Some i -> pending_id other = Some j -> i <> j.

(** The invariant of two calls served at once from the database [d0]. *)
Definition pair_inv (d0 : Db) (w : World) : Prop :=
  sequenced (committed w) /\
  tx_inv (committed w) (left_tx w) /\
  tx_inv (committed w) (right_tx w) /\
  apart (left_tx w) (right_tx w) /\
  Z.of_nat (List.length (messages (committed w)))
  = Z.of_nat (List.length (messages d0))
    + done_count (left_tx w) + done_count (right_tx w).

(** Alice has a row; the right call has taken its lock. *)
Definition alice_locked : World :=
  run [Go R] (start (db alice_session) hi_alice 200 bye_alice 201).

(* ------------------------------------------------------------------ *)
(** ** Two calls at once: the windows *)

(** The key of [messages] a transaction has drawn for a row that is not
    committed yet. *)
Definition pending_message_id (t : Txn) : option Z :=
  match tx_pc t with
  | AtMessagesIndex _ _ i => Some i
  | AtSelectLast10 _ _ m | AtCommit _ _ m _ => Some (Message.message_id m)
  | _ => None
  end.

(** The window of a call as its caller expects it: the message of the
    call first, at most ten rows, their keys strictly descending. *)
Definition own_window (m : Message.t) (rows : list Message.t) : Prop :=
  (exists rest, rows = m :: rest) /\
  (List.length rows <= 10)%nat /\
  StronglySorted Z.gt (ids rows).

(** The message of a transaction is the one of its request. *)
Definition carries_request (t : Txn) (m : Message.t) : Prop :=
  Message.sender_name m = MessageRequest.sender_name (tx_msg t) /\
  Message.text m = MessageRequest.text (tx_msg t).

(** What holds of the keys and of the window of a transaction against
    the committed table [messages]. *)
Definition window_inv (d : Db) (t : Txn) : Prop :=
  (forall i, pending_message_id t = Some i ->
             i < messages_message_id_seq d /\ ~ In i (ids (messages d))) /\
  match tx_pc t with
  | AtSelectLast10 _ _ m => carries_request t m
  | AtCommit _ _ m rows =>
      carries_request t m /\ own_window m rows /\
      incl rows (messages d ++ [m])
  | Done m rows =>
      carries_request t m /\ own_window m rows /\ incl rows (messages d)
  | _ => True
  end.

Definition keys_apart (t other : Txn) : Prop :=
  forall i j, pending_message_id t = Some i ->
              pending_message_id other = Some j -> i <> j.

(** The keys of [messages] are pairwise different and were drawn from
    the sequence. *)
Definition messages_keyed (d : Db) : Prop :=
  NoDup (ids (messages d)) /\
  Forall (fun i => i < messages_message_id_seq d) (ids (messages d)).

Definition windows_inv (w : World) : Prop :=
  messages_keyed (committed w) /\
  window_inv (committed w) (left_tx w) /\
  window_inv (committed w) (right_tx w) /\
  keys_apart (left_tx w) (right_tx w).

(* ================================================================== *)
(** * Properties *)

Example alice_first :
  post_message short_rows_fit no_fault 100 hi_alice fresh_session
  = (Ok alice_response, alice_session).
Proof. reflexivity. Qed.


Lemma gtb_false_le a b : (a >? b) = false -> a <= b.
Proof. rewrite Z.gtb_ltb, Z.ltb_ge. trivial. Qed.

Arguments recent_window : simpl never.
Arguments users_named : simpl never.
Arguments users_pkey_taken : simpl never.
Arguments username_taken : simpl never.
Arguments messages_pkey_taken : simpl never.
Arguments uq_sender_msgnum_taken : simpl never.
Arguments set_last_msg_num : simpl never.

Ltac reduce_in H := cbn -[Z.gtb Z.add INT4_MAX INT8_MAX] in H.

Ltac unfold_handler :=
  unfold post_message, db_begin, post_message_tx, select_user_for_update,
    insert_user, update_user_last_msg_num, insert_message, select_last_10,
    rollback, nextval_users_id, nextval_messages_message_id, send, emit,
    get_db, put_db, bind, ret, raise.

Section Statements.

Variable fits : Index -> string -> bool.
Variable fault : Stmt -> bool.
Variable now : Z.

Lemma bind_ok {A B} (m : M A) (k : A -> M B) s b s' :
  bind m k s = (Ok b, s') ->
  exists a s1, m s = (Ok a, s1) /\ k a s1 = (Ok b, s').
Proof.
  unfold bind. destruct (m s) as [[a|e] s1]; [eauto | discriminate].
Qed.

Lemma send_ok k s x s' :
  send fault k s = (Ok x, s') ->
  fault k = false /\ s' = mkSession (db s) (trace s ++ [EvStmt k]).
Proof.
  unfold send, emit, bind, raise, ret.
  destruct (fault k); intros H; inversion H; auto.
Qed.

Lemma select_user_for_update_ok name s r s' :
  select_user_for_update fault name s = (Ok r, s') ->
  fault SelectUserForUpdate = false /\
  s' = mkSession (db s) (trace s ++ [EvStmt SelectUserForUpdate]) /\
  users_named name (users (db s)) = match r with Some u => [u] | None => [] end.
Proof.
  unfold select_user_for_update. intros H.
  apply bind_ok in H as (x & s1 & Hs & H).
  apply send_ok in Hs as [Hf ->].
  destruct (has_nul name); [discriminate|].
  unfold get_db, bind, ret, raise in H. reduce_in H.
  destruct (users_named name (users (db s))) as [|u [|u' l]];
    inversion H; auto.
Qed.

Lemma select_user_for_update_bound name s r s' :
  select_user_for_update fault name s = (Ok r, s') -> has_nul name = false.
Proof.
  unfold select_user_for_update. intros H.
  apply bind_ok in H as (x & s1 & Hs & H).
  destruct (has_nul name); [discriminate|reflexivity].
Qed.

Lemma insert_user_ok name s u s' :
  insert_user fits fault name s = (Ok u, s') ->
  fault InsertUser = false /\
  users_id_seq (db s) <= INT4_MAX /\
  users_pkey_taken (users_id_seq (db s)) (users (db s)) = false /\
  username_taken name (users (db s)) = false /\
  u = User.mk (users_id_seq (db s)) name 0 /\
  s' = mkSession (mkDb (users (db s) ++ [u]) (messages (db s))
                       (users_id_seq (db s) + 1)
                       (messages_message_id_seq (db s)))
                 (trace s ++ [EvStmt InsertUser]).
Proof.
  unfold insert_user. intros H.
  apply bind_ok in H as (x & s1 & Hs & H).
  apply send_ok in Hs as [Hf ->].
  destruct (has_nul name); [discriminate|].
  unfold nextval_users_id, get_db, put_db, bind, ret, raise in H.
  reduce_in H.
  destruct (users_id_seq (db s) >? INT4_MAX) eqn:E1; [discriminate|].
  reduce_in H.
  destruct (users_pkey_taken _ _) eqn:E2; [discriminate|].
  destruct (username_taken _ _) eqn:E3; [discriminate|].
  destruct (fits ix_users_username name); [|discriminate].
  reduce_in H. inversion H; subst. repeat split; auto using gtb_false_le.
Qed.

(** What the server asked of the name before it stored the row. *)
Lemma insert_user_stored name s u s' :
  insert_user fits fault name s = (Ok u, s') ->
  has_nul name = false /\ fits ix_users_username name = true.
Proof.
  unfold insert_user. intros H.
  apply bind_ok in H as (x & s1 & Hs & H).
  destruct (has_nul name); [discriminate|].
  unfold nextval_users_id, get_db, put_db, bind, ret, raise in H.
  reduce_in H.
  destruct (users_id_seq (db s1) >? INT4_MAX); [discriminate|].
  reduce_in H.
  destruct (users_pkey_taken _ _); [discriminate|].
  destruct (username_taken _ _); [discriminate|].
  destruct (fits ix_users_username name); [auto|discriminate].
Qed.

Lemma update_user_last_msg_num_ok i v s x s' :
  update_user_last_msg_num fault i v s = (Ok x, s') ->
  fault UpdateUser = false /\
  v <= INT4_MAX /\
  s' = mkSession (mkDb (set_last_msg_num i v (users (db s)))
                       (messages (db s)) (users_id_seq (db s))
                       (messages_message_id_seq (db s)))
                 (trace s ++ [EvStmt UpdateUser]).
Proof.
  unfold update_user_last_msg_num. intros H.
  apply bind_ok in H as (y & s1 & Hs & H).
  apply send_ok in Hs as [Hf ->].
  unfold get_db, put_db, bind, ret, raise in H.
  destruct (v >? INT4_MAX) eqn:E1; [discriminate|].
  reduce_in H. inversion H; subst. repeat split; auto using gtb_false_le.
Qed.

Lemma insert_message_ok name txt num s m s' :
  insert_message fits fault now name txt num s = (Ok m, s') ->
  fault InsertMessage = false /\
  messages_message_id_seq (db s) <= INT8_MAX /\
  num <= INT4_MAX /\
  messages_pkey_taken (messages_message_id_seq (db s)) (messages (db s))
    = false /\
  uq_sender_msgnum_taken name num (messages (db s)) = false /\
  m = Message.mk (messages_message_id_seq (db s)) name txt now num /\
  s' = mkSession (mkDb (users (db s)) (messages (db s) ++ [m])
                       (users_id_seq (db s))
                       (messages_message_id_seq (db s) + 1))
                 (trace s ++ [EvStmt InsertMessage]).
Proof.
  unfold insert_message. intros H.
  apply bind_ok in H as (x & s1 & Hs & H).
  apply send_ok in Hs as [Hf ->].
  destruct (num >? INT4_MAX) eqn:E0; [discriminate|].
  destruct (has_nul name || has_nul txt); [discriminate|].
  unfold nextval_messages_message_id, get_db, put_db, bind, ret, raise in H.
  reduce_in H.
  destruct (messages_message_id_seq (db s) >? INT8_MAX) eqn:E1;
    [discriminate|].
  reduce_in H.
  destruct (messages_pkey_taken _ _) eqn:E2; [discriminate|].
  destruct (uq_sender_msgnum_taken _ _ _) eqn:E3; [discriminate|].
  destruct (fits uq_sender_msgnum name); [|discriminate].
  reduce_in H. inversion H; subst. repeat split; auto using gtb_false_le.
Qed.

(** What the server asked of the strings before it stored the row. *)
Lemma insert_message_stored name txt num s m s' :
  insert_message fits fault now name txt num s = (Ok m, s') ->
  has_nul name = false /\ has_nul txt = false /\
  fits uq_sender_msgnum name = true.
Proof.
  unfold insert_message. intros H.
  apply bind_ok in H as (x & s1 & Hs & H).
  destruct (num >? INT4_MAX); [discriminate|].
  destruct (has_nul name || has_nul txt) eqn:En; [discriminate|].
  apply orb_false_iff in En as [En Et].
  unfold nextval_messages_message_id, get_db, put_db, bind, ret, raise in H.
  reduce_in H.
  destruct (messages_message_id_seq (db s1) >? INT8_MAX); [discriminate|].
  reduce_in H.
  destruct (messages_pkey_taken _ _); [discriminate|].
  destruct (uq_sender_msgnum_taken _ _ _); [discriminate|].
  destruct (fits uq_sender_msgnum name); [auto|discriminate].
Qed.

Lemma select_last_10_ok upto s rows s' :
  select_last_10 fault upto s = (Ok rows, s') ->
  fault SelectLast10 = false /\
  rows = recent_window upto 10 (messages (db s)) /\
  s' = mkSession (db s) (trace s ++ [EvStmt SelectLast10]).
Proof.
  unfold select_last_10. intros H.
  apply bind_ok in H as (x & s1 & Hs & H).
  apply send_ok in Hs as [Hf ->].
  unfold get_db, bind, ret in H. reduce_in H. inversion H; auto.
Qed.

(** The transaction block either commits what its body did, or raises
    with both tables as they were when it was entered and a rollback as
    the last thing the connection did. *)
Lemma db_begin_ok {A} (body : M A) s a s' :
  db_begin fault body s = (Ok a, s') ->
  fault Commit = false /\
  exists s1,
    body (mkSession (db s) (trace s ++ [EvBegin])) = (Ok a, s1) /\
    s' = mkSession (db s1) (trace s1 ++ [EvCommit]).
Proof.
  unfold db_begin, rollback, emit, get_db, put_db, bind, ret, raise.
  cbn.
  destruct (body _) as [[x|e] s1]; [|discriminate].
  destruct (fault Commit); [discriminate|].
  intros H; inversion H; subst. eauto.
Qed.

Lemma db_begin_raise {A} (body : M A) s e s' :
  db_begin fault body s = (Raise e, s') ->
  users (db s') = users (db s) /\
  messages (db s') = messages (db s) /\
  exists tr, trace s' = tr ++ [EvRollback].
Proof.
  unfold db_begin, rollback, emit, get_db, put_db, bind, ret, raise.
  cbn.
  destruct (body _) as [[x|e1] s1] eqn:Hb.
  - destruct (fault Commit); [|discriminate].
    intros H; inversion H; subst; cbn. eauto.
  - intros H; inversion H; subst; cbn. eauto.
Qed.

(** A call that returns has done exactly the steps of [accepted], and
    answers with the window read after its insert. *)
Lemma post_message_ok msg s r s' :
  post_message fits fault now msg s = (Ok r, s') ->
  exists u m,
    accepted now msg s u m s' /\
    r = map to_response
          (recent_window (Message.message_id m) 10 (messages (db s'))).
Proof.
  unfold post_message. intros H.
  apply bind_ok in H as (rows & s2 & H & Hr).
  unfold ret in Hr. inversion Hr; subst; clear Hr.
  apply db_begin_ok in H as (Hc & s1 & H & ->).
  unfold post_message_tx in H.
  apply bind_ok in H as (res & sa & Hsel & H).
  apply select_user_for_update_ok in Hsel as (_ & -> & Hsel).
  apply bind_ok in H as (u & sb & Hu & H).
  apply bind_ok in H as (m & sc & Hins & H).
  apply insert_message_ok in Hins as (_ & Hq & Hv & Hpk & Huq & Hm & ->).
  apply bind_ok in H as (x & sd & Hupd & H).
  apply update_user_last_msg_num_ok in Hupd as (_ & _ & ->).
  apply select_last_10_ok in H as (_ & -> & ->).
  exists u, m. cbn in *.
  destruct res as [u0|].
  - unfold ret in Hu. inversion Hu; subst u0 sb; clear Hu. cbn in *.
    split; [|now subst m].
    exists (users (db s)), (users_id_seq (db s)), [EvStmt SelectUserForUpdate].
    split; [now constructor|].
    subst m; cbn. repeat split; auto.
    rewrite <- !app_assoc. reflexivity.
  - apply insert_user_ok in Hu as (_ & Hq4 & Hpk4 & Hun & -> & ->).
    cbn in *.
    split; [|now subst m].
    eexists _, _, _.
    split; [now apply user_created|].
    subst m; cbn. repeat split; auto.
    rewrite <- !app_assoc. reflexivity.
Qed.

(** A call that returns carried a request the server could bind. *)
Lemma post_message_ok_bound msg s r s' :
  post_message fits fault now msg s = (Ok r, s') ->
  has_nul (MessageRequest.sender_name msg) = false /\
  has_nul (MessageRequest.text msg) = false /\
  fits uq_sender_msgnum (MessageRequest.sender_name msg) = true.
Proof.
  unfold post_message. intros H.
  apply bind_ok in H as (rows & s2 & H & Hr).
  apply db_begin_ok in H as (Hc & s1 & H & ->).
  unfold post_message_tx in H.
  apply bind_ok in H as (res & sa & Hsel & H).
  apply bind_ok in H as (u & sb & Hu & H).
  apply bind_ok in H as (m & sc & Hins & H).
  now apply insert_message_stored in Hins.
Qed.

End Statements.

(** Conversely, when the connection does not fail, the steps of
    [accepted] are what the call does. *)
Lemma accepted_post_message fits now msg s u m s' :
  storable fits msg ->
  accepted now msg s u m s' ->
  post_message fits no_fault now msg s
  = (Ok (map to_response
           (recent_window (Message.message_id m) 10 (messages (db s')))), s').
Proof.
  intros (Hn & Ht & Hfu & Hfm)
         (us & q & evs & Hu & Hm & Hv & Hq & Hpk & Huq & Hdb & Htr).
  destruct s' as [d' tr']. cbn in Hdb, Htr. subst d' tr'.
  unfold_handler. unfold no_fault. cbn -[Z.gtb Z.add INT4_MAX INT8_MAX].
  subst m. cbn -[Z.gtb Z.add INT4_MAX INT8_MAX] in *.
  assert (G4 : forall a, a <= INT4_MAX -> (a >? INT4_MAX) = false)
    by (intros; rewrite Z.gtb_ltb, Z.ltb_ge; trivial).
  assert (G8 : forall a, a <= INT8_MAX -> (a >? INT8_MAX) = false)
    by (intros; rewrite Z.gtb_ltb, Z.ltb_ge; trivial).
  inversion Hu; subst; cbn -[Z.gtb Z.add INT4_MAX INT8_MAX] in *.
  - repeat (progress (rewrite ?Hn, ?Ht, ?Hfu, ?Hfm, ?H, ?(G4 _ Hv),
                        ?(G8 _ Hq), ?Hpk, ?Huq;
                      cbn -[Z.gtb Z.add INT4_MAX INT8_MAX])).
    rewrite <- !app_assoc. reflexivity.
  - repeat (progress (rewrite ?Hn, ?Ht, ?Hfu, ?Hfm, ?H, ?(G4 _ H0), ?H1, ?H2,
                        ?(G4 _ Hv), ?(G8 _ Hq), ?Hpk, ?Huq;
                      cbn -[Z.gtb Z.add INT4_MAX INT8_MAX])).
    rewrite <- !app_assoc. reflexivity.
Qed.

(* ------------------------------------------------------------------ *)
(** ** The recent-window read *)

Section Window.

Lemma insert_desc_perm m l : Permutation (insert_desc m l) (m :: l).
Proof.
  induction l as [|x l IH]; cbn; [reflexivity|].
  destruct (Message.message_id x <=? Message.message_id m);
    [reflexivity|].
  rewrite IH. apply perm_swap.
Qed.

Lemma order_by_perm l : Permutation (order_by_message_id_desc l) l.
Proof.
  induction l as [|x l IH]; cbn; [reflexivity|].
  rewrite insert_desc_perm. now constructor.
Qed.

Lemma insert_desc_sorted m l :
  StronglySorted Z.ge (ids l) ->
  StronglySorted Z.ge (ids (insert_desc m l)).
Proof.
  induction l as [|x l IH]; cbn; intros Hs.
  - repeat constructor.
  - apply StronglySorted_inv in Hs as [Hs Hx].
    destruct (Z.leb_spec (Message.message_id x) (Message.message_id m)).
    + cbn. constructor; [constructor; assumption|].
      constructor; [lia|].
      eapply Forall_impl; [|exact Hx]. cbn; intros; lia.
    + cbn. constructor; [auto|].
      change (Forall (Z.ge (Message.message_id x)) (ids (insert_desc m l))).
      unfold ids.
      rewrite (Permutation_map Message.message_id (insert_desc_perm m l)).
      cbn. constructor; [lia | exact Hx].
Qed.

Lemma order_by_sorted l :
  StronglySorted Z.ge (ids (order_by_message_id_desc l)).
Proof.
  induction l as [|x l IH]; cbn; [constructor|].
  now apply insert_desc_sorted.
Qed.

Lemma StronglySorted_firstn {A} (R : A -> A -> Prop) n l :
  StronglySorted R l -> StronglySorted R (firstn n l).
Proof.
  revert l; induction n as [|n IH]; intros [|x l] Hs; cbn;
    try constructor.
  - apply IH. now apply StronglySorted_inv in Hs.
  - apply StronglySorted_inv in Hs as [_ Hx].
    rewrite Forall_forall in *. intros y Hy. apply Hx.
    rewrite <- (firstn_skipn n l). apply in_or_app. now left.
Qed.

Lemma ge_gt_sorted (l : list Z) :
  StronglySorted Z.ge l -> NoDup l -> StronglySorted Z.gt l.
Proof.
  induction 1 as [|a l Hs IH Ha]; intros Hn; constructor.
  - apply IH. now inversion Hn.
  - inversion Hn as [|? ? Hin _]; subst.
    rewrite Forall_forall in *. intros y Hy.
    specialize (Ha y Hy). assert (a <> y) by (intros ->; auto). lia.
Qed.

Lemma filter_perm {A} (f : A -> bool) l l' :
  Permutation l l' -> Permutation (filter f l) (filter f l').
Proof.
  induction 1 as [|x l l' _ IH|x y l|l l' l'' _ IH1 _ IH2]; cbn.
  - constructor.
  - destruct (f x); [constructor|]; assumption.
  - destruct (f x), (f y); try reflexivity. apply perm_swap.
  - etransitivity; eassumption.
Qed.

Lemma NoDup_ids_filter f (l : list Message.t) :
  NoDup (ids l) -> NoDup (ids (filter f l)).
Proof.
  induction l as [|x l IH]; cbn; intros Hn; [constructor|].
  inversion Hn as [|? ? Hx Hl]; subst.
  destruct (f x); cbn; [constructor|]; auto.
  intros Hin. apply Hx. unfold ids in *.
  rewrite in_map_iff in *. destruct Hin as (y & Hy & Hiy).
  apply filter_In in Hiy. exists y. tauto.
Qed.

Variable upto : Z.
Variable lim : nat.
Variable rows : list Message.t.

Let selected := filter (fun m => Message.message_id m <=? upto) rows.

Lemma recent_window_incl m :
  In m (recent_window upto lim rows) ->
  In m rows /\ Message.message_id m <= upto.
Proof.
  unfold recent_window. intros Hin.
  assert (In m (order_by_message_id_desc selected)) as Hin'.
  { rewrite <- (firstn_skipn lim (order_by_message_id_desc selected)).
    apply in_or_app; now left. }
  apply (Permutation_in _ (order_by_perm _)) in Hin'.
  apply filter_In in Hin' as [? ?]. split; [assumption|lia].
Qed.

Lemma recent_window_length :
  (List.length (recent_window upto lim rows) <= lim)%nat.
Proof. apply firstn_le_length. Qed.


Lemma recent_window_strict :
  NoDup (ids rows) ->
  StronglySorted Z.gt (ids (recent_window upto lim rows)).
Proof.
  intros Hn. unfold recent_window, ids. rewrite <- firstn_map.
  apply StronglySorted_firstn, ge_gt_sorted; [apply order_by_sorted|].
  eapply Permutation_NoDup.
  - apply Permutation_map. symmetry. apply order_by_perm.
  - now apply NoDup_ids_filter.
Qed.


End Window.

Lemma order_by_nonempty m l :
  In m l -> order_by_message_id_desc l <> [].
Proof.
  intros Hin Hnil.
  apply (Permutation_in _ (Permutation_sym (order_by_perm l))) in Hin.
  rewrite Hnil in Hin. contradiction.
Qed.

Lemma pkey_free_not_in i ms m :
  messages_pkey_taken i ms = false -> In m ms -> Message.message_id m <> i.
Proof.
  unfold messages_pkey_taken. intros Hf Hin Heq.
  assert (existsb (fun x => Message.message_id x =? i) ms = true) as Ht.
  { apply existsb_exists. exists m. split; [assumption|]. now apply Z.eqb_eq. }
  congruence.
Qed.

(** The row just inserted under a free key leads the window bounded by
    that key. *)
Lemma recent_window_head m old n :
  messages_pkey_taken (Message.message_id m) old = false ->
  exists rest,
    recent_window (Message.message_id m) (S n) (old ++ [m]) = m :: rest.
Proof.
  intros Hfree. unfold recent_window.
  set (sel := filter _ _).
  assert (In m sel) as Hm.
  { apply filter_In. split; [apply in_or_app; right; now left|].
    apply Z.leb_le. lia. }
  pose proof (order_by_sorted sel) as Hs.
  pose proof (order_by_perm sel) as Hp.
  destruct (order_by_message_id_desc sel) as [|h l] eqn:E.
  - exfalso. eapply order_by_nonempty; eauto.
  - cbn. exists (firstn n l). f_equal.
    assert (In h sel) as Hh by (apply (Permutation_in _ Hp); now left).
    apply filter_In in Hh as [Hin Hle]. apply Z.leb_le in Hle.
    assert (Message.message_id h >= Message.message_id m) as Hge.
    { apply (Permutation_in _ (Permutation_sym Hp)) in Hm.
      destruct Hm as [->|Hm]; [lia|].
      cbn in Hs. apply StronglySorted_inv in Hs as [_ Hall].
      rewrite Forall_forall in Hall. apply Hall.
      unfold ids. now apply in_map. }
    apply in_app_or in Hin as [Hin|[->|[]]]; [|reflexivity].
    exfalso. apply (pkey_free_not_in _ _ Hfree Hin). lia.
Qed.

Lemma ids_to_response l :
  map MessageResponse.message_id (map to_response l) = ids l.
Proof. unfold ids. rewrite map_map. reflexivity. Qed.

Lemma accepted_messages now msg s u m s' :
  accepted now msg s u m s' ->
  messages (db s') = messages (db s) ++ [m] /\
  messages_pkey_taken (Message.message_id m) (messages (db s)) = false /\
  Message.sender_name m = MessageRequest.sender_name msg /\
  Message.text m = MessageRequest.text msg /\
  Message.created_at m = now /\
  Message.user_msg_num m = User.last_msg_num u + 1.
Proof.
  intros (us & q & evs & Hu & Hm & Hv & Hq & Hpk & Huq & Hdb & Htr).
  rewrite Hdb. subst m. cbn in *. auto 10.
Qed.



(* ------------------------------------------------------------------ *)
(** ** The sender's row after a call *)

Lemma users_named_app name us vs :
  users_named name (us ++ vs) = users_named name us ++ users_named name vs.
Proof. apply filter_app. Qed.

Lemma users_named_set name i v us :
  users_named name (set_last_msg_num i v us)
  = set_last_msg_num i v (users_named name us).
Proof.
  unfold users_named, set_last_msg_num.
  induction us as [|u us IH]; cbn; [reflexivity|].
  destruct (User.id u =? i) eqn:E; cbn;
    destruct (String.eqb (User.username u) name); cbn;
    rewrite ?E, IH; reflexivity.
Qed.

Lemma users_named_self name u us :
  users_named name us = [u] -> User.username u = name.
Proof.
  intros H. assert (In u (users_named name us)) as Hin by (rewrite H; now left).
  apply filter_In in Hin as [_ Hn]. now apply String.eqb_eq.
Qed.

(** After an accepted call the table holds exactly one row for the
    sender, and its counter is the number given to the message. *)
Lemma accepted_users now msg s u m s' :
  accepted now msg s u m s' ->
  users_named (MessageRequest.sender_name msg) (users (db s'))
  = [User.mk (User.id u) (MessageRequest.sender_name msg)
             (Message.user_msg_num m)].
Proof.
  intros (us & q & evs & Hu & Hm & Hv & Hq & Hpk & Huq & Hdb & Htr).
  rewrite Hdb. cbn. rewrite users_named_set.
  inversion Hu as [u0 Hsel | Hsel Hq4 Hpk4 Hun]; subst.
  - rewrite Hsel. unfold set_last_msg_num. cbn.
    rewrite Z.eqb_refl. now rewrite (users_named_self _ _ Hsel).
  - rewrite users_named_app, Hsel. cbn.
    unfold users_named, set_last_msg_num. cbn.
    rewrite String.eqb_refl. cbn. now rewrite Z.eqb_refl.
Qed.

(** C9.  The first row of the response of a successful call is the row
    the call inserted: it carries the sender and the text of the request
    unchanged, and its number is the counter the call left in the sender's
    row. *)
Theorem post_message_returns_own_message fits fault now msg s r s' :
  post_message fits fault now msg s = (Ok r, s') ->
  exists m rest,
    r = to_response m :: rest /\
    messages (db s') = messages (db s) ++ [m] /\
    MessageResponse.sender_name (to_response m)
      = MessageRequest.sender_name msg /\
    MessageResponse.text (to_response m) = MessageRequest.text msg /\
    counters (MessageRequest.sender_name msg) (db s')
      = [MessageResponse.user_msg_num (to_response m)].
Proof.
  intros H. apply post_message_ok in H as (u & m & Hacc & ->).
  destruct (accepted_messages Hacc) as (Hms & Hfree & Hn & Ht & _ & _).
  destruct (recent_window_head m (messages (db s)) 9 Hfree) as (rest & Hw).
  exists m, (map to_response rest).
  rewrite Hms, Hw. cbn. repeat split; auto.
  unfold counters. now rewrite (accepted_users Hacc).
Qed.

Lemma post_message_returns_own_message_witness :
  exists m rest,
    alice_response = to_response m :: rest /\
    MessageResponse.text (to_response m) = "hi" /\
    counters "Alice" (db alice_session)
      = [MessageResponse.user_msg_num (to_response m)].
Proof.
  destruct (@post_message_returns_own_message short_rows_fit no_fault 100
              hi_alice fresh_session alice_response alice_session eq_refl)
    as (m & rest & Hr & _ & _ & Ht & Hc).
  exists m, rest. auto.
Defined.

(** C10.  With [message_id] a key of the table (no two rows share it), the
    keys in the response of a successful call descend strictly, so no row
    appears twice in it. *)
Theorem post_message_window_strict fits fault now msg s r s' :
  NoDup (ids (messages (db s))) ->
  post_message fits fault now msg s = (Ok r, s') ->
  StronglySorted Z.gt (map MessageResponse.message_id r) /\
  NoDup (map MessageResponse.message_id r) /\
  NoDup r /\
  NoDup (ids (messages (db s'))).
Proof.
  intros Hkey H. apply post_message_ok in H as (u & m & Hacc & ->).
  destruct (accepted_messages Hacc) as (Hms & Hfree & _).
  assert (NoDup (ids (messages (db s')))) as Hkey'.
  { rewrite Hms. unfold ids. rewrite map_app. cbn.
    apply NoDup_app; repeat split.
    - exact Hkey.
    - repeat constructor. intros [].
    - intros i Hi [<-|[]]. apply in_map_iff in Hi as (x & Hx & Hin).
      now apply (pkey_free_not_in _ _ Hfree Hin). }
  assert (StronglySorted Z.gt
            (map MessageResponse.message_id
               (map to_response
                  (recent_window (Message.message_id m) 10
                                 (messages (db s')))))) as Hs.
  { rewrite ids_to_response. now apply recent_window_strict. }
  assert (NoDup (map MessageResponse.message_id
                   (map to_response
                      (recent_window (Message.message_id m) 10
                                     (messages (db s')))))) as Hn.
  { clear -Hs. induction Hs as [|a l Hs IH Ha]; constructor; auto.
    intros Hin. rewrite Forall_forall in Ha. specialize (Ha a Hin).
    unfold Z.gt in Ha. rewrite Z.compare_refl in Ha. discriminate. }
  repeat split; auto.
  eapply NoDup_map_inv; exact Hn.
Qed.

Lemma post_message_window_strict_witness :
  NoDup (ids (messages (db fresh_session))) /\
  StronglySorted Z.gt (map MessageResponse.message_id alice_response).
Proof.
  assert (NoDup (ids (messages (db fresh_session)))) as Hkey by constructor.
  split; [exact Hkey|].
  exact (proj1 (@post_message_window_strict short_rows_fit no_fault 100 hi_alice
                  fresh_session alice_response alice_session Hkey eq_refl)).
Defined.

(* ------------------------------------------------------------------ *)
(** ** Reading twice *)

(** Two descending lists without repeated keys that hold the same rows
    are the same list. *)
Lemma strict_desc_perm_eq (l1 l2 : list Message.t) :
  StronglySorted Z.gt (ids l1) -> StronglySorted Z.gt (ids l2) ->
  Permutation l1 l2 -> l1 = l2.
Proof.
  revert l2. induction l1 as [|a l1 IH]; intros l2 H1 H2 Hp.
  - apply Permutation_nil in Hp. now subst.
  - destruct l2 as [|b l2].
    { apply Permutation_sym, Permutation_nil in Hp. discriminate. }
    cbn in H1, H2.
    apply StronglySorted_inv in H1 as [H1 Ha].
    apply StronglySorted_inv in H2 as [H2 Hb].
    rewrite Forall_forall in Ha, Hb.
    assert (a = b) as ->.
    { assert (In a (b :: l2)) as Hab by (apply (Permutation_in _ Hp); now left).
      assert (In b (a :: l1)) as Hba
          by (apply (Permutation_in _ (Permutation_sym Hp)); now left).
      destruct Hab as [->|Hab]; [reflexivity|].
      destruct Hba as [->|Hba]; [reflexivity|].
      specialize (Ha _ (in_map Message.message_id _ _ Hba)).
      specialize (Hb _ (in_map Message.message_id _ _ Hab)). lia. }
    f_equal. apply IH; auto. eapply Permutation_cons_inv; eassumption.
Qed.

(** The window does not depend on the physical order of the rows, as long
    as [message_id] is a key. *)
Lemma recent_window_order_independent upto lim rows rows' :
  NoDup (ids rows) -> Permutation rows rows' ->
  recent_window upto lim rows = recent_window upto lim rows'.
Proof.
  intros Hn Hp. unfold recent_window. f_equal.
  assert (NoDup (ids rows')) as Hn'.
  { eapply Permutation_NoDup; [|exact Hn]. now apply Permutation_map. }
  set (f := fun m => Message.message_id m <=? upto).
  assert (forall l, NoDup (ids l) ->
            StronglySorted Z.gt (ids (order_by_message_id_desc (filter f l))))
    as Hsorted.
  { intros l Hl. apply ge_gt_sorted; [apply order_by_sorted|].
    eapply Permutation_NoDup.
    - apply Permutation_map. symmetry. apply order_by_perm.
    - now apply NoDup_ids_filter. }
  apply strict_desc_perm_eq; auto.
  rewrite !order_by_perm. now apply filter_perm.
Qed.

(** C8.  The recent-window read changes nothing in the database, so a
    second execution with the same bound in the session the first one
    left returns the same rows in the same order. *)
Theorem select_last_10_rerun f1 f2 upto s r1 s1 r2 s2 :
  select_last_10 f1 upto s = (Ok r1, s1) ->
  select_last_10 f2 upto s1 = (Ok r2, s2) ->
  r1 = r2 /\ db s1 = db s /\ db s2 = db s.
Proof.
  intros H1 H2.
  apply select_last_10_ok in H1 as (_ & -> & ->).
  apply select_last_10_ok in H2 as (_ & -> & ->).
  cbn. auto.
Qed.

Lemma select_last_10_rerun_witness :
  recent_window 1 10 (messages (db alice_session))
  = recent_window 1 10 (messages (db alice_session)) /\
  db (mkSession (db alice_session) (trace alice_session ++ [EvStmt SelectLast10]))
  = db alice_session.
Proof.
  destruct (@select_last_10_rerun no_fault no_fault 1 alice_session
              (recent_window 1 10 (messages (db alice_session)))
              (mkSession (db alice_session)
                         (trace alice_session ++ [EvStmt SelectLast10]))
              (recent_window 1 10 (messages (db alice_session)))
              (mkSession (db alice_session)
                         ((trace alice_session ++ [EvStmt SelectLast10])
                            ++ [EvStmt SelectLast10]))
              eq_refl eq_refl) as (Hr & Hd & _).
  split; [exact Hr | exact Hd].
Defined.

(* ------------------------------------------------------------------ *)
(** ** All or nothing *)

Lemma post_message_raise fits fault now msg s e s' :
  post_message fits fault now msg s = (Raise e, s') ->
  users (db s') = users (db s) /\
  messages (db s') = messages (db s) /\
  exists tr, trace s' = tr ++ [EvRollback].
Proof.
  unfold post_message, bind. intros H.
  destruct (db_begin fault (post_message_tx fits fault now msg) s)
    as [[rows|e1] s1] eqn:Hb; [discriminate|].
  inversion H; subst. eapply db_begin_raise; eassumption.
Qed.

(** C6.  Whatever fails inside the transaction (a constraint, a value out
    of range, the connection at any statement, the commit itself), the call
    raises only after a rollback and leaves both tables exactly as they
    were; when the call returns instead, both the counter and the message
    have been written. *)
Theorem post_message_all_or_nothing fits fault now msg s :
  match post_message fits fault now msg s with
  | (Ok r, s') =>
      exists u m,
        users (db s')
        = set_last_msg_num (User.id u) (User.last_msg_num u + 1)
            (match users_named (MessageRequest.sender_name msg)
                               (users (db s)) with
             | [] => users (db s) ++ [u]
             | _ :: _ => users (db s)
             end) /\
        messages (db s') = messages (db s) ++ [m] /\
        Message.user_msg_num m = User.last_msg_num u + 1 /\
        exists tr, trace s' = tr ++ [EvCommit]
  | (Raise e, s') =>
      users (db s') = users (db s) /\
      messages (db s') = messages (db s) /\
      exists tr, trace s' = tr ++ [EvRollback]
  end.
Proof.
  destruct (post_message fits fault now msg s) as [[r|e] s'] eqn:H.
  - apply post_message_ok in H as (u & m & Hacc & _).
    exists u, m.
    destruct (accepted_messages Hacc) as (Hms & _ & _ & _ & _ & Hnum).
    destruct Hacc as (us & q & evs & Hu & Hm & Hv & Hq & Hpk & Huq & Hdb & Htr).
    rewrite Hdb in *. cbn. repeat split; auto.
    + rewrite Hnum. inversion Hu as [u0 Hsel|Hsel]; subst; now rewrite Hsel.
    + eexists. rewrite Htr.
      change [EvStmt InsertMessage; EvStmt UpdateUser; EvStmt SelectLast10;
              EvCommit]
        with ([EvStmt InsertMessage; EvStmt UpdateUser; EvStmt SelectLast10]
                ++ [EvCommit]).
      rewrite !app_assoc. reflexivity.
  - now apply post_message_raise in H.
Qed.

(** The connection is lost after the message was inserted and before the
    counter is written: nothing of the call remains but the key it drew. *)
Example lost_at_update_user :
  post_message short_rows_fit (fail_at UpdateUser) 200 hi_alice alice_session
  = (Raise ConnectionLost,
     mkSession (mkDb (users (db alice_session)) (messages (db alice_session))
                     2 3)
               (trace alice_session
                  ++ [EvBegin; EvStmt SelectUserForUpdate;
                      EvStmt InsertMessage; EvStmt UpdateUser; EvRollback])).
Proof. reflexivity. Qed.

(** The connection is lost at the insert of the message: the update of
    the counter is not sent. *)
Example lost_at_insert_message :
  post_message short_rows_fit (fail_at InsertMessage) 200 hi_alice alice_session
  = (Raise ConnectionLost,
     mkSession (db alice_session)
               (trace alice_session
                  ++ [EvBegin; EvStmt SelectUserForUpdate;
                      EvStmt InsertMessage; EvRollback])).
Proof. reflexivity. Qed.

(** A text with a NUL character is refused when the insert of the
    message is bound: no key is drawn, the update is not sent. *)
Example nul_text_refused :
  post_message short_rows_fit no_fault 200 nul_alice alice_session
  = (Raise DataError,
     mkSession (db alice_session)
               (trace alice_session
                  ++ [EvBegin; EvStmt SelectUserForUpdate;
                      EvStmt InsertMessage; EvRollback])).
Proof. reflexivity. Qed.

(** A name whose index row does not fit is refused by the insert into
    [users], after the key was drawn. *)
Example long_name_refused :
  post_message short_rows_fit no_fault 100 hi_long fresh_session
  = (Raise ProgramLimitExceeded,
     mkSession (mkDb [] [] 2 1)
               [EvBegin; EvStmt SelectUserForUpdate; EvStmt InsertUser;
                EvRollback]).
Proof. vm_compute. reflexivity. Qed.

(* ------------------------------------------------------------------ *)
(** ** How a call fails *)

Section Failures.

Variable fits : Index -> string -> bool.
Variable fault : Stmt -> bool.
Variable now : Z.

Lemma bind_inv {A B} (m : M A) (k : A -> M B) s out s' :
  bind m k s = (out, s') ->
  (exists a s1, m s = (Ok a, s1) /\ k a s1 = (out, s')) \/
  (exists e, m s = (Raise e, s') /\ out = Raise e).
Proof.
  unfold bind. destruct (m s) as [[a|e] s1]; intros H.
  - left; eauto.
  - right. inversion H; subst. eauto.
Qed.

Lemma send_raise k s e s' :
  send fault k s = (Raise e, s') -> fault k = true /\ e = ConnectionLost.
Proof.
  unfold send, emit, bind, raise, ret.
  destruct (fault k); intros H; inversion H; auto.
Qed.

Lemma select_user_for_update_raise name s e s' :
  select_user_for_update fault name s = (Raise e, s') ->
  (fault SelectUserForUpdate = true /\ e = ConnectionLost) \/
  (e = DataError /\ has_nul name = true) \/
  (e = MultipleResultsFound /\
   (2 <= List.length (users_named name (users (db s))))%nat).
Proof.
  unfold select_user_for_update. intros H.
  apply bind_inv in H as [(x & s1 & Hs & H)|(e1 & Hs & He)].
  - apply send_ok in Hs as [_ ->]. right.
    destruct (has_nul name); [inversion H; auto|]. right.
    unfold get_db, bind, ret, raise in H. cbn in H.
    destruct (users_named name (users (db s))) as [|u [|u' l]];
      inversion H. split; [reflexivity | cbn; lia].
  - left. apply send_raise in Hs as [? ->]. inversion He; auto.
Qed.

Lemma insert_user_raise name s e s' :
  insert_user fits fault name s = (Raise e, s') ->
  (fault InsertUser = true /\ e = ConnectionLost) \/
  (e = DataError /\
   (users_id_seq (db s) > INT4_MAX \/ has_nul name = true)) \/
  (e = ProgramLimitExceeded /\ fits ix_users_username name = false) \/
  e = IntegrityError.
Proof.
  unfold insert_user. intros H.
  apply bind_inv in H as [(x & s1 & Hs & H)|(e1 & Hs & He)].
  - apply send_ok in Hs as [_ ->]. right.
    destruct (has_nul name); [inversion H; auto|].
    unfold nextval_users_id, get_db, put_db, bind, ret, raise in H.
    reduce_in H.
    destruct (users_id_seq (db s) >? INT4_MAX) eqn:E1.
    { inversion H. left. split; [reflexivity|]. left. now apply Z.gtb_gt. }
    reduce_in H.
    destruct (users_pkey_taken _ _); [inversion H; auto|].
    destruct (username_taken _ _); [inversion H; auto|].
    destruct (fits ix_users_username name); [|inversion H; auto].
    reduce_in H. discriminate.
  - left. apply send_raise in Hs as [? ->]. inversion He; auto.
Qed.

Lemma update_user_last_msg_num_raise i v s e s' :
  update_user_last_msg_num fault i v s = (Raise e, s') ->
  (fault UpdateUser = true /\ e = ConnectionLost) \/
  (e = DataError /\ v > INT4_MAX).
Proof.
  unfold update_user_last_msg_num. intros H.
  apply bind_inv in H as [(x & s1 & Hs & H)|(e1 & Hs & He)].
  - apply send_ok in Hs as [_ ->]. right.
    unfold get_db, put_db, bind, ret, raise in H.
    destruct (v >? INT4_MAX) eqn:E1.
    + inversion H. split; [reflexivity|]. now apply Z.gtb_gt.
    + reduce_in H. discriminate.
  - left. apply send_raise in Hs as [? ->]. inversion He; auto.
Qed.

Lemma insert_message_raise name txt num s e s' :
  insert_message fits fault now name txt num s = (Raise e, s') ->
  (fault InsertMessage = true /\ e = ConnectionLost) \/
  (e = DataError /\
   (messages_message_id_seq (db s) > INT8_MAX \/ num > INT4_MAX \/
    has_nul name = true \/ has_nul txt = true)) \/
  (e = ProgramLimitExceeded /\ fits uq_sender_msgnum name = false) \/
  e = IntegrityError.
Proof.
  unfold insert_message. intros H.
  apply bind_inv in H as [(x & s1 & Hs & H)|(e1 & Hs & He)].
  - apply send_ok in Hs as [_ ->]. right.
    destruct (num >? INT4_MAX) eqn:E0.
    { inversion H. left. split; [reflexivity|]. right; left.
      now apply Z.gtb_gt. }
    destruct (has_nul name || has_nul txt) eqn:En.
    { inversion H. left. split; [reflexivity|]. right; right.
      now apply orb_true_iff in En. }
    unfold nextval_messages_message_id, get_db, put_db, bind, ret, raise in H.
    reduce_in H.
    destruct (messages_message_id_seq (db s) >? INT8_MAX) eqn:E1.
    { inversion H. left. split; [reflexivity|]. left. now apply Z.gtb_gt. }
    reduce_in H.
    destruct (messages_pkey_taken _ _); [inversion H; auto|].
    destruct (uq_sender_msgnum_taken _ _ _); [inversion H; auto|].
    destruct (fits uq_sender_msgnum name); [|inversion H; auto].
    reduce_in H. discriminate.
  - left. apply send_raise in Hs as [? ->]. inversion He; auto.
Qed.

Lemma select_last_10_raise upto s e s' :
  select_last_10 fault upto s = (Raise e, s') ->
  fault SelectLast10 = true /\ e = ConnectionLost.
Proof.
  unfold select_last_10. intros H.
  apply bind_inv in H as [(x & s1 & Hs & H)|(e1 & Hs & He)].
  - unfold get_db, bind, ret in H. cbn in H. discriminate.
  - apply send_raise in Hs as [? ->]. inversion He; auto.
Qed.

Lemma db_begin_raise_cases {A} (body : M A) s e s' :
  db_begin fault body s = (Raise e, s') ->
  (exists s1, body (mkSession (db s) (trace s ++ [EvBegin])) = (Raise e, s1)) \/
  (fault Commit = true /\ e = ConnectionLost).
Proof.
  unfold db_begin, rollback, emit, get_db, put_db, bind, ret, raise. cbn.
  destruct (body _) as [[x|e1] s1].
  - destruct (fault Commit); [|discriminate].
    intros H; inversion H; auto.
  - intros H; inversion H; subst. eauto.
Qed.

End Failures.

Lemma INT4_MAX_pos : 1 <= INT4_MAX.
Proof. unfold INT4_MAX. lia. Qed.

(** Every way the call can raise. *)
Lemma post_message_raise_cases fits fault now msg s e s' :
  post_message fits fault now msg s = (Raise e, s') ->
  let name := MessageRequest.sender_name msg in
  (e = ConnectionLost /\ exists k, fault k = true) \/
  (e = MultipleResultsFound /\
   (2 <= List.length (users_named name (users (db s))))%nat) \/
  (e = DataError /\
   (users_id_seq (db s) > INT4_MAX \/ assigned_num name (db s) > INT4_MAX \/
    messages_message_id_seq (db s) > INT8_MAX \/
    has_nul name = true \/ has_nul (MessageRequest.text msg) = true)) \/
  (e = ProgramLimitExceeded /\
   (fits ix_users_username name = false \/
    fits uq_sender_msgnum name = false)) \/
  e = IntegrityError.
Proof.
  intros H name. unfold post_message in H.
  apply bind_inv in H as [(rows & s1 & _ & H)|(e1 & H & He)];
    [discriminate|].
  inversion He; subst e1; clear He.
  apply db_begin_raise_cases in H as [(s1 & H)|[Hc ->]]; [|left; eauto].
  unfold post_message_tx in H. fold name in H.
  apply bind_inv in H as [(res & sa & Hsel & H)|(e1 & Hsel & He)].
  2:{ inversion He; subst e1.
      apply select_user_for_update_raise in Hsel as [[Hf ->]|[[-> Hn]|[-> Hl]]];
        [left; eauto | right; right; left; auto 10 | right; left; auto]. }
  apply select_user_for_update_ok in Hsel as (_ & -> & Hsel). cbn in Hsel.
  apply bind_inv in H as [(u & sb & Hu & H)|(e1 & Hu & He)].
  2:{ inversion He; subst e1. destruct res as [u0|]; [discriminate|].
      apply insert_user_raise in Hu as [[Hf ->]|[[-> Hq]|[[-> Hq]| ->]]];
        [left; eauto | right; right; left; cbn in Hq; intuition
        | right; right; right; left; auto | auto 10]. }
  assert (User.last_msg_num u + 1 = assigned_num name (db s) /\
          messages_message_id_seq (db sb) = messages_message_id_seq (db s))
    as [Hnum Hseq].
  { unfold assigned_num. destruct res as [u0|].
    - unfold ret in Hu. inversion Hu; subst. now rewrite Hsel.
    - apply insert_user_ok in Hu as (_ & _ & _ & _ & -> & ->).
      now rewrite Hsel. }
  apply bind_inv in H as [(m & sc & Hins & H)|(e1 & Hins & He)].
  2:{ inversion He; subst e1.
      apply insert_message_raise in Hins as [[Hf ->]|[[-> Hr]|[[-> Hr]| ->]]];
        [left; eauto | | right; right; right; left; auto | auto 10].
      right; right; left. split; [reflexivity|].
      rewrite Hseq, Hnum in Hr. intuition. }
  apply insert_message_ok in Hins as (_ & _ & Hv & _ & _ & _ & ->).
  apply bind_inv in H as [(x & sd & Hupd & H)|(e1 & Hupd & He)].
  2:{ inversion He; subst e1.
      apply update_user_last_msg_num_raise in Hupd as [[Hf ->]|[-> Hv']];
        [left; eauto | lia]. }
  apply select_last_10_raise in H as [Hf ->]. left; eauto.
Qed.

Lemma uq_free_not_in_keys name num ms :
  uq_sender_msgnum_taken name num ms = false ->
  ~ In (name, num) (sender_keys ms).
Proof.
  unfold uq_sender_msgnum_taken, sender_keys. intros Hf Hin.
  apply in_map_iff in Hin as (m & Hm & Hin). inversion Hm; subst.
  assert (existsb (fun x => String.eqb (Message.sender_name x)
                                       (Message.sender_name m)
                            && (Message.user_msg_num x
                                =? Message.user_msg_num m)) ms = true) as Ht.
  { apply existsb_exists. exists m. split; [assumption|].
    now rewrite String.eqb_refl, Z.eqb_refl. }
  congruence.
Qed.

Lemma accepted_assigned_num now msg s u m s' :
  accepted now msg s u m s' ->
  Message.user_msg_num m
  = assigned_num (MessageRequest.sender_name msg) (db s) /\
  uq_sender_msgnum_taken (MessageRequest.sender_name msg)
                         (Message.user_msg_num m) (messages (db s)) = false.
Proof.
  intros (us & q & evs & Hu & Hm & Hv & Hq & Hpk & Huq & Hdb & Htr).
  split; [|assumption]. subst m. cbn. unfold assigned_num.
  inversion Hu as [u0 Hsel|Hsel]; subst; now rewrite Hsel.
Qed.

(** C5.  [uq_sender_msgnum] holds after every call whenever it held
    before, whatever the counters say; and when the number the call
    computes is already stored for the sender, the call raises, stores
    neither a message nor a changed counter, and the exception is the
    integrity error itself unless something else fails before the index is
    reached: the connection, a value that leaves its column type (a number
    out of range, a string with a NUL character), a name too large for the
    index of [users]. *)
Theorem uq_sender_msgnum_enforced fits fault now msg s out s' :
  NoDup (sender_keys (messages (db s))) ->
  post_message fits fault now msg s = (out, s') ->
  let name := MessageRequest.sender_name msg in
  NoDup (sender_keys (messages (db s'))) /\
  (uq_sender_msgnum_taken name (assigned_num name (db s)) (messages (db s))
   = true ->
   (exists e, out = Raise e) /\
   users (db s') = users (db s) /\
   messages (db s') = messages (db s) /\
   ((forall k, fault k = false) -> well_ranged name (db s) ->
    storable fits msg ->
    out = Raise IntegrityError)).
Proof.
  intros Huniq H name. destruct out as [r|e].
  - apply post_message_ok in H as (u & m & Hacc & _).
    destruct (accepted_messages Hacc) as (Hms & _ & Hn & _).
    destruct (accepted_assigned_num Hacc) as (Hnum & Hfree).
    fold name in Hn, Hnum, Hfree. split.
    + rewrite Hms. unfold sender_keys. rewrite map_app. cbn.
      apply NoDup_app; repeat split.
      * exact Huniq.
      * repeat constructor. intros [].
      * intros k Hk [<-|[]]. rewrite Hn in Hk.
        now apply (uq_free_not_in_keys _ _ _ Hfree).
    + intros Htaken. rewrite Hnum in Hfree. congruence.
  - pose proof (post_message_raise _ _ _ _ _ H) as (Hus & Hms & _).
    split; [now rewrite Hms|].
    intros _. repeat split; eauto.
    intros Hnf (Hone & Hq4 & Hv & Hq8) (Hn & Ht & Hfu & Hfm).
    apply post_message_raise_cases in H. fold name in H, Hn, Hfu, Hfm.
    destruct H as [[_ [k Hk]]|[[_ Hl]|[[_ Hr]|[[_ Hr]| ->]]]].
    + rewrite Hnf in Hk. discriminate.
    + lia.
    + destruct Hr as [?|[?|[?|[?|?]]]]; try lia; congruence.
    + destruct Hr; congruence.
    + reflexivity.
Qed.

Lemma uq_sender_msgnum_enforced_witness :
  NoDup (sender_keys (messages (db stale_session))) /\
  fst (post_message short_rows_fit no_fault 200 hi_alice stale_session)
  = Raise IntegrityError /\
  messages (db (snd (post_message short_rows_fit no_fault 200 hi_alice
                       stale_session)))
  = messages (db stale_session).
Proof.
  assert (NoDup (sender_keys (messages (db stale_session)))) as Huniq.
  { repeat constructor. intros []. }
  destruct (@uq_sender_msgnum_enforced short_rows_fit no_fault 200 hi_alice
              stale_session
              (fst (post_message short_rows_fit no_fault 200 hi_alice
                      stale_session))
              (snd (post_message short_rows_fit no_fault 200 hi_alice
                      stale_session))
              Huniq eq_refl) as (_ & Hconf).
  destruct (Hconf eq_refl) as (_ & _ & Hms & He).
  split; [exact Huniq|]. split; [|exact Hms].
  apply He; [reflexivity| |repeat split].
  repeat split; vm_compute; (lia || discriminate).
Defined.

(** With a NUL character in the text the same call does not reach the
    index: the insert is refused when it is bound. *)
Example taken_pair_not_reached :
  post_message short_rows_fit no_fault 200 nul_alice stale_session
  = (Raise DataError,
     mkSession (db stale_session)
               [EvBegin; EvStmt SelectUserForUpdate; EvStmt InsertMessage;
                EvRollback]).
Proof. reflexivity. Qed.

(** The call of the witness, step by step: one attempt to insert, then
    the rollback; the update of the counter is not sent, and the key drawn
    for the message is spent. *)
Example stale_counter_surfaces :
  post_message short_rows_fit no_fault 200 hi_alice stale_session
  = (Raise IntegrityError,
     mkSession (mkDb [User.mk 1 "Alice" 0]
                     [Message.mk 1 "Alice" "hi" 100 1] 2 3)
               [EvBegin; EvStmt SelectUserForUpdate; EvStmt InsertMessage;
                EvRollback]).
Proof. reflexivity. Qed.

(* ------------------------------------------------------------------ *)
(** ** The first message of a sender *)

(** C4.  When no row of [users] has the sender's name, a successful call
    inserts one with counter 0 in the open transaction (the row is in the
    session after the insert, and the connection has not committed), the
    message it then inserts is numbered 1, and at the single commit that
    ends the call the table holds exactly one row of that name, with
    counter 1. *)
Theorem first_message_creates_sender fits fault now msg s r s' :
  users_named (MessageRequest.sender_name msg) (users (db s)) = [] ->
  post_message fits fault now msg s = (Ok r, s') ->
  let name := MessageRequest.sender_name msg in
  let u0 := User.mk (users_id_seq (db s)) name 0 in
  (exists s0 s1,
     select_user_for_update fault name
       (mkSession (db s) (trace s ++ [EvBegin])) = (Ok None, s0) /\
     insert_user fits fault name s0 = (Ok u0, s1) /\
     users (db s1) = users (db s) ++ [u0] /\
     trace s1 = trace s ++ [EvBegin; EvStmt SelectUserForUpdate;
                            EvStmt InsertUser]) /\
  (exists m rest,
     r = to_response m :: rest /\
     messages (db s') = messages (db s) ++ [m] /\
     Message.user_msg_num m = 1) /\
  users_named name (users (db s'))
  = [User.mk (users_id_seq (db s)) name 1] /\
  counters name (db s') = [1] /\
  trace s' = trace s ++ [EvBegin; EvStmt SelectUserForUpdate;
                         EvStmt InsertUser; EvStmt InsertMessage;
                         EvStmt UpdateUser; EvStmt SelectLast10; EvCommit].
Proof.
  intros Hnone H name u0.
  pose proof H as Hok.
  apply post_message_ok in Hok as (u & m & Hacc & Hr).
  assert (u = u0) as ->.
  { destruct Hacc as (us & q & evs & Hu & _).
    inversion Hu as [u1 Hsel|Hsel]; subst; [|reflexivity].
    fold name in Hsel. unfold name in Hsel. congruence. }
  pose proof (accepted_users Hacc) as Hrow.
  destruct (accepted_messages Hacc) as (Hms & Hfree & _ & _ & _ & Hnum).
  cbn in Hnum, Hrow. fold name in Hrow.
  split.
  { unfold post_message in H.
    apply bind_ok in H as (rows & s2 & H & _).
    apply db_begin_ok in H as (_ & s1 & H & _).
    unfold post_message_tx in H. fold name in H.
    apply bind_ok in H as (res & sa & Hsel & H).
    pose proof Hsel as Hsel'.
    apply select_user_for_update_ok in Hsel' as (_ & Hsa & Hres).
    cbn in Hres. unfold name in Hres. rewrite Hnone in Hres.
    destruct res as [u1|]; [discriminate|].
    apply bind_ok in H as (u & sb & Hu & _).
    pose proof Hu as Hu'.
    apply insert_user_ok in Hu' as (_ & _ & _ & _ & Hu0 & Hsb).
    rewrite Hsa in Hu0, Hsb. cbn in Hu0, Hsb. fold name in Hu0. subst u.
    exists sa, sb. split; [exact Hsel|]. split; [exact Hu|].
    rewrite Hsb. cbn. split; [reflexivity|].
    rewrite <- !app_assoc. reflexivity. }
  split.
  { destruct (recent_window_head m (messages (db s)) 9 Hfree) as (rest & Hw).
    exists m, (map to_response rest). rewrite Hr, Hms, Hw. cbn. auto. }
  rewrite Hnum in Hrow. split; [exact Hrow|].
  split; [unfold counters; fold name; now rewrite Hrow|].
  destruct Hacc as (us & q & evs & Hu & _ & _ & _ & _ & _ & _ & Htr).
  inversion Hu as [u1 Hsel|Hsel]; subst.
  - unfold name in *. congruence.
  - exact Htr.
Qed.

Lemma first_message_creates_sender_witness :
  users_named "Alice" (users (db fresh_session)) = [] /\
  counters "Alice" (db alice_session) = [1].
Proof.
  split; [reflexivity|].
  exact (proj1 (proj2 (proj2 (proj2
           (@first_message_creates_sender short_rows_fit no_fault 100
              hi_alice fresh_session alice_response alice_session
              eq_refl eq_refl))))).
Defined.

(* ------------------------------------------------------------------ *)
(** ** Validation *)

(** C7, refuted as stated.  A body whose [sender_name] is the empty
    string is a valid [MessageRequest]: the call is served and a message of
    the sender with the empty name is stored. *)
Lemma empty_sender_name_accepted :
  route_post_messages short_rows_fit no_fault 100 empty_sender_body
                      fresh_session
  = (Http200 [MessageResponse.mk 1 EmptyString "hi" 100 1],
     mkSession (mkDb [User.mk 1 EmptyString 1]
                     [Message.mk 1 EmptyString "hi" 100 1] 2 2)
               [EvBegin; EvStmt SelectUserForUpdate; EvStmt InsertUser;
                EvStmt InsertMessage; EvStmt UpdateUser; EvStmt SelectLast10;
                EvCommit]).
Proof. reflexivity. Qed.

Lemma validate_MessageRequest_some body msg :
  validate_MessageRequest body = Some msg ->
  exists fields,
    body = JObject fields /\
    json_field "sender_name" fields
    = Some (JString (MessageRequest.sender_name msg)) /\
    json_field "text" fields = Some (JString (MessageRequest.text msg)).
Proof.
  unfold validate_MessageRequest.
  destruct body as [| | | | |fields]; try discriminate.
  destruct (json_field "sender_name" fields) as [[| | |n| |]|] eqn:En;
    try discriminate.
  destruct (json_field "text" fields) as [[| | |t| |]|] eqn:Et;
    try discriminate.
  intros H; inversion H; subst. cbn. eauto.
Qed.

(** C7, as the code has it.  Any two strings are valid as
    [sender_name] and [text], the empty string included; a body that is not
    an object with both fields holding strings is answered with the client
    error before the handler runs: the session, tables and trace, is the one
    the request met, so no transaction was opened. *)
Theorem malformed_body_rejected fits fault now body s :
  (forall fields n t,
     body = JObject fields ->
     json_field "sender_name" fields = Some (JString n) ->
     json_field "text" fields = Some (JString t) -> False) ->
  route_post_messages fits fault now body s = (Http422, s) /\
  forall n t,
    validate_MessageRequest
      (JObject [("sender_name", JString n); ("text", JString t)])
    = Some (MessageRequest.mk n t).
Proof.
  intros Hbad. split; [|reflexivity].
  unfold route_post_messages.
  destruct (validate_MessageRequest body) as [msg|] eqn:Hv; [|reflexivity].
  apply validate_MessageRequest_some in Hv as (fields & -> & Hn & Ht).
  exfalso. eapply Hbad; eauto.
Qed.

Lemma malformed_body_rejected_witness :
  route_post_messages short_rows_fit no_fault 100 missing_text_body
                      alice_session
  = (Http422, alice_session).
Proof.
  refine (proj1 (@malformed_body_rejected short_rows_fit no_fault 100
                   missing_text_body alice_session _)).
  intros fields n t Hb _ Ht. inversion Hb; subst. discriminate.
Defined.

(* ------------------------------------------------------------------ *)
(** ** The sequence numbers of a sender *)

Lemma one_to_S n : one_to (S n) = one_to n ++ [Z.of_nat (S n)].
Proof. unfold one_to. rewrite seq_S, map_app. reflexivity. Qed.

Lemma one_to_spec n v : In v (one_to n) <-> 1 <= v <= Z.of_nat n.
Proof.
  unfold one_to. rewrite in_map_iff. split.
  - intros (k & <- & Hk). apply in_seq in Hk. lia.
  - intros Hv. exists (Z.to_nat v). split; [lia|]. apply in_seq. lia.
Qed.

Lemma one_to_NoDup n : NoDup (one_to n).
Proof.
  unfold one_to. apply Finite.Injective_map_NoDup; [|apply seq_NoDup].
  intros a b. lia.
Qed.

Lemma one_to_length n : List.length (one_to n) = n.
Proof. unfold one_to. now rewrite length_map, length_seq. Qed.

Lemma sender_sequences_snoc name us ms m q1 q2 :
  sender_sequences name (mkDb us (ms ++ [m]) q1 q2)
  = map Message.user_msg_num (messages_from name ms)
      ++ (if String.eqb (Message.sender_name m) name
          then [Message.user_msg_num m] else []).
Proof.
  unfold sender_sequences, messages_from. cbn.
  rewrite filter_app, map_app. cbn.
  now destruct (String.eqb (Message.sender_name m) name).
Qed.

Lemma set_last_msg_num_other i c l :
  (forall v, In v l -> User.id v <> i) -> set_last_msg_num i c l = l.
Proof.
  unfold set_last_msg_num. induction l as [|v l IH]; cbn; intros H;
    [reflexivity|].
  rewrite IH by auto.
  destruct (Z.eqb_spec (User.id v) i) as [E|E]; [|reflexivity].
  exfalso. exact (H v (or_introl eq_refl) E).
Qed.

Lemma set_last_msg_num_ids i c l :
  map User.id (set_last_msg_num i c l) = map User.id l.
Proof.
  unfold set_last_msg_num. rewrite map_map. apply map_ext.
  intros v. now destruct (User.id v =? i).
Qed.

Lemma users_pkey_free_not_in i us v :
  users_pkey_taken i us = false -> In v us -> User.id v <> i.
Proof.
  unfold users_pkey_taken. intros Hf Hin Heq.
  assert (existsb (fun x => User.id x =? i) us = true) as Ht.
  { apply existsb_exists. exists v. split; [assumption|]. now apply Z.eqb_eq. }
  congruence.
Qed.

Lemma users_named_in name us v :
  In v (users_named name us) <-> In v us /\ User.username v = name.
Proof.
  unfold users_named. rewrite filter_In. now rewrite String.eqb_eq.
Qed.

Lemma NoDup_map_eq {A B} (f : A -> B) l a b :
  NoDup (map f l) -> In a l -> In b l -> f a = f b -> a = b.
Proof.
  induction l as [|x l IH]; cbn; intros Hn Ha Hb Hf; [contradiction|].
  inversion Hn as [|? ? Hx Hl]; subst.
  destruct Ha as [->|Ha], Hb as [->|Hb]; auto.
  - exfalso. apply Hx. rewrite Hf. now apply in_map.
  - exfalso. apply Hx. rewrite <- Hf. now apply in_map.
Qed.

(** The rows of other senders are not touched by an accepted call. *)
Lemma accepted_other_users now msg s u m s' name :
  accepted now msg s u m s' ->
  NoDup (map User.id (users (db s))) ->
  name <> MessageRequest.sender_name msg ->
  users_named name (users (db s')) = users_named name (users (db s)).
Proof.
  intros (us & q & evs & Hu & Hm & Hv & Hq & Hpk & Huq & Hdb & Htr) Hn Hne.
  rewrite Hdb. cbn. rewrite users_named_set.
  inversion Hu as [u0 Hsel|Hsel Hq4 Hpk4 Hun]; subst.
  - apply set_last_msg_num_other. intros v Hv' Hid.
    apply users_named_in in Hv' as [Hin Hname].
    assert (In u (users (db s)) /\
            User.username u = MessageRequest.sender_name msg) as [Hinu Hnu].
    { apply users_named_in. rewrite Hsel. now left. }
    assert (v = u) by (eapply NoDup_map_eq; eauto). subst v. congruence.
  - rewrite users_named_app.
    replace (users_named name [_]) with (@nil User.t).
    2:{ unfold users_named. cbn.
        destruct (String.eqb_spec (MessageRequest.sender_name msg) name);
          [congruence | reflexivity]. }
    rewrite app_nil_r. apply set_last_msg_num_other. intros v Hv'.
    apply users_named_in in Hv' as [Hin _]. cbn.
    now apply (users_pkey_free_not_in _ _ Hpk4).
Qed.

Lemma accepted_ids now msg s u m s' :
  accepted now msg s u m s' ->
  NoDup (map User.id (users (db s))) ->
  NoDup (map User.id (users (db s'))).
Proof.
  intros (us & q & evs & Hu & Hm & Hv & Hq & Hpk & Huq & Hdb & Htr) Hn.
  rewrite Hdb. cbn. rewrite set_last_msg_num_ids.
  inversion Hu as [u0 Hsel|Hsel Hq4 Hpk4 Hun]; subst; [assumption|].
  rewrite map_app. cbn. apply NoDup_app; repeat split.
  - assumption.
  - repeat constructor. intros [].
  - intros i Hi [<-|[]]. apply in_map_iff in Hi as (v & Hv' & Hin).
    now apply (users_pkey_free_not_in _ _ Hpk4 Hin).
Qed.

Lemma sender_sequences_tables name d d' :
  messages d' = messages d -> sender_sequences name d' = sender_sequences name d.
Proof. unfold sender_sequences. now intros ->. Qed.

Lemma sequenced_tables d d' :
  users d' = users d -> messages d' = messages d ->
  sequenced d -> sequenced d'.
Proof.
  intros Hu Hm [Hn Hs]. split; [now rewrite Hu|].
  intros name. specialize (Hs name). unfold sender_ok in *.
  rewrite Hu, (sender_sequences_tables name _ _ Hm). exact Hs.
Qed.

Lemma stored_tables name d d' :
  users d' = users d -> stored name d' = stored name d.
Proof. unfold stored. now intros ->. Qed.

(** An accepted call keeps the invariant and advances the sender's
    counter, and no other, by one. *)
Lemma accepted_sequenced now msg s u m s' :
  accepted now msg s u m s' ->
  sequenced (db s) ->
  sequenced (db s') /\
  forall name,
    stored name (db s')
    = (stored name (db s)
       + if String.eqb (MessageRequest.sender_name msg) name then 1 else 0)%nat.
Proof.
  intros Hacc [Hn Hs].
  pose proof (accepted_users Hacc) as Hrow.
  pose proof (accepted_ids Hacc Hn) as Hn'.
  destruct (accepted_messages Hacc) as (Hms & _ & Hname & _ & _ & Hnum).
  set (name0 := MessageRequest.sender_name msg) in *.
  assert (0 <= User.last_msg_num u /\
          sender_sequences name0 (db s)
          = one_to (Z.to_nat (User.last_msg_num u)) /\
          stored name0 (db s) = Z.to_nat (User.last_msg_num u))
    as (Hpos & Hseq & Hst).
  { destruct Hacc as (us & q & evs & Hu & _).
    specialize (Hs name0). unfold sender_ok, stored in *. fold name0 in Hu.
    inversion Hu as [u0 Hsel|Hsel]; subst; rewrite Hsel in *; cbn.
    - destruct Hs as [H1 H2]. repeat split; auto; lia.
    - repeat split; auto; lia. }
  assert (forall name,
            sender_sequences name (db s')
            = sender_sequences name (db s)
                ++ (if String.eqb name0 name
                    then [User.last_msg_num u + 1] else [])) as Hseqs.
  { intros name. destruct (db s') as [us' ms' q1 q2]. cbn in Hms. subst ms'.
    rewrite sender_sequences_snoc, Hname, Hnum. reflexivity. }
  split.
  - split; [exact Hn'|]. intros name. unfold sender_ok.
    rewrite Hseqs. destruct (String.eqb_spec name0 name) as [<-|Hne].
    + rewrite Hrow. cbn. rewrite Hnum. split; [lia|].
      rewrite Hseq.
      replace (Z.to_nat (User.last_msg_num u + 1))
        with (S (Z.to_nat (User.last_msg_num u))) by lia.
      rewrite one_to_S. do 2 f_equal. lia.
    + rewrite (accepted_other_users Hacc Hn) by (subst name0; congruence).
      rewrite app_nil_r. apply Hs.
  - intros name. unfold stored at 1.
    destruct (String.eqb_spec name0 name) as [<-|Hne].
    + rewrite Hrow. cbn. rewrite Hnum, Hst. lia.
    + rewrite (accepted_other_users Hacc Hn) by (subst name0; congruence).
      unfold stored. lia.
Qed.

(** One call, whatever its outcome. *)
Lemma serve_sequenced fits c s out s' :
  serve fits c s = (out, s') ->
  sequenced (db s) ->
  sequenced (db s') /\
  forall name,
    stored name (db s')
    = (stored name (db s)
       + if String.eqb (MessageRequest.sender_name (call_msg c)) name
            && is_ok out
         then 1 else 0)%nat.
Proof.
  unfold serve. intros H Hinv. destruct out as [r|e].
  - apply post_message_ok in H as (u & m & Hacc & _).
    destruct (accepted_sequenced Hacc Hinv) as [Hinv' Hst].
    split; [assumption|]. intros name. rewrite Hst.
    unfold is_ok. now rewrite andb_true_r.
  - apply post_message_raise in H as (Hu & Hm & _). split.
    + eapply sequenced_tables; eassumption.
    + intros name. unfold is_ok.
      rewrite andb_false_r, (@stored_tables name (db s) (db s') Hu). lia.
Qed.

Lemma serve_all_sequenced fits cs : forall s outs s',
  serve_all fits cs s = (outs, s') ->
  sequenced (db s) ->
  sequenced (db s') /\
  forall name,
    stored name (db s')
    = (stored name (db s) + accepted_from name cs outs)%nat.
Proof.
  induction cs as [|c cs IH]; cbn; intros s outs s' H Hinv.
  - inversion H; subst. split; [assumption|]. intros; lia.
  - destruct (serve fits c s) as [out s1] eqn:H1.
    destruct (serve_all fits cs s1) as [outs' s2] eqn:H2.
    inversion H; subst.
    destruct (serve_sequenced _ _ _ H1 Hinv) as [Hinv1 Hst1].
    destruct (IH _ _ _ H2 Hinv1) as [Hinv2 Hst2].
    split; [assumption|]. intros name. rewrite Hst2, Hst1. cbn. lia.
Qed.

Lemma empty_db_sequenced : sequenced empty_db.
Proof. split; [constructor|]. intros name. reflexivity. Qed.

(** C1.  Serve any calls, of any senders in any order, some of them
    failing, from a fresh schema.  For every sender, with [n] the number of
    its calls that were accepted: the numbers stored for it are [1 .. n] in
    the order of insertion (each value from 1 to [n] is there, and none
    twice), and its row holds the counter [n] (there is no row when
    [n = 0]). *)
Theorem sender_sequences_gapless fits cs name :
  let outs := fst (serve_all fits cs fresh_session) in
  let d := db (snd (serve_all fits cs fresh_session)) in
  let n := accepted_from name cs outs in
  sender_sequences name d = one_to n /\
  (forall v, In v (sender_sequences name d) <-> 1 <= v <= Z.of_nat n) /\
  NoDup (sender_sequences name d) /\
  List.length (sender_sequences name d) = n /\
  counters name d = match n with O => [] | S _ => [Z.of_nat n] end.
Proof.
  intros outs d n.
  destruct (serve_all fits cs fresh_session) as [outs' s'] eqn:H.
  cbn in outs, d. subst outs d.
  destruct (serve_all_sequenced _ _ _ H empty_db_sequenced) as [[_ Hs] Hst].
  specialize (Hs name). specialize (Hst name).
  change (stored name (db fresh_session)) with 0%nat in Hst.
  cbn in Hst. fold n in Hst.
  assert (sender_sequences name (db s') = one_to n /\
          counters name (db s')
          = match n with O => [] | S _ => [Z.of_nat n] end) as [Hseq Hc].
  { unfold sender_ok, stored, counters in *.
    destruct (users_named name (users (db s'))) as [|u [|u' l]];
      [| |contradiction].
    - rewrite <- Hst. auto.
    - destruct Hs as [Hpos Hs]. rewrite <- Hst in *. split; [assumption|].
      cbn. destruct (Z.to_nat (User.last_msg_num u)) eqn:E; [lia|].
      f_equal. lia. }
  rewrite Hseq. split; [reflexivity|]. split; [apply one_to_spec|].
  split; [apply one_to_NoDup|]. split; [apply one_to_length | exact Hc].
Qed.

(* ------------------------------------------------------------------ *)
(** ** Two calls at once: the row lock *)

(** Writing the next number into the row of [n] and appending the message
    that carries it keeps the store sequenced. *)
Lemma bump_sequenced d n u m q1 q2 :
  sequenced d ->
  users_named n (users d) = [u] ->
  Message.sender_name m = n ->
  Message.user_msg_num m = User.last_msg_num u + 1 ->
  let d' := mkDb (set_last_msg_num (User.id u) (Message.user_msg_num m)
                    (users d))
                 (messages d ++ [m]) q1 q2 in
  sequenced d' /\
  users_named n (users d')
  = [User.mk (User.id u) n (User.last_msg_num u + 1)].
Proof.
  intros [Hn Hs] Hsel Hname Hnum d'.
  assert (In u (users d) /\ User.username u = n) as [Hinu Hnu].
  { apply users_named_in. rewrite Hsel. now left. }
  assert (users_named n (users d')
          = [User.mk (User.id u) n (User.last_msg_num u + 1)]) as Hrow.
  { subst d'. cbn. rewrite users_named_set, Hsel.
    unfold set_last_msg_num. cbn. now rewrite Z.eqb_refl, Hnu, Hnum. }
  assert (forall name, name <> n ->
            users_named name (users d') = users_named name (users d)) as Hoth.
  { intros name Hne. subst d'. cbn. rewrite users_named_set.
    apply set_last_msg_num_other. intros v Hv Hid.
    apply users_named_in in Hv as [Hin Hname'].
    assert (v = u) by (eapply NoDup_map_eq; eauto). subst v. congruence. }
  split; [|exact Hrow]. split.
  - subst d'. cbn. now rewrite set_last_msg_num_ids.
  - intros name. unfold sender_ok.
    replace (sender_sequences name d')
      with (sender_sequences name d
              ++ (if String.eqb n name then [User.last_msg_num u + 1] else []))
      by (subst d'; rewrite sender_sequences_snoc, Hname, Hnum; reflexivity).
    destruct (String.eqb_spec n name) as [<-|Hne].
    + rewrite Hrow. cbn.
      specialize (Hs n). unfold sender_ok in Hs. rewrite Hsel in Hs.
      destruct Hs as [Hpos Hseq]. split; [lia|]. rewrite Hseq.
      replace (Z.to_nat (User.last_msg_num u + 1))
        with (S (Z.to_nat (User.last_msg_num u))) by lia.
      rewrite one_to_S. do 2 f_equal. lia.
    + rewrite Hoth by congruence. rewrite app_nil_r. apply Hs.
Qed.

Ltac inv_step H :=
  repeat match type of H with
         | context [if ?b then _ else _] =>
             let E := fresh "E" in destruct b eqn:E
         end;
  try discriminate H;
  inversion H; subst; clear H.

(** One statement of one of the two transactions keeps what [lock_inv]
    says. *)
Lemma tx_step_lock_inv n k0 d u other t d' pc' :
  sequenced d ->
  users_named n (users d) = [u] ->
  side_ok n k0 u t ->
  side_ok n k0 u other ->
  row_held t = None \/ row_held other = None ->
  (forall a b, assigned t = Some a -> assigned other = Some b -> a <> b) ->
  k0 + done_count other <= User.last_msg_num u ->
  tx_step d other t = Some (d', pc') ->
  let t' := mkTxn (tx_msg t) (tx_now t) pc' in
  sequenced d' /\
  exists u',
    users_named n (users d') = [u'] /\
    side_ok n k0 u' t' /\
    side_ok n k0 u' other /\
    (row_held t' = None \/ row_held other = None) /\
    (forall a b, assigned t' = Some a -> assigned other = Some b -> a <> b) /\
    User.last_msg_num u' - done_count t' = User.last_msg_num u - done_count t.
Proof.
  intros Hseq Hsel [Hnt Ht] [Hno Ho] Hex Hdist Hk Hstep t'.
  unfold tx_step in Hstep. rewrite Hnt in Hstep.
  destruct t as [msg now pc]. cbn in *. subst t'.
  unfold side_ok, row_held, assigned, done_count in *. cbn in *.
  destruct pc as [| |i|v own|v own|v own i|v own m|v own m rows|m rows|e];
    cbn in *; try contradiction.
  - (* SELECT ... FOR UPDATE *)
    rewrite Hsel in Hstep. inv_step Hstep.
    split; [assumption|]. exists u. cbn. repeat split; auto; try discriminate.
    right. unfold locks_username, row_held in E.
    destruct (tx_pc other); cbn in *; auto; exfalso;
      first [destruct Ho as (-> & -> & _) | destruct Ho as (-> & ->)];
      rewrite String.eqb_refl in E; discriminate.
  - (* UPDATE users *)
    destruct Ht as [-> ->]. inv_step Hstep;
      (split; [assumption|]); exists u; cbn; repeat split; auto;
      try discriminate;
      try (destruct Hex as [Hex|Hex]; [discriminate | now auto]).
  - (* nextval of messages.message_id *)
    destruct Ht as [-> ->]. inv_step Hstep;
      (split; [eapply sequenced_tables; [| |exact Hseq]; reflexivity|]);
      exists u; cbn; repeat split; auto; try discriminate;
      try (destruct Hex as [Hex|Hex]; [discriminate | now auto]).
  - (* INSERT INTO messages *)
    destruct Ht as [-> ->]. inv_step Hstep;
      (split; [assumption|]); exists u; cbn; repeat split; auto;
      try discriminate;
      try (destruct Hex as [Hex|Hex]; [discriminate | now auto]).
  - (* the recent-window read *)
    destruct Ht as (-> & -> & Hm1 & Hm2). inv_step Hstep.
    split; [assumption|]. exists u. cbn. repeat split; auto;
      try discriminate;
      try (destruct Hex as [Hex|Hex]; [discriminate | now auto]).
  - (* COMMIT *)
    destruct Ht as (-> & -> & Hm1 & Hm2). inv_step Hstep.
    destruct (@bump_sequenced d _ u m (users_id_seq d)
                (messages_message_id_seq d) Hseq Hsel Hm1 Hm2)
      as [Hseq' Hrow].
    split; [exact Hseq'|].
    eexists. split; [exact Hrow|]. cbn.
    destruct Hex as [Hex|Hex]; [discriminate|].
    repeat split; auto.
    all: try (intros a b Ha Hb; inversion Ha; subst).
    all: destruct (tx_pc other); cbn in *; try discriminate;
      try contradiction; auto; try lia.
    all: inversion Hb; subst; lia.
  - discriminate.
  - discriminate.
Qed.

Lemma done_count_range t : 0 <= done_count t <= 1.
Proof. unfold done_count. destruct (tx_pc t); lia. Qed.

Arguments done_count : simpl never.
Arguments side_ok : simpl never.
Arguments row_held : simpl never.
Arguments assigned : simpl never.

Lemma step_lock_inv n k0 sd w w' :
  lock_inv n k0 w -> step sd w = Some w' -> lock_inv n k0 w'.
Proof.
  intros (Hseq & u & Hsel & HL & HR & Hex & Hdist & Hcnt) Hstep.
  pose proof (done_count_range (left_tx w)) as HcL.
  pose proof (done_count_range (right_tx w)) as HcR.
  unfold step in Hstep.
  destruct (tx_step (committed w) (tx_of (flip sd) w) (tx_of sd w))
    as [[d pc]|] eqn:E; [|discriminate].
  inversion Hstep; subst w'; clear Hstep.
  destruct sd; cbn in E.
  - destruct (@tx_step_lock_inv n k0 (committed w) u (right_tx w) (left_tx w)
                d pc Hseq Hsel HL HR Hex Hdist ltac:(lia) E)
      as (Hseq' & u' & Hsel' & HL' & HR' & Hex' & Hdist' & Hcnt').
    split; [exact Hseq'|]. exists u'. cbn.
    split; [exact Hsel'|]. split; [exact HL'|]. split; [exact HR'|].
    split; [exact Hex'|]. split; [exact Hdist'|]. lia.
  - assert (row_held (right_tx w) = None \/ row_held (left_tx w) = None)
      as Hex2 by tauto.
    assert (forall a b, assigned (right_tx w) = Some a ->
                        assigned (left_tx w) = Some b -> a <> b) as Hdist2.
    { intros a b Ha Hb Hab. exact (Hdist b a Hb Ha (eq_sym Hab)). }
    destruct (@tx_step_lock_inv n k0 (committed w) u (left_tx w) (right_tx w)
                d pc Hseq Hsel HR HL Hex2 Hdist2 ltac:(lia) E)
      as (Hseq' & u' & Hsel' & HR' & HL' & Hex' & Hdist' & Hcnt').
    split; [exact Hseq'|]. exists u'. cbn.
    split; [exact Hsel'|]. split; [exact HL'|]. split; [exact HR'|].
    split; [tauto|]. split; [|lia].
    intros a b Ha Hb Hab. exact (Hdist' b a Hb Ha (eq_sym Hab)).
Qed.

Lemma is_over_done_count t : is_over t = false -> done_count t = 0.
Proof. unfold is_over, done_count. destruct (tx_pc t); auto; discriminate. Qed.

Lemma side_ok_failed n k0 u t e :
  side_ok n k0 u t -> side_ok n k0 u (mkTxn (tx_msg t) (tx_now t) (Failed e)).
Proof. intros [Hn _]. split; [exact Hn | exact I]. Qed.

Lemma drop_lock_inv n k0 sd w w' :
  lock_inv n k0 w -> drop sd w = Some w' -> lock_inv n k0 w'.
Proof.
  intros (Hseq & u & Hsel & HL & HR & Hex & Hdist & Hcnt) Hdrop.
  unfold drop in Hdrop.
  destruct (is_over (tx_of sd w)) eqn:Hover; [discriminate|].
  apply is_over_done_count in Hover.
  inversion Hdrop; subst w'; clear Hdrop.
  split; [destruct sd; exact Hseq|]. exists u.
  destruct sd; cbn in *; (split; [exact Hsel|]).
  - split; [now apply side_ok_failed|]. split; [exact HR|].
    split; [now left|]. split; [intros a b Ha; discriminate Ha|].
    rewrite Hcnt, Hover. reflexivity.
  - split; [exact HL|]. split; [now apply side_ok_failed|].
    split; [now right|]. split; [intros a b _ Hb; discriminate Hb|].
    rewrite Hcnt, Hover. reflexivity.
Qed.

Lemma run_lock_inv n k0 sched : forall w,
  lock_inv n k0 w -> lock_inv n k0 (run sched w).
Proof.
  induction sched as [|tn sched IH]; cbn; intros w Hinv; [assumption|].
  apply IH. destruct (turn tn w) as [w'|] eqn:E; [|assumption].
  destruct tn as [sd|sd]; cbn in E.
  - eapply step_lock_inv; eassumption.
  - eapply drop_lock_inv; eassumption.
Qed.

Lemma start_lock_inv d x nowx y nowy u :
  sequenced d ->
  MessageRequest.sender_name y = MessageRequest.sender_name x ->
  users_named (MessageRequest.sender_name x) (users d) = [u] ->
  lock_inv (MessageRequest.sender_name x) (User.last_msg_num u)
           (start d x nowx y nowy).
Proof.
  intros Hseq Hxy Hsel. split; [exact Hseq|]. exists u. cbn.
  unfold side_ok, done_count, row_held, assigned. cbn.
  repeat split; auto; try discriminate. lia.
Qed.

(** While one of the two holds the row, the other waits at its
    [SELECT ... FOR UPDATE]. *)
Lemma lock_inv_waits n k0 w sd :
  lock_inv n k0 w ->
  row_held (tx_of (flip sd) w) <> None ->
  tx_pc (tx_of sd w) = AtSelectUser ->
  step sd w = None.
Proof.
  intros (Hseq & u & Hsel & HL & HR & Hex & Hdist & Hcnt) Hheld Hpc.
  assert (side_ok n k0 u (tx_of sd w) /\ side_ok n k0 u (tx_of (flip sd) w))
    as [[Hn _] [_ Ho]] by (destruct sd; cbn; auto).
  unfold step, tx_step. rewrite Hpc, Hn, Hsel.
  replace (locks_username (User.username u) (tx_of (flip sd) w)) with true;
    [reflexivity|].
  unfold locks_username. unfold row_held in *.
  destruct (tx_pc (tx_of (flip sd) w)); try contradiction;
    try (exfalso; apply Hheld; reflexivity);
    first [destruct Ho as (-> & -> & _) | destruct Ho as (-> & ->)];
    now rewrite String.eqb_refl.
Qed.

(* ------------------------------------------------------------------ *)
(** ** Two calls at once: different senders *)

Lemma tx_step_carries_name n d other t d' pc' :
  carries_name n t -> tx_step d other t = Some (d', pc') ->
  carries_name n (mkTxn (tx_msg t) (tx_now t) pc').
Proof.
  intros [Hn Ht] Hstep. unfold tx_step in Hstep. rewrite Hn in Hstep.
  split; [exact Hn|]. cbn.
  destruct (tx_pc t) as [| |i|v own|v own|v own i|v own m|v own m rows
                         |m rows|e]; cbn in *.
  - destruct (users_named n (users d)) as [|u [|u' l]] eqn:Hsel;
      inv_step Hstep; cbn; auto.
    eapply users_named_self; eassumption.
  - inv_step Hstep; cbn; auto.
  - inv_step Hstep; cbn; auto.
  - inv_step Hstep; cbn; auto.
  - inv_step Hstep; cbn; auto.
  - inv_step Hstep; cbn; auto.
  - inv_step Hstep; cbn; auto.
  - inv_step Hstep; cbn; auto.
  - discriminate.
  - discriminate.
Qed.

Lemma run_carries_name nl nr sched : forall w,
  carries_name nl (left_tx w) -> carries_name nr (right_tx w) ->
  carries_name nl (left_tx (run sched w)) /\
  carries_name nr (right_tx (run sched w)).
Proof.
  induction sched as [|tn sched IH]; cbn; intros w HL HR; [auto|].
  destruct (turn tn w) as [w'|] eqn:E; [|auto].
  destruct tn as [sd|sd]; cbn in E.
  - unfold step in E.
    destruct (tx_step (committed w) (tx_of (flip sd) w) (tx_of sd w))
      as [[d pc]|] eqn:E1; [|discriminate].
    inversion E; subst w'; clear E.
    destruct sd; cbn in *; apply IH; cbn; auto;
      eapply tx_step_carries_name; eassumption.
  - unfold drop in E. destruct (is_over (tx_of sd w)); [discriminate|].
    inversion E; subst w'; clear E.
    destruct sd; cbn in *; apply IH; cbn; auto;
      split; cbn; auto; [apply HL | apply HR].
Qed.

(** A transaction that is not over never waits for a transaction of
    another sender. *)
Lemma other_sender_no_wait n n' d other t :
  n <> n' ->
  carries_name n t -> carries_name n' other ->
  is_over t = false ->
  tx_step d other t <> None.
Proof.
  intros Hne [Hn Ht] [Hn' Ho] Hover. unfold tx_step, is_over in *.
  rewrite Hn.
  assert (forall name, name = n -> locks_username name other = false) as Hlock.
  { intros name ->. unfold locks_username, row_held.
    destruct (tx_pc other); cbn in *; auto;
      try match type of Ho with _ /\ _ => destruct Ho as [Ho _] end;
      destruct own; auto; apply String.eqb_neq; congruence. }
  assert (inserting_username n other = false) as Hins.
  { unfold inserting_username, row_held.
    destruct (tx_pc other); cbn in *; auto;
      try match type of Ho with _ /\ _ => destruct Ho as [Ho _] end;
      destruct own; auto; apply String.eqb_neq; congruence. }
  assert (forall num, inserting_message n num other = false) as Hmsg.
  { intros num. unfold inserting_message.
    destruct (tx_pc other); cbn in *; auto; destruct Ho as [_ Ho];
      apply andb_false_iff; left; apply String.eqb_neq; congruence. }
  destruct (tx_pc t) as [| |i|v own|v own|v own i|v own m|v own m rows
                         |m rows|e]; try discriminate.
  - destruct (users_named n (users d)) as [|u [|u' l]] eqn:Hsel;
      try discriminate.
    rewrite Hlock; [discriminate|]. eapply users_named_self; eassumption.
  - destruct (_ >? _); discriminate.
  - rewrite Hins. destruct (users_pkey_taken _ _); [discriminate|].
    destruct (username_taken _ _); discriminate.
  - destruct (_ >? _); discriminate.
  - destruct (_ >? _); discriminate.
  - rewrite Hmsg. destruct (_ >? _); [discriminate|].
    destruct (messages_pkey_taken _ _); [discriminate|].
    destruct (uq_sender_msgnum_taken _ _ _); discriminate.
Qed.

Lemma is_over_frees t :
  is_over t = true ->
  (forall name, locks_username name t = false) /\
  (forall name, inserting_username name t = false) /\
  (forall name num, inserting_message name num t = false).
Proof.
  unfold is_over, locks_username, inserting_username, inserting_message,
    row_held.
  destruct (tx_pc t); try discriminate; auto.
Qed.

Ltac rew_known :=
  repeat match goal with
         | E : _ = true |- _ => rewrite E
         | E : _ = false |- _ => rewrite E
         | E : users_named _ _ = _ |- _ => rewrite E
         | H : forall _, _ = false |- _ => rewrite H
         | H : forall _ _, _ = false |- _ => rewrite H
         end.

Ltac rew_known_in HX :=
  repeat match goal with
         | E : _ = true |- _ => rewrite E in HX
         | E : _ = false |- _ => rewrite E in HX
         | E : users_named _ _ = _ |- _ => rewrite E in HX
         | H : forall _, _ = false |- _ => rewrite H in HX
         | H : forall _ _, _ = false |- _ => rewrite H in HX
         end.

(** Runs the innermost pending statement of the left transaction. *)
Ltac advance :=
  match goal with
  | |- context [step L (mkWorld ?d ?t ?o)] =>
      let X := fresh "X" in
      let HX := fresh "HX" in
      remember (step L (mkWorld d t o)) as X eqn:HX;
      unfold step, tx_step in HX;
      cbn -[Z.gtb Z.add INT4_MAX INT8_MAX] in HX;
      rew_known_in HX;
      cbn -[Z.gtb Z.add INT4_MAX INT8_MAX] in HX;
      subst X; cbn -[Z.gtb Z.add INT4_MAX INT8_MAX step]
  end.

Ltac alone_done :=
  unfold_handler; unfold no_fault;
  repeat (progress (rew_known; cbn -[Z.gtb Z.add INT4_MAX INT8_MAX step]));
  repeat advance;
  repeat split.

Ltac case_on c :=
  let E := fresh "E" in destruct c eqn:E; [solve [alone_done]|].

(** A transaction that runs while the other one is over does what the
    handler does when it is called alone with a request the database
    stores: the same rows are committed, the sequences end at the same
    values, and the caller receives the same outcome. *)
Lemma alone_is_post_message fits d now msg other :
  storable fits msg ->
  is_over other = true ->
  let w := run (repeat (Go L) 8)
               (mkWorld d (mkTxn msg now AtSelectUser) other) in
  committed w
  = db (snd (post_message fits no_fault now msg (mkSession d []))) /\
  outcome (left_tx w) = Some (fst (post_message fits no_fault now msg
                                     (mkSession d []))) /\
  right_tx w = other.
Proof.
  intros (Hn & Ht & Hfu & Hfm) Hover w. subst w.
  destruct (is_over_frees _ Hover) as (Hlock & Hins & Hmsg). clear Hover.
  destruct d as [us ms q4 q8].
  cbn [run repeat turn].
  destruct (users_named (MessageRequest.sender_name msg) us)
    as [|u [|u' l]] eqn:Hsel.
  - (* no row: the handler inserts one *)
    case_on (q4 >? INT4_MAX).
    case_on (users_pkey_taken q4 us).
    case_on (username_taken (MessageRequest.sender_name msg) us).
    assert ((0 + 1 >? INT4_MAX) = false) as E4 by reflexivity.
    case_on (q8 >? INT8_MAX).
    case_on (messages_pkey_taken q8 ms).
    case_on (uq_sender_msgnum_taken (MessageRequest.sender_name msg)
               (0 + 1) ms).
    alone_done.
  - (* the row is there *)
    case_on (User.last_msg_num u + 1 >? INT4_MAX).
    case_on (q8 >? INT8_MAX).
    case_on (messages_pkey_taken q8 ms).
    case_on (uq_sender_msgnum_taken (MessageRequest.sender_name msg)
               (User.last_msg_num u + 1) ms).
    alone_done.
  - (* several rows *)
    alone_done.
Qed.

Lemma alice_session_sequenced : sequenced (db alice_session).
Proof.
  pose proof (@serve_all_sequenced short_rows_fit [mkCall hi_alice 100 no_fault]
                fresh_session [Ok alice_response] alice_session eq_refl
                empty_db_sequenced) as [H _].
  exact H.
Qed.

(** C3, refuted as stated.  First: two calls for a sender that has no row
    yet both find no row, and nothing to lock; the one that inserts its
    row second is refused by the unique index of [username], so it is never
    given the next number.  Second: a call reads the counter under the
    lock and is then rolled back; the other call reads the same counter. *)
Lemma same_sender_not_serialized :
  (let w := run race_schedule (start empty_db bob_x 1 bob_y 2) in
   outcome (left_tx w) = Some (Ok [MessageResponse.mk 1 "Bob" "x" 1 1]) /\
   outcome (right_tx w) = Some (Raise IntegrityError) /\
   counters "Bob" (committed w) = [1] /\
   forall k, ~ serialized_from k w) /\
  (let w0 := start (db alice_session) hi_alice 200 hi_alice 201 in
   row_held (left_tx (run [Go L] w0)) = Some (User.mk 1 "Alice" 1, false) /\
   row_held (right_tx (run [Go L; Drop L; Go R] w0))
   = Some (User.mk 1 "Alice" 1, false)).
Proof.
  split; [|split; reflexivity].
  cbn zeta. repeat split; try reflexivity.
  intros k [[_ H]|[_ H]]; vm_compute in H; discriminate.
Qed.

(** C3, as the code has it.  Two calls are served at once, in any
    interleaving of their statements and with either connection possibly
    lost at any point.

    Same sender, whose row is committed with counter [k]: at most one of
    the two holds the row at a time; the row a call holds is the locked,
    committed row, so the counter it read is the one that is committed now;
    while one holds it, the other waits at its [SELECT ... FOR UPDATE]; and
    when both have committed, one was given [k + 1] and the other [k + 2],
    and the counter is [k + 2].

    Different senders: a call that is not over can always run its next
    statement; it never waits for the other. *)
Theorem row_lock_serializes d x nowx y nowy sched :
  sequenced d ->
  let w := run sched (start d x nowx y nowy) in
  let n := MessageRequest.sender_name x in
  (MessageRequest.sender_name y = n ->
   forall u, users_named n (users d) = [u] ->
     let k := User.last_msg_num u in
     (row_held (left_tx w) = None \/ row_held (right_tx w) = None) /\
     (forall sd v own,
        row_held (tx_of sd w) = Some (v, own) ->
        own = false /\ users_named n (users (committed w)) = [v]) /\
     (forall sd,
        row_held (tx_of (flip sd) w) <> None ->
        tx_pc (tx_of sd w) = AtSelectUser ->
        step sd w = None) /\
     (forall a b,
        assigned (left_tx w) = Some a -> assigned (right_tx w) = Some b ->
        serialized_from k w /\ counters n (committed w) = [k + 2])) /\
  (MessageRequest.sender_name y <> n ->
   forall sd, is_over (tx_of sd w) = false -> step sd w <> None).
Proof.
  intros Hseq w n. split.
  - intros Hy u Hsel k.
    pose proof (@run_lock_inv n k sched _
                  (@start_lock_inv d x nowx y nowy u Hseq Hy Hsel)) as Hinv.
    fold w n k in Hinv.
    pose proof Hinv as (Hseq' & u' & Hsel' & HL & HR & Hex & Hdist & Hcnt).
    split; [exact Hex|]. split; [|split].
    + intros sd v own Hheld.
      assert (side_ok n k u' (tx_of sd w)) as [_ Hs]
          by (destruct sd; assumption).
      unfold row_held in Hheld.
      destruct (tx_pc (tx_of sd w)); try discriminate;
        inversion Hheld; subst;
        first [destruct Hs as (-> & -> & _) | destruct Hs as (-> & ->)];
        auto.
    + intros sd. now apply (@lock_inv_waits n k w sd Hinv).
    + intros a b Ha Hb.
      specialize (Hdist a b Ha Hb).
      destruct HL as [_ HL], HR as [_ HR].
      unfold serialized_from, counters in *.
      unfold assigned, done_count in *.
      rewrite Hsel'. cbn.
      destruct (tx_pc (left_tx w)); try discriminate.
      destruct (tx_pc (right_tx w)); try discriminate.
      inversion Ha; inversion Hb; subst.
      split; [|f_equal; lia].
      assert (Message.user_msg_num m = k + 1 \/ Message.user_msg_num m = k + 2)
        as [E|E] by lia; rewrite E in *.
      * left. split; [reflexivity|]. f_equal. lia.
      * right. split; [reflexivity|]. f_equal. lia.
  - intros Hy sd Hover.
    destruct (@run_carries_name n (MessageRequest.sender_name y) sched
                (start d x nowx y nowy)) as [HL HR];
      [split; [reflexivity | exact I] | split; [reflexivity | exact I] |].
    fold w in HL, HR. unfold step.
    destruct sd; cbn in *.
    + pose proof (@other_sender_no_wait n (MessageRequest.sender_name y)
                    (committed w) (right_tx w) (left_tx w)
                    (fun E => Hy (eq_sym E)) HL HR Hover) as Hgo.
      destruct (tx_step _ _ _) as [[d' pc']|]; [discriminate|].
      contradiction.
    + pose proof (@other_sender_no_wait (MessageRequest.sender_name y) n
                    (committed w) (left_tx w) (right_tx w)
                    Hy HR HL Hover) as Hgo.
      destruct (tx_step _ _ _) as [[d' pc']|]; [discriminate|].
      contradiction.
Qed.

Lemma row_lock_serializes_witness :
  let w := run turns_right_first
               (start (db alice_session) hi_alice 200 bye_alice 201) in
  sequenced (db alice_session) /\
  assigned (left_tx w) = Some 3 /\
  assigned (right_tx w) = Some 2 /\
  serialized_from 1 w /\
  counters "Alice" (committed w) = [3].
Proof.
  intros w.
  pose proof (@row_lock_serializes (db alice_session) hi_alice 200
                bye_alice 201 turns_right_first alice_session_sequenced)
    as [Hsame _].
  destruct (Hsame eq_refl (User.mk 1 "Alice" 1) eq_refl)
    as (_ & _ & _ & Hboth).
  destruct (Hboth 3 2 eq_refl eq_refl) as [Hser Hcnt].
  split; [exact alice_session_sequenced|].
  split; [reflexivity|]. split; [reflexivity|].
  split; [exact Hser | exact Hcnt].
Defined.

(** Four calls, one of them lost: Alice has the numbers 1 and 2, Bob the
    number 1, and nothing of the lost call is stored. *)
Example four_calls_served :
  let s := snd (serve_all short_rows_fit four_calls fresh_session) in
  map is_ok (fst (serve_all short_rows_fit four_calls fresh_session))
  = [true; true; false; true] /\
  sender_sequences "Alice" (db s) = [1; 2] /\
  sender_sequences "Bob" (db s) = [1] /\
  counters "Alice" (db s) = [2] /\
  ids (messages (db s)) = [1; 2; 3].
Proof. repeat split; reflexivity. Qed.

(* ================================================================== *)
(** * Further properties of the handler *)

(* ------------------------------------------------------------------ *)
(** ** Sequences only grow *)

Lemma seqs_le_refl d : seqs_le d d.
Proof. unfold seqs_le. lia. Qed.

Lemma seqs_le_trans d1 d2 d3 :
  seqs_le d1 d2 -> seqs_le d2 d3 -> seqs_le d1 d3.
Proof. unfold seqs_le. lia. Qed.

Lemma grows_bind {A B} (m : M A) (k : A -> M B) :
  grows m -> (forall a, grows (k a)) -> grows (bind m k).
Proof.
  intros Hm Hk s out s' H.
  apply bind_inv in H as [(a & s1 & H1 & H2)|(e & H1 & _)].
  - eapply seqs_le_trans; [eapply Hm | eapply Hk]; eassumption.
  - eapply Hm; eassumption.
Qed.

Lemma grows_ret {A} (a : A) : grows (ret a).
Proof. intros s out s' H. inversion H; subst. apply seqs_le_refl. Qed.

Lemma grows_raise {A} e : grows (@raise A e).
Proof. intros s out s' H. inversion H; subst. apply seqs_le_refl. Qed.

Lemma grows_emit e : grows (emit e).
Proof. intros s out s' H. inversion H; subst. apply seqs_le_refl. Qed.

Lemma grows_get_db : grows get_db.
Proof. intros s out s' H. inversion H; subst. apply seqs_le_refl. Qed.

Lemma grows_send fault k : grows (send fault k).
Proof.
  unfold send. apply grows_bind; [apply grows_emit|]. intros _.
  destruct (fault k); [apply grows_raise | apply grows_ret].
Qed.

Lemma grows_put_db d :
  (forall s, seqs_le (db s) d) -> grows (put_db d).
Proof. intros Hd s out s' H. inversion H; subst. apply Hd. Qed.

Ltac grows_step :=
  first [ apply grows_ret | apply grows_raise | apply grows_emit
        | apply grows_get_db | apply grows_send
        | apply grows_bind; [|intros ?] ].

Lemma grows_select_user fault name :
  grows (select_user_for_update fault name).
Proof.
  unfold select_user_for_update.
  apply grows_bind; [apply grows_send|]. intros _.
  destruct (has_nul name); [apply grows_raise|]. repeat grows_step.
  destruct (users_named _ _) as [|u [|u' l]]; grows_step.
Qed.

Lemma grows_insert_user fits fault name : grows (insert_user fits fault name).
Proof.
  intros s out s' H. unfold insert_user in H.
  apply bind_inv in H as [(x & s1 & Hs & H)|(e & Hs & _)].
  2:{ eapply grows_send; eassumption. }
  apply send_ok in Hs as [_ ->].
  destruct (has_nul name); [inversion H; subst; apply seqs_le_refl|].
  unfold nextval_users_id, get_db, put_db, bind, ret, raise in H.
  reduce_in H.
  destruct (users_id_seq (db s) >? INT4_MAX);
    [inversion H; subst; apply seqs_le_refl|].
  reduce_in H.
  destruct (users_pkey_taken _ _);
    [inversion H; subst; unfold seqs_le; cbn; lia|].
  destruct (username_taken _ _);
    [inversion H; subst; unfold seqs_le; cbn; lia|].
  destruct (fits ix_users_username name);
    [|inversion H; subst; unfold seqs_le; cbn; lia].
  reduce_in H. inversion H; subst. unfold seqs_le; cbn; lia.
Qed.

Lemma grows_update_user fault i v :
  grows (update_user_last_msg_num fault i v).
Proof.
  intros s out s' H. unfold update_user_last_msg_num in H.
  apply bind_inv in H as [(x & s1 & Hs & H)|(e & Hs & _)].
  2:{ eapply grows_send; eassumption. }
  apply send_ok in Hs as [_ ->].
  unfold get_db, put_db, bind, ret, raise in H.
  destruct (v >? INT4_MAX); reduce_in H; inversion H; subst;
    unfold seqs_le; cbn; lia.
Qed.

Lemma grows_insert_message fits fault now name txt num :
  grows (insert_message fits fault now name txt num).
Proof.
  intros s out s' H. unfold insert_message in H.
  apply bind_inv in H as [(x & s1 & Hs & H)|(e & Hs & _)].
  2:{ eapply grows_send; eassumption. }
  apply send_ok in Hs as [_ ->].
  destruct (num >? INT4_MAX);
    [inversion H; subst; apply seqs_le_refl|].
  destruct (has_nul name || has_nul txt);
    [inversion H; subst; apply seqs_le_refl|].
  unfold nextval_messages_message_id, get_db, put_db, bind, ret, raise in H.
  reduce_in H.
  destruct (messages_message_id_seq (db s) >? INT8_MAX);
    [inversion H; subst; apply seqs_le_refl|].
  reduce_in H.
  destruct (messages_pkey_taken _ _);
    [inversion H; subst; unfold seqs_le; cbn; lia|].
  destruct (uq_sender_msgnum_taken _ _ _);
    [inversion H; subst; unfold seqs_le; cbn; lia|].
  destruct (fits uq_sender_msgnum name);
    [|inversion H; subst; unfold seqs_le; cbn; lia].
  reduce_in H. inversion H; subst. unfold seqs_le; cbn; lia.
Qed.

Lemma grows_select_last_10 fault upto : grows (select_last_10 fault upto).
Proof. unfold select_last_10. repeat grows_step. Qed.

Lemma grows_post_message_tx fits fault now msg :
  grows (post_message_tx fits fault now msg).
Proof.
  unfold post_message_tx.
  apply grows_bind; [apply grows_select_user|]. intros res.
  apply grows_bind.
  { destruct res; [apply grows_ret | apply grows_insert_user]. }
  intros u. apply grows_bind; [apply grows_insert_message|]. intros m.
  apply grows_bind; [apply grows_update_user|]. intros _.
  apply grows_select_last_10.
Qed.

Lemma grows_db_begin {A} fault (body : M A) :
  grows body -> grows (db_begin fault body).
Proof.
  intros Hb s out s' H.
  unfold db_begin, rollback, emit, get_db, put_db, bind, ret, raise in H.
  cbn in H.
  destruct (body _) as [[a|e] s1] eqn:E;
    apply Hb in E; cbn in E.
  - destruct (fault Commit); inversion H; subst; cbn; exact E.
  - inversion H; subst; cbn. exact E.
Qed.

Lemma grows_post_message fits fault now msg :
  grows (post_message fits fault now msg).
Proof.
  unfold post_message. apply grows_bind.
  - apply grows_db_begin, grows_post_message_tx.
  - intros rows. apply grows_ret.
Qed.

(* ------------------------------------------------------------------ *)
(** ** Keys of the stores the handler leaves *)

Lemma sorted_snoc (l : list Z) (x : Z) :
  StronglySorted Z.lt l -> Forall (fun i => i < x) l ->
  StronglySorted Z.lt (l ++ [x]).
Proof.
  induction l as [|a l IH]; cbn; intros Hs Hx.
  - repeat constructor.
  - apply StronglySorted_inv in Hs as [Hs Ha].
    inversion Hx as [|? ? Hax Hlx]; subst.
    constructor; [auto|].
    apply Forall_app. split; [assumption|]. now constructor.
Qed.

Lemma Forall_lt_mono (l : list Z) (x y : Z) :
  x <= y -> Forall (fun i => i < x) l -> Forall (fun i => i < y) l.
Proof.
  intros Hxy. apply Forall_impl. intros; lia.
Qed.

Lemma keyed_tables d d' :
  users d' = users d -> messages d' = messages d -> seqs_le d d' ->
  keyed d -> keyed d'.
Proof.
  intros Hu Hm [Hq4 Hq8] (H1 & H2 & H3 & H4). unfold keyed.
  rewrite Hu, Hm. repeat split; auto; eapply Forall_lt_mono; eauto.
Qed.

Lemma accepted_keyed now msg s u m s' :
  accepted now msg s u m s' -> keyed (db s) -> keyed (db s').
Proof.
  intros (us & q & evs & Hu & Hm & Hv & Hq & Hpk & Huq & Hdb & Htr)
         (H1 & H2 & H3 & H4).
  unfold keyed. rewrite Hdb. cbn. rewrite set_last_msg_num_ids.
  assert (StronglySorted Z.lt (map User.id us) /\
          Forall (fun i => i < q) (map User.id us)) as [Hs Hf].
  { inversion Hu as [u0 Hsel|Hsel Hq4 Hpk4 Hun]; subst; [auto|].
    rewrite map_app. cbn. split.
    - now apply sorted_snoc.
    - apply Forall_app. split.
      + eapply Forall_lt_mono; [|exact H2]. lia.
      + repeat constructor. lia. }
  split; [exact Hs|]. split; [exact Hf|].
  unfold ids. rewrite map_app. subst m. cbn. split.
  - now apply sorted_snoc.
  - apply Forall_app. split.
    + eapply Forall_lt_mono; [|exact H4]. lia.
    + repeat constructor. lia.
Qed.

Lemma serve_consistent fits c s out s' :
  serve fits c s = (out, s') -> consistent (db s) -> consistent (db s').
Proof.
  intros H [Hseq Hkey]. split.
  - exact (proj1 (serve_sequenced _ _ _ H Hseq)).
  - unfold serve in H. pose proof (grows_post_message _ _ _ _ _ H) as Hg.
    destruct out as [r|e].
    + apply post_message_ok in H as (u & m & Hacc & _).
      eapply accepted_keyed; eassumption.
    + apply post_message_raise in H as (Hu & Hm & _).
      eapply keyed_tables; eassumption.
Qed.

Lemma serve_all_consistent fits cs : forall s,
  consistent (db s) -> consistent (db (snd (serve_all fits cs s))).
Proof.
  induction cs as [|c cs IH]; cbn; intros s Hc; [assumption|].
  destruct (serve fits c s) as [out s1] eqn:H1.
  specialize (IH s1 (serve_consistent _ _ _ H1 Hc)).
  destruct (serve_all fits cs s1) as [outs s2]. exact IH.
Qed.

Lemma empty_db_consistent : consistent empty_db.
Proof.
  split; [apply empty_db_sequenced|]. repeat split; constructor.
Qed.

Lemma sequenced_one_row d name :
  sequenced d -> (List.length (users_named name (users d)) <= 1)%nat.
Proof.
  intros [_ Hs]. specialize (Hs name). unfold sender_ok in Hs.
  destruct (users_named name (users d)) as [|u [|u' l]]; cbn;
    [lia | lia | contradiction].
Qed.

Lemma sorted_lt_NoDup (l : list Z) : StronglySorted Z.lt l -> NoDup l.
Proof.
  induction 1 as [|a l Hs IH Ha]; constructor; auto.
  intros Hin. rewrite Forall_forall in Ha. specialize (Ha a Hin). lia.
Qed.

(** X1.  In every store reached from a fresh schema, whatever calls were
    served and whichever of them failed: the keys of [messages] increase
    strictly in the order of insertion and lie below the sequence, so no
    key is ever given twice; the same holds of [users.id]; and no two rows
    of [users] have the same [username]. *)
Theorem keys_hold fits cs :
  let d := db (snd (serve_all fits cs fresh_session)) in
  StronglySorted Z.lt (ids (messages d)) /\
  Forall (fun i => 1 <= i < messages_message_id_seq d) (ids (messages d)) /\
  NoDup (ids (messages d)) /\
  StronglySorted Z.lt (map User.id (users d)) /\
  NoDup (map User.id (users d)) /\
  forall name, (List.length (users_named name (users d)) <= 1)%nat.
Proof.
  intros d.
  destruct (serve_all_consistent fits cs fresh_session empty_db_consistent)
    as [Hseq (H1 & H2 & H3 & H4)].
  fold d in Hseq, H1, H2, H3, H4.
  assert (Forall (fun i => 1 <= i) (ids (messages d))) as Hpos.
  { revert H3. unfold d. clear. revert cs.
    assert (forall cs s,
              Forall (fun i => 1 <= i) (ids (messages (db s))) ->
              1 <= messages_message_id_seq (db s) ->
              Forall (fun i => 1 <= i)
                     (ids (messages (db (snd (serve_all fits cs s))))) /\
              1 <= messages_message_id_seq (db (snd (serve_all fits cs s))))
      as Hgen.
    { induction cs as [|c cs IH]; cbn; intros s Hf Hq; [auto|].
      destruct (serve fits c s) as [out s1] eqn:E1.
      assert (Forall (fun i => 1 <= i) (ids (messages (db s1))) /\
              1 <= messages_message_id_seq (db s1)) as [Hf1 Hq1].
      { unfold serve in E1.
        pose proof (grows_post_message _ _ _ _ _ E1) as [_ Hg].
        split; [|lia]. destruct out as [r|e].
        - apply post_message_ok in E1 as (u & m & Hacc & _).
          destruct (accepted_messages Hacc) as (Hms & _).
          destruct Hacc as (us & q & evs & _ & Hm & _).
          rewrite Hms. unfold ids. rewrite map_app.
          apply Forall_app. split; [exact Hf|].
          subst m. cbn. repeat constructor. exact Hq.
        - apply post_message_raise in E1 as (_ & Hm & _). now rewrite Hm. }
      specialize (IH s1 Hf1 Hq1).
      destruct (serve_all fits cs s1) as [outs s2]. exact IH. }
    intros cs _. apply Hgen; cbn; [constructor | lia]. }
  split; [exact H3|]. split.
  { rewrite Forall_forall in *. intros i Hi. split; auto. }
  split; [now apply sorted_lt_NoDup|]. split; [exact H1|].
  split; [now apply sorted_lt_NoDup|].
  intros name. now apply sequenced_one_row.
Qed.

(* ------------------------------------------------------------------ *)
(** ** A call draws at most one key from each sequence *)

Lemma draws_bind {A B} a1 b1 a2 b2 (m : M A) (k : A -> M B) :
  0 <= a2 -> 0 <= b2 ->
  draws_at_most a1 b1 m -> (forall x, draws_at_most a2 b2 (k x)) ->
  draws_at_most (a1 + a2) (b1 + b2) (bind m k).
Proof.
  intros Ha Hb Hm Hk s out s' H.
  apply bind_inv in H as [(x & s1 & H1 & H2)|(e & H1 & _)].
  - apply Hm in H1. apply Hk in H2. lia.
  - apply Hm in H1. lia.
Qed.

Lemma draws_weaken {A} a b a' b' (m : M A) :
  a <= a' -> b <= b' -> draws_at_most a b m -> draws_at_most a' b' m.
Proof. intros Ha Hb Hm s out s' H. apply Hm in H. lia. Qed.

Lemma draws_ret {A} (x : A) : draws_at_most 0 0 (ret x).
Proof. intros s out s' H. inversion H; subst. lia. Qed.

Lemma draws_send fault k : draws_at_most 0 0 (send fault k).
Proof.
  intros s out s' H. unfold send, emit, bind, ret, raise in H.
  destruct (fault k); inversion H; subst; cbn; lia.
Qed.

Lemma draws_select_user fault name :
  draws_at_most 0 0 (select_user_for_update fault name).
Proof.
  intros s out s' H. unfold select_user_for_update in H.
  apply bind_inv in H as [(x & s1 & Hs & H)|(e & Hs & _)].
  2:{ eapply draws_send; eassumption. }
  apply send_ok in Hs as [_ ->].
  destruct (has_nul name); [inversion H; subst; cbn; lia|].
  unfold get_db, bind, ret, raise in H. reduce_in H.
  destruct (users_named _ _) as [|u [|u' l]]; inversion H; subst; cbn; lia.
Qed.

Lemma draws_insert_user fits fault name :
  draws_at_most 1 0 (insert_user fits fault name).
Proof.
  intros s out s' H. unfold insert_user in H.
  apply bind_inv in H as [(x & s1 & Hs & H)|(e & Hs & _)].
  2:{ apply draws_send in Hs. lia. }
  apply send_ok in Hs as [_ ->].
  destruct (has_nul name); [inversion H; subst; cbn; lia|].
  unfold nextval_users_id, get_db, put_db, bind, ret, raise in H.
  reduce_in H.
  destruct (users_id_seq (db s) >? INT4_MAX);
    [inversion H; subst; cbn; lia|].
  reduce_in H.
  destruct (users_pkey_taken _ _); [inversion H; subst; cbn; lia|].
  destruct (username_taken _ _); [inversion H; subst; cbn; lia|].
  destruct (fits ix_users_username name); [|inversion H; subst; cbn; lia].
  reduce_in H. inversion H; subst. cbn; lia.
Qed.

Lemma draws_update_user fault i v :
  draws_at_most 0 0 (update_user_last_msg_num fault i v).
Proof.
  intros s out s' H. unfold update_user_last_msg_num in H.
  apply bind_inv in H as [(x & s1 & Hs & H)|(e & Hs & _)].
  2:{ eapply draws_send; eassumption. }
  apply send_ok in Hs as [_ ->].
  unfold get_db, put_db, bind, ret, raise in H.
  destruct (v >? INT4_MAX); reduce_in H; inversion H; subst; cbn; lia.
Qed.

Lemma draws_insert_message fits fault now name txt num :
  draws_at_most 0 1 (insert_message fits fault now name txt num).
Proof.
  intros s out s' H. unfold insert_message in H.
  apply bind_inv in H as [(x & s1 & Hs & H)|(e & Hs & _)].
  2:{ apply draws_send in Hs. lia. }
  apply send_ok in Hs as [_ ->].
  destruct (num >? INT4_MAX); [inversion H; subst; cbn; lia|].
  destruct (has_nul name || has_nul txt); [inversion H; subst; cbn; lia|].
  unfold nextval_messages_message_id, get_db, put_db, bind, ret, raise in H.
  reduce_in H.
  destruct (messages_message_id_seq (db s) >? INT8_MAX);
    [inversion H; subst; cbn; lia|].
  reduce_in H.
  destruct (messages_pkey_taken _ _); [inversion H; subst; cbn; lia|].
  destruct (uq_sender_msgnum_taken _ _ _); [inversion H; subst; cbn; lia|].
  destruct (fits uq_sender_msgnum name); [|inversion H; subst; cbn; lia].
  reduce_in H. inversion H; subst. cbn; lia.
Qed.

Lemma draws_select_last_10 fault upto :
  draws_at_most 0 0 (select_last_10 fault upto).
Proof.
  intros s out s' H. unfold select_last_10 in H.
  apply bind_inv in H as [(x & s1 & Hs & H)|(e & Hs & _)].
  2:{ eapply draws_send; eassumption. }
  apply send_ok in Hs as [_ ->].
  unfold get_db, bind, ret in H. reduce_in H. inversion H; subst. cbn; lia.
Qed.

Lemma draws_post_message_tx fits fault now msg :
  draws_at_most 1 1 (post_message_tx fits fault now msg).
Proof.
  unfold post_message_tx.
  apply (@draws_weaken _ (0 + (1 + (0 + (0 + 0)))) (0 + (0 + (1 + (0 + 0))))
                        1 1); [lia | lia |].
  apply draws_bind; [lia | lia | apply draws_select_user |]. intros res.
  apply draws_bind; [lia | lia | |].
  { destruct res;
      [eapply draws_weaken; [| |apply draws_ret]; lia
      | apply draws_insert_user]. }
  intros u. apply draws_bind; [lia | lia | apply draws_insert_message |].
  intros m. apply draws_bind; [lia | lia | apply draws_update_user |].
  intros _. apply draws_select_last_10.
Qed.

Lemma draws_db_begin {A} fault a b (body : M A) :
  draws_at_most a b body -> draws_at_most a b (db_begin fault body).
Proof.
  intros Hb s out s' H.
  unfold db_begin, rollback, emit, get_db, put_db, bind, ret, raise in H.
  cbn in H.
  destruct (body _) as [[x|e] s1] eqn:E;
    apply Hb in E; cbn in E.
  - destruct (fault Commit); inversion H; subst; cbn; exact E.
  - inversion H; subst; cbn. exact E.
Qed.

Lemma draws_post_message fits fault now msg :
  draws_at_most 1 1 (post_message fits fault now msg).
Proof.
  intros s out s' H. unfold post_message in H.
  apply bind_inv in H as [(x & s1 & H1 & H2)|(e & H1 & _)].
  - inversion H2; subst.
    eapply draws_db_begin; [apply draws_post_message_tx | eassumption].
  - eapply draws_db_begin; [apply draws_post_message_tx | eassumption].
Qed.

(* ------------------------------------------------------------------ *)
(** ** On a consistent store only the connection fails *)

Section Refusals.

Variable fits : Index -> string -> bool.
Variable fault : Stmt -> bool.
Variable now : Z.




End Refusals.








(* ------------------------------------------------------------------ *)
(** ** The first calls on a fresh schema *)







(* ------------------------------------------------------------------ *)
(** ** The window is the tail of the table *)

Lemma insert_desc_snoc x l :
  Forall (fun y => Message.message_id x < Message.message_id y) l ->
  insert_desc x l = l ++ [x].
Proof.
  induction 1 as [|y l Hy Hl IH]; cbn; [reflexivity|].
  destruct (Message.message_id y <=? Message.message_id x) eqn:E.
  - apply Z.leb_le in E. lia.
  - now rewrite IH.
Qed.

(** Rows whose keys increase come out of [ORDER BY message_id DESC] in
    the reverse of their order. *)
Lemma order_by_rev l :
  StronglySorted Z.lt (ids l) -> order_by_message_id_desc l = rev l.
Proof.
  unfold order_by_message_id_desc.
  induction l as [|x l IH]; intros Hs; [reflexivity|].
  cbn [ids map] in Hs. apply StronglySorted_inv in Hs as [Hs Hx].
  cbn [fold_right rev]. rewrite (IH Hs). apply insert_desc_snoc.
  rewrite Forall_forall in *. intros y Hy. apply in_rev in Hy.
  apply Hx. unfold ids. now apply in_map.
Qed.

Lemma filter_all {A} (f : A -> bool) l :
  Forall (fun x => f x = true) l -> filter f l = l.
Proof.
  induction 1 as [|x l Hx Hl IH]; cbn; [reflexivity|].
  now rewrite Hx, IH.
Qed.

(** X4.  In a store whose keys came from the sequence, the response of a
    call is the last ten rows of the table [messages] as the call leaves
    it, the last one first: the row it inserted, then the rows inserted
    before it, in the reverse of the order of insertion. *)
Theorem post_message_last_ten fits fault now msg s r s' :
  keyed (db s) ->
  post_message fits fault now msg s = (Ok r, s') ->
  r = map to_response (firstn 10 (rev (messages (db s')))).
Proof.
  intros Hk H.
  apply post_message_ok in H as (u & m & Hacc & ->).
  pose proof (accepted_keyed Hacc Hk) as (_ & _ & Hs & _).
  destruct (accepted_messages Hacc) as (Hms & _).
  destruct Hacc as (us & q & evs & _ & Hm & _).
  destruct Hk as (_ & _ & _ & Hlt).
  f_equal. unfold recent_window. f_equal.
  rewrite filter_all; [now apply order_by_rev|].
  rewrite Hms. apply Forall_app. split.
  - rewrite Forall_forall in *. intros x Hx. apply Z.leb_le.
    specialize (Hlt (Message.message_id x) (in_map _ _ _ Hx)).
    subst m. cbn. lia.
  - repeat constructor. apply Z.leb_refl.
Qed.

Lemma post_message_last_ten_witness :
  alice_response
  = map to_response (firstn 10 (rev (messages (db alice_session)))).
Proof.
  apply (@post_message_last_ten short_rows_fit no_fault 100 hi_alice
           fresh_session alice_response alice_session).
  - repeat split; constructor.
  - reflexivity.
Defined.

(* ------------------------------------------------------------------ *)
(** ** Rows and keys against calls *)

Lemma serve_messages fits c s out s' :
  serve fits c s = (out, s') ->
  exists l,
    messages (db s') = messages (db s) ++ l /\
    List.length l = (if is_ok out then 1 else 0)%nat /\
    messages_message_id_seq (db s) + Z.of_nat (List.length l)
    <= messages_message_id_seq (db s').
Proof.
  intros H. unfold serve in H.
  pose proof (grows_post_message _ _ _ _ _ H) as [_ Hg].
  destruct out as [r|e].
  - apply post_message_ok in H as (u & m & Hacc & _).
    destruct (accepted_messages Hacc) as (Hms & _).
    destruct Hacc as (us & q & evs & _ & _ & _ & _ & _ & _ & Hdb & _).
    exists [m]. split; [exact Hms|]. split; [reflexivity|].
    rewrite Hdb. cbn. lia.
  - apply post_message_raise in H as (_ & Hm & _).
    exists []. rewrite app_nil_r. split; [exact Hm|]. split; [reflexivity|].
    cbn. lia.
Qed.

(** X5.  Serve any calls from any store.  The table [messages] is the
    table of before followed by one row for each call that returned, and
    by nothing else; the sequence of [message_id] has advanced at least
    once for each call that returned and at most once for each call, the
    one of [users.id] at most once for each call; neither went back. *)
Theorem rows_and_keys_of_calls fits cs : forall s,
  let outs := fst (serve_all fits cs s) in
  let d := db s in
  let d' := db (snd (serve_all fits cs s)) in
  List.length outs = List.length cs /\
  (exists l, messages d' = messages d ++ l /\
             List.length l = count_ok outs) /\
  messages_message_id_seq d + Z.of_nat (count_ok outs)
  <= messages_message_id_seq d'
  <= messages_message_id_seq d + Z.of_nat (List.length cs) /\
  users_id_seq d <= users_id_seq d'
  <= users_id_seq d + Z.of_nat (List.length cs).
Proof.
  induction cs as [|c cs IH]; intros s; cbn zeta.
  - cbn. split; [reflexivity|]. split; [|lia].
    exists []. now rewrite app_nil_r.
  - cbn [serve_all]. destruct (serve fits c s) as [out s1] eqn:H1.
    specialize (IH s1). cbn zeta in IH.
    destruct (serve_all fits cs s1) as [outs s2]. cbn [fst snd] in *.
    destruct IH as (Hlen & (l & Hl & Hn) & Hm & Hu).
    destruct (serve_messages _ _ _ H1) as (l1 & Hl1 & Hn1 & Hq1).
    unfold serve in H1.
    destruct (draws_post_message _ _ _ _ _ H1) as [D4 D8].
    destruct (grows_post_message _ _ _ _ _ H1) as [G4 G8].
    assert (count_ok (out :: outs)
            = ((if is_ok out then 1 else 0) + count_ok outs)%nat) as Hc.
    { unfold count_ok. cbn. now destruct (is_ok out). }
    cbn [List.length]. split; [now rewrite Hlen|]. split.
    + exists (l1 ++ l). rewrite Hl, Hl1, app_assoc. split; [reflexivity|].
      rewrite length_app, Hn1, Hn, Hc. reflexivity.
    + rewrite Hc, <- Hn1. lia.
Qed.

(* ------------------------------------------------------------------ *)
(** ** The statements of a call *)

Section Sent.

Variable fits : Index -> string -> bool.
Variable fault : Stmt -> bool.
Variable now : Z.

Lemma send_sent k : sent_once k (send fault k).
Proof.
  intros s out s' H. unfold send, emit, bind, ret, raise in H.
  destruct (fault k); inversion H; subst; reflexivity.
Qed.

Lemma select_user_sent name :
  sent_once SelectUserForUpdate (select_user_for_update fault name).
Proof.
  intros s out s' H. unfold select_user_for_update in H.
  apply bind_inv in H as [(x & s1 & Hs & H)|(e & Hs & _)].
  2:{ eapply send_sent; eassumption. }
  apply send_ok in Hs as [_ ->].
  destruct (has_nul name); [inversion H; subst; reflexivity|].
  unfold get_db, bind, ret, raise in H. reduce_in H.
  destruct (users_named _ _) as [|u [|u' l]]; inversion H; subst; reflexivity.
Qed.

Lemma insert_user_sent name :
  sent_once InsertUser (insert_user fits fault name).
Proof.
  intros s out s' H. unfold insert_user in H.
  apply bind_inv in H as [(x & s1 & Hs & H)|(e & Hs & _)].
  2:{ eapply send_sent; eassumption. }
  apply send_ok in Hs as [_ ->].
  destruct (has_nul name); [inversion H; subst; reflexivity|].
  unfold nextval_users_id, get_db, put_db, bind, ret, raise in H.
  reduce_in H.
  destruct (users_id_seq (db s) >? INT4_MAX);
    [inversion H; subst; reflexivity|].
  reduce_in H.
  destruct (users_pkey_taken _ _); [inversion H; subst; reflexivity|].
  destruct (username_taken _ _); [inversion H; subst; reflexivity|].
  destruct (fits ix_users_username name);
    [|inversion H; subst; reflexivity].
  reduce_in H. inversion H; subst. reflexivity.
Qed.

Lemma update_user_sent i v :
  sent_once UpdateUser (update_user_last_msg_num fault i v).
Proof.
  intros s out s' H. unfold update_user_last_msg_num in H.
  apply bind_inv in H as [(x & s1 & Hs & H)|(e & Hs & _)].
  2:{ eapply send_sent; eassumption. }
  apply send_ok in Hs as [_ ->].
  unfold get_db, put_db, bind, ret, raise in H.
  destruct (v >? INT4_MAX); reduce_in H; inversion H; subst; reflexivity.
Qed.

Lemma insert_message_sent name txt num :
  sent_once InsertMessage (insert_message fits fault now name txt num).
Proof.
  intros s out s' H. unfold insert_message in H.
  apply bind_inv in H as [(x & s1 & Hs & H)|(e & Hs & _)].
  2:{ eapply send_sent; eassumption. }
  apply send_ok in Hs as [_ ->].
  destruct (num >? INT4_MAX); [inversion H; subst; reflexivity|].
  destruct (has_nul name || has_nul txt);
    [inversion H; subst; reflexivity|].
  unfold nextval_messages_message_id, get_db, put_db, bind, ret, raise in H.
  reduce_in H.
  destruct (messages_message_id_seq (db s) >? INT8_MAX);
    [inversion H; subst; reflexivity|].
  reduce_in H.
  destruct (messages_pkey_taken _ _); [inversion H; subst; reflexivity|].
  destruct (uq_sender_msgnum_taken _ _ _);
    [inversion H; subst; reflexivity|].
  destruct (fits uq_sender_msgnum name);
    [|inversion H; subst; reflexivity].
  reduce_in H. inversion H; subst. reflexivity.
Qed.

Lemma select_last_10_sent upto :
  sent_once SelectLast10 (select_last_10 fault upto).
Proof.
  intros s out s' H. unfold select_last_10 in H.
  apply bind_inv in H as [(x & s1 & Hs & H)|(e & Hs & _)].
  2:{ eapply send_sent; eassumption. }
  apply send_ok in Hs as [_ ->].
  unfold get_db, bind, ret in H. reduce_in H. inversion H; subst. reflexivity.
Qed.

(** The statements the body of the transaction sent, in their order: all
    of them when it returned, those up to the one that failed when it
    raised. *)
Lemma post_message_tx_sent msg s out s' :
  post_message_tx fits fault now msg s = (out, s') ->
  exists ks rest,
    trace s' = trace s ++ map EvStmt ks /\
    ks <> [] /\
    ks ++ rest
    = match users_named (MessageRequest.sender_name msg) (users (db s)) with
      | [] => statements_row_created
      | _ :: _ => statements_row_found
      end /\
    (is_ok out = true -> rest = []).
Proof.
  intros H. unfold post_message_tx in H.
  set (name := MessageRequest.sender_name msg) in *.
  apply bind_inv in H as [(res & sa & Hsel & H)|(e1 & Hsel & ->)].
  2:{ apply select_user_sent in Hsel.
      exists [SelectUserForUpdate].
      destruct (users_named name (users (db s)));
        eexists; (split; [exact Hsel|]); (split; [discriminate|]);
        (split; [reflexivity | discriminate]). }
  pose proof Hsel as T1. apply select_user_sent in T1.
  apply select_user_for_update_ok in Hsel as (_ & Hsa & Hsel).
  apply bind_inv in H as [(u & sb & Hu & H)|(e1 & Hu & ->)].
  2:{ destruct res as [u0|]; [discriminate|].
      apply insert_user_sent in Hu. rewrite Hsel.
      exists [SelectUserForUpdate; InsertUser]. eexists.
      split; [rewrite Hu, T1, <- app_assoc; reflexivity|].
      split; [discriminate|]. split; [reflexivity | discriminate]. }
  assert (exists k12,
            trace sb = trace s ++ map EvStmt k12 /\
            k12 <> [] /\
            k12 ++ [InsertMessage; UpdateUser; SelectLast10]
            = match users_named name (users (db s)) with
              | [] => statements_row_created
              | _ :: _ => statements_row_found
              end) as (k12 & T2 & Hne & Hfull).
  { rewrite Hsel. destruct res as [u0|].
    - inversion Hu; subst sb. exists [SelectUserForUpdate].
      split; [exact T1|]. split; [discriminate | reflexivity].
    - apply insert_user_sent in Hu. exists [SelectUserForUpdate; InsertUser].
      split; [rewrite Hu, T1, <- app_assoc; reflexivity|].
      split; [discriminate | reflexivity]. }
  clear T1 Hsa Hsel Hu.
  apply bind_inv in H as [(m & sc & Hins & H)|(e1 & Hins & ->)].
  2:{ apply insert_message_sent in Hins.
      exists (k12 ++ [InsertMessage]), [UpdateUser; SelectLast10].
      split; [rewrite Hins, T2, map_app, <- app_assoc; reflexivity|].
      split; [destruct k12; discriminate|].
      split; [rewrite <- app_assoc; exact Hfull | discriminate]. }
  apply insert_message_sent in Hins.
  apply bind_inv in H as [(x & sd & Hupd & H)|(e1 & Hupd & ->)].
  2:{ apply update_user_sent in Hupd.
      exists (k12 ++ [InsertMessage; UpdateUser]), [SelectLast10].
      split; [rewrite Hupd, Hins, T2, map_app, <- !app_assoc; reflexivity|].
      split; [destruct k12; discriminate|].
      split; [rewrite <- app_assoc; exact Hfull | discriminate]. }
  apply update_user_sent in Hupd.
  apply select_last_10_sent in H.
  exists (k12 ++ [InsertMessage; UpdateUser; SelectLast10]), [].
  split; [rewrite H, Hupd, Hins, T2, map_app, <- !app_assoc; reflexivity|].
  split; [destruct k12; discriminate|].
  split; [rewrite app_nil_r; exact Hfull | reflexivity].
Qed.

Lemma db_begin_trace {A} (body : M A) s out s' :
  db_begin fault body s = (out, s') ->
  exists out1 s1,
    body (mkSession (db s) (trace s ++ [EvBegin])) = (out1, s1) /\
    trace s' = trace s1 ++ [if is_ok out then EvCommit else EvRollback] /\
    (is_ok out = true -> is_ok out1 = true).
Proof.
  unfold db_begin, rollback, emit, get_db, put_db, bind, ret, raise. cbn.
  destruct (body _) as [[x|e1] s1]; intros H.
  - exists (Ok x), s1. split; [reflexivity|].
    destruct (fault Commit); inversion H; subst; cbn; auto.
  - exists (Raise e1), s1. split; [reflexivity|].
    inversion H; subst; cbn. split; [reflexivity | discriminate].
Qed.

End Sent.

(** X6.  A call opens one transaction and ends it, by a commit when it
    returns and by a rollback when it raises; in between it sends its
    statements in the order of the flushes: the select for update, the
    insert into [users] exactly when no row has the sender's name, the
    insert into [messages], the update of the counter, the select of the
    last ten.  It sends all of them when it returns, and none after the one
    that failed: when the insert of the message fails the update of the
    counter is not sent.  Nothing else goes over the connection. *)
Theorem post_message_statements fits fault now msg s out s' :
  post_message fits fault now msg s = (out, s') ->
  exists ks rest,
    trace s' = trace s ++ [EvBegin] ++ map EvStmt ks
                 ++ [if is_ok out then EvCommit else EvRollback] /\
    ks <> [] /\
    ks ++ rest
    = match users_named (MessageRequest.sender_name msg) (users (db s)) with
      | [] => statements_row_created
      | _ :: _ => statements_row_found
      end /\
    (is_ok out = true -> rest = []).
Proof.
  intros H. unfold post_message in H.
  assert (exists o1, db_begin fault (post_message_tx fits fault now msg) s
                     = (o1, s') /\ is_ok o1 = is_ok out) as (o1 & Hb & Hok).
  { apply bind_inv in H as [(rows & s1 & H1 & H2)|(e & H1 & ->)].
    - inversion H2; subst. eauto.
    - eauto. }
  apply db_begin_trace in Hb as (out1 & s1 & Hbody & Htr & Hin).
  apply post_message_tx_sent in Hbody as (ks & rest & Hks & Hne & Hfull & Hr).
  cbn [db trace] in *.
  exists ks, rest. rewrite <- Hok. split.
  - rewrite Htr, Hks, <- !app_assoc. reflexivity.
  - auto.
Qed.

Lemma post_message_statements_witness :
  exists ks rest,
    trace alice_session
    = trace fresh_session ++ [EvBegin] ++ map EvStmt ks ++ [EvCommit] /\
    ks ++ rest = statements_row_created /\
    rest = [].
Proof.
  destruct (@post_message_statements short_rows_fit no_fault 100 hi_alice
              fresh_session (Ok alice_response) alice_session eq_refl)
    as (ks & rest & Ht & _ & Hf & Hr).
  exists ks, rest. split; [exact Ht|]. split; [exact Hf|].
  apply Hr. reflexivity.
Defined.

(* ------------------------------------------------------------------ *)
(** ** The connection string *)

Lemma append_inj_l (p x y : string) : (p ++ x = p ++ y)%string -> x = y.
Proof.
  induction p as [|c p IH]; cbn; intros H; [exact H|].
  inversion H. auto.
Qed.

(** Two texts cut at the first occurrence of [c] are cut at the same
    place. *)
Lemma append_split c (a a' b b' : string) :
  free_of c a -> free_of c a' ->
  (a ++ String c b = a' ++ String c b')%string ->
  a = a' /\ b = b'.
Proof.
  unfold free_of. revert a'.
  induction a as [|x a IH]; intros [|x' a'] Ha Ha' H; cbn in *.
  - inversion H. auto.
  - inversion H; subst. exfalso. apply Ha'. now left.
  - inversion H; subst. exfalso. apply Ha. now left.
  - inversion H; subst.
    destruct (IH a') as [-> ->]; auto.
Qed.

Lemma string_of_uint_digits d :
  Forall (fun c => In c (list_ascii_of_string "0123456789"))
         (list_ascii_of_string (NilEmpty.string_of_uint d)).
Proof.
  induction d; cbn [NilEmpty.string_of_uint list_ascii_of_string];
    constructor; auto; cbn; tauto.
Qed.

Lemma nilzero_string_of_uint_digits d :
  Forall (fun c => In c (list_ascii_of_string "0123456789"))
         (list_ascii_of_string (NilZero.string_of_uint d)).
Proof.
  destruct d; try apply string_of_uint_digits.
  cbn. repeat constructor.
Qed.

(** The decimal text of an integer: digits, after a sign when it is
    negative; no separator of the connection string occurs in it. *)
Lemma str_of_int_chars n :
  Forall (fun c => In c (list_ascii_of_string "-0123456789"))
         (list_ascii_of_string (str_of_int n)).
Proof.
  unfold str_of_int.
  assert (forall d,
            Forall (fun c => In c (list_ascii_of_string "-0123456789"))
                   (list_ascii_of_string (NilZero.string_of_uint d))) as Hd.
  { intros d. eapply Forall_impl; [|apply nilzero_string_of_uint_digits].
    cbn. intros c Hc. tauto. }
  destruct n as [|p|p]; cbn [Z.to_int NilZero.string_of_int].
  - apply Hd.
  - apply Hd.
  - cbn [list_ascii_of_string]. constructor; [cbn; tauto | apply Hd].
Qed.

Lemma str_of_int_free_of_slash n : free_of "/" (str_of_int n).
Proof.
  unfold free_of. intros Hin.
  pose proof (str_of_int_chars n) as Hc. rewrite Forall_forall in Hc.
  specialize (Hc _ Hin). cbn in Hc.
  repeat (destruct Hc as [Hc|Hc]; [discriminate Hc|]). contradiction.
Qed.

Lemma str_of_int_inj n m : str_of_int n = str_of_int m -> n = m.
Proof.
  unfold str_of_int. intros H.
  assert (forall z, Z.to_int z <> Decimal.Pos Decimal.Nil /\
                    Z.to_int z <> Decimal.Neg Decimal.Nil) as Hnil.
  { intros [|p|p]; cbn; split; try discriminate;
      intros E; inversion E as [E1]; now apply Unsigned.to_uint_nonnil in E1. }
  assert (Some (Z.to_int n) = Some (Z.to_int m)) as E.
  { rewrite <- (NilZero.isi _ (proj1 (Hnil n)) (proj2 (Hnil n))).
    rewrite <- (NilZero.isi _ (proj1 (Hnil m)) (proj2 (Hnil m))).
    now rewrite H. }
  inversion E as [E1].
  rewrite <- (DecimalZ.of_to n), <- (DecimalZ.of_to m). now rewrite E1.
Qed.

(** X7.  The connection string determines the settings it was built
    from, as long as no field contains the separator that ends it: no colon
    in the user or in the host, no [@] in the password (the text of the
    port never contains the slash that ends it, and the name of the database
    comes last). *)
Theorem POSTGRES_URL_determines_settings (a b : DBSettings.t) :
  free_of ":" (DBSettings.POSTGRES_USER a) ->
  free_of ":" (DBSettings.POSTGRES_USER b) ->
  free_of "@" (DBSettings.POSTGRES_PASSWORD a) ->
  free_of "@" (DBSettings.POSTGRES_PASSWORD b) ->
  free_of ":" (DBSettings.POSTGRES_HOST a) ->
  free_of ":" (DBSettings.POSTGRES_HOST b) ->
  POSTGRES_URL a = POSTGRES_URL b -> a = b.
Proof.
  destruct a as [h1 p1 d1 u1 w1], b as [h2 p2 d2 u2 w2].
  unfold POSTGRES_URL. cbn [DBSettings.POSTGRES_USER DBSettings.POSTGRES_HOST
    DBSettings.POSTGRES_PASSWORD DBSettings.POSTGRES_PORT
    DBSettings.POSTGRES_DB].
  intros Hu1 Hu2 Hw1 Hw2 Hh1 Hh2 H.
  apply append_inj_l in H. cbn [append] in H.
  apply (@append_split _ _ _ _ _ Hu1 Hu2) in H as [-> H].
  apply (@append_split _ _ _ _ _ Hw1 Hw2) in H as [-> H].
  apply (@append_split _ _ _ _ _ Hh1 Hh2) in H as [-> H].
  apply (@append_split _ _ _ _ _ (str_of_int_free_of_slash p1)
                       (str_of_int_free_of_slash p2)) in H as [Hp ->].
  apply str_of_int_inj in Hp. now subst.
Qed.

Lemma POSTGRES_URL_determines_settings_witness :
  POSTGRES_URL local_settings <> POSTGRES_URL replica_settings.
Proof.
  intros E.
  apply POSTGRES_URL_determines_settings in E;
    [discriminate E | unfold free_of; cbn; intuition discriminate ..].
Defined.

Lemma string_append_assoc (a b c : string) :
  ((a ++ b) ++ c = a ++ (b ++ c))%string.
Proof. induction a as [|x a IH]; cbn; [reflexivity | now rewrite IH]. Qed.

Lemma string_length_append (a b : string) :
  String.length (a ++ b)%string = (String.length a + String.length b)%nat.
Proof. induction a as [|x a IH]; cbn; [reflexivity | now rewrite IH]. Qed.

(** X8.  Nothing is escaped: a password that contains [@] yields the
    connection string of other settings, in which the part of the password
    after the [@] belongs to the host. *)
Theorem POSTGRES_URL_password_not_escaped host port dbname user p x :
  let a := DBSettings.mk host port dbname user (p ++ "@" ++ x)%string in
  let b := DBSettings.mk (x ++ "@" ++ host)%string port dbname user p in
  POSTGRES_URL a = POSTGRES_URL b /\ a <> b.
Proof.
  cbn zeta. split.
  - unfold POSTGRES_URL. cbn [DBSettings.POSTGRES_USER
      DBSettings.POSTGRES_HOST DBSettings.POSTGRES_PASSWORD
      DBSettings.POSTGRES_PORT DBSettings.POSTGRES_DB].
    repeat rewrite string_append_assoc. reflexivity.
  - intros E. inversion E as [[Hh Hp]].
    apply (f_equal String.length) in Hh.
    rewrite !string_length_append in Hh. cbn in Hh. lia.
Qed.

(* ------------------------------------------------------------------ *)
(** ** The sender names of the load generator *)

Lemma randbelow_some n g :
  n <> 0%nat ->
  exists k,
    (k < n)%nat /\
    randbelow n g = (Some k, mkRandom (draws g) (S (drawn g))).
Proof.
  intros Hn. destruct n as [|n]; [contradiction|].
  exists (draws g (drawn g) mod S n)%nat. split; [|reflexivity].
  apply Nat.mod_upper_bound. discriminate.
Qed.

Lemma randint_5_7 g :
  exists n,
    5 <= n <= 7 /\
    randint 5 7 g = (Some n, mkRandom (draws g) (S (drawn g))).
Proof.
  unfold randint, rand_bind, rand_ret.
  destruct (@randbelow_some (Z.to_nat (7 - 5 + 1)) g) as (k & Hk & ->);
    [discriminate|].
  exists (5 + Z.of_nat k). split; [|reflexivity].
  change (Z.to_nat (7 - 5 + 1)) with 3%nat in Hk. lia.
Qed.

Lemma get_some_in k s :
  (k < String.length s)%nat ->
  exists c, String.get k s = Some c /\ In c (list_ascii_of_string s).
Proof.
  revert k. induction s as [|x s IH]; cbn; intros k Hk; [lia|].
  destruct k as [|k].
  - exists x. auto.
  - destruct (IH k) as (c & Hc & Hin); [lia|]. exists c. auto.
Qed.

Lemma choice_some seq g :
  seq <> EmptyString ->
  exists c,
    In c (list_ascii_of_string seq) /\
    choice seq g = (Some c, mkRandom (draws g) (S (drawn g))).
Proof.
  intros Hne. unfold choice, rand_bind, rand_ret.
  destruct (@randbelow_some (String.length seq) g) as (k & Hk & ->).
  { destruct seq; [contradiction | discriminate]. }
  destruct (get_some_in _ Hk) as (c & -> & Hin). exists c. auto.
Qed.

Lemma join_choices_some seq n : forall g,
  seq <> EmptyString ->
  exists s,
    String.length s = n /\
    Forall (fun c => In c (list_ascii_of_string seq))
           (list_ascii_of_string s) /\
    join_choices seq n g = (Some s, mkRandom (draws g) (drawn g + n)).
Proof.
  induction n as [|n IH]; intros g Hne; cbn [join_choices].
  - exists EmptyString. cbn. rewrite Nat.add_0_r.
    destruct g. repeat split. constructor.
  - unfold rand_bind at 1.
    destruct (choice_some g Hne) as (c & Hc & ->).
    unfold rand_bind, rand_ret.
    destruct (IH (mkRandom (draws g) (S (drawn g))) Hne)
      as (s & Hlen & Hall & ->).
    exists (String c s). cbn. rewrite Hlen.
    repeat split; [constructor; assumption|].
    do 2 f_equal. lia.
Qed.

Lemma letters_cases :
  Forall (fun c => is_ascii_uppercase (upper c) = true /\
                   is_ascii_lowercase (lower c) = true)
         (list_ascii_of_string ascii_letters).
Proof. vm_compute. repeat constructor. Qed.

Lemma string_map_length f s :
  String.length (string_map f s) = String.length s.
Proof. induction s as [|c s IH]; cbn; [reflexivity | now rewrite IH]. Qed.

Lemma capitalize_letters s :
  (5 <= String.length s <= 7)%nat ->
  Forall (fun c => In c (list_ascii_of_string ascii_letters))
         (list_ascii_of_string s) ->
  capitalized_name (capitalize s).
Proof.
  pose proof letters_cases as Hl. rewrite Forall_forall in Hl.
  intros Hlen Hall. destruct s as [|c s]; [cbn in Hlen; lia|].
  cbn [list_ascii_of_string] in Hall. inversion Hall as [|? ? Hc Hs]; subst.
  unfold capitalized_name, capitalize. split.
  - cbn [String.length] in *. now rewrite string_map_length.
  - split; [apply Hl, Hc|].
    clear Hlen Hall Hc. induction s as [|x s IH]; cbn; [constructor|].
    inversion Hs; subst. constructor; [apply Hl; assumption | auto].
Qed.

Lemma random_names_some count : forall g,
  exists names,
    random_names count g
    = (Some names,
       mkRandom (draws g)
                (drawn g + count + list_sum (map String.length names))) /\
    List.length names = count /\
    Forall capitalized_name names.
Proof.
  induction count as [|count IH]; intros g; cbn [random_names].
  - exists []. cbn. rewrite !Nat.add_0_r. destruct g. repeat split.
    constructor.
  - unfold rand_bind at 1.
    destruct (randint_5_7 g) as (n & Hn & ->).
    unfold rand_bind at 1.
    assert (ascii_letters <> EmptyString) as Hne by discriminate.
    destruct (join_choices_some (Z.to_nat n)
                (mkRandom (draws g) (S (drawn g))) Hne)
      as (s & Hlen & Hall & ->).
    unfold rand_bind, rand_ret. cbn [draws drawn].
    destruct (IH (mkRandom (draws g) (S (drawn g) + Z.to_nat n)))
      as (names & -> & Hcount & Hnames).
    exists (capitalize s :: names). cbn [draws drawn]. split; [|split].
    + do 2 f_equal. cbn [map list_sum].
      assert (String.length (capitalize s) = String.length s) as ->.
      { destruct s; cbn; [reflexivity | now rewrite string_map_length]. }
      unfold list_sum. cbn [fold_right]. lia.
    + cbn. now rewrite Hcount.
    + constructor; [|exact Hnames].
      apply capitalize_letters; [lia | exact Hall].
Qed.

(** X9.  [generate_random_names] never raises and, whatever the
    generator yields, returns [count] names (none for a negative [count]),
    each of 5 to 7 letters, the first one a capital and the others small;
    it draws one number for the length of each name and one for each
    letter. *)
Theorem generate_random_names_returns count g :
  exists names,
    generate_random_names count g
    = (Some names,
       mkRandom (draws g)
                (drawn g + Z.to_nat count
                 + list_sum (map String.length names))) /\
    List.length names = Z.to_nat count /\
    Forall capitalized_name names.
Proof. apply random_names_some. Qed.


Lemma choice_stuck seq v :
  seq <> EmptyString ->
  exists c, forall m,
    choice seq (stuck_at v m) = (Some c, stuck_at v (S m)).
Proof.
  intros Hne.
  destruct (choice_some (stuck_at v 0) Hne) as (c & _ & Hc).
  exists c. intros m. revert Hc.
  unfold choice, rand_bind, randbelow, stuck_at. cbn [draws drawn].
  destruct (String.length seq) as [|k]; [discriminate|].
  destruct (String.get _ seq); [|discriminate].
  unfold rand_ret. intros Hc. inversion Hc; subst. reflexivity.
Qed.

Lemma join_choices_stuck seq v k :
  seq <> EmptyString ->
  exists s, forall m,
    join_choices seq k (stuck_at v m) = (Some s, stuck_at v (m + k)).
Proof.
  intros Hne. destruct (choice_stuck v Hne) as (c & Hc).
  induction k as [|k (s & IH)].
  - exists EmptyString. intros m. cbn. now rewrite Nat.add_0_r.
  - exists (String c s). intros m. cbn [join_choices].
    unfold rand_bind at 1. rewrite Hc.
    unfold rand_bind, rand_ret. rewrite IH.
    do 2 f_equal. lia.
Qed.

Lemma randint_stuck v :
  exists n, forall m,
    randint 5 7 (stuck_at v m) = (Some n, stuck_at v (S m)).
Proof.
  exists (5 + Z.of_nat (v mod 3)). intros m. reflexivity.
Qed.

(** X10.  The names are not made distinct: with a generator that yields
    the same number again and again all the names returned are one and the
    same name. *)
Theorem generate_random_names_may_repeat v :
  exists name, forall count m,
    fst (generate_random_names count (stuck_at v m))
    = Some (repeat name (Z.to_nat count)).
Proof.
  destruct (randint_stuck v) as (n & Hn).
  assert (ascii_letters <> EmptyString) as Hne by discriminate.
  destruct (join_choices_stuck v (Z.to_nat n) Hne) as (s & Hs).
  exists (capitalize s). intros count m. unfold generate_random_names.
  assert (forall c k,
            random_names c (stuck_at v k)
            = (Some (repeat (capitalize s) c),
               stuck_at v (k + c * (1 + Z.to_nat n)))) as H.
  { induction c as [|c IH]; intros k; cbn [random_names repeat].
    - unfold rand_ret. now rewrite Nat.add_0_r.
    - unfold rand_bind at 1. rewrite Hn.
      unfold rand_bind at 1. rewrite Hs.
      unfold rand_bind, rand_ret. rewrite IH.
      do 2 f_equal. lia. }
  now rewrite H.
Qed.

(* ------------------------------------------------------------------ *)
(** ** Two calls at once: nobody waits for ever *)

(** A statement that has to wait waits for a transaction that holds
    something. *)
Lemma tx_step_waits d other t :
  is_over t = false -> tx_step d other t = None ->
  (tx_pc t = AtSelectUser \/ (exists i, tx_pc t = AtUsersIndex i) \/
   exists u own i, tx_pc t = AtMessagesIndex u own i) /\
  row_held other <> None.
Proof.
  unfold is_over, tx_step. intros Hover H.
  destruct (tx_pc t) as [| |i|v own|v own|v own i|v own m|v own m rows|m rows|e];
    try discriminate.
  - destruct (users_named _ _) as [|u [|u' l]]; try discriminate.
    destruct (locks_username _ other) eqn:E; [|discriminate].
    split; [auto|]. unfold locks_username in E.
    destruct (row_held other); [discriminate | discriminate E].
  - destruct (users_id_seq d >? INT4_MAX); discriminate.
  - destruct (users_pkey_taken _ _); [discriminate|].
    destruct (username_taken _ _); [discriminate|].
    destruct (inserting_username _ other) eqn:E; [|discriminate].
    split; [eauto|]. unfold inserting_username in E.
    destruct (row_held other); [discriminate | discriminate E].
  - destruct (_ >? INT4_MAX); discriminate.
  - destruct (_ >? INT8_MAX); discriminate.
  - destruct (_ >? INT4_MAX); [discriminate|].
    destruct (messages_pkey_taken _ _); [discriminate|].
    destruct (uq_sender_msgnum_taken _ _ _); [discriminate|].
    destruct (inserting_message _ _ other) eqn:E; [|discriminate].
    split; [eauto 6|]. unfold inserting_message in E. unfold row_held.
    destruct (tx_pc other); try discriminate E; discriminate.
Qed.

(** A transaction that holds a row and is not waited for by a message of
    the other one can run its next statement. *)
Lemma tx_step_holder d other t :
  row_held t <> None ->
  (tx_pc other = AtSelectUser \/ (exists i, tx_pc other = AtUsersIndex i) \/
   exists u own i, tx_pc other = AtMessagesIndex u own i) ->
  tx_step d other t <> None.
Proof.
  unfold row_held, tx_step. intros Hheld Hother.
  destruct (tx_pc t) as [| |i|v own|v own|v own i|v own m|v own m rows|m rows|e];
    try (exfalso; apply Hheld; reflexivity).
  - destruct (_ >? INT4_MAX); discriminate.
  - destruct (_ >? INT8_MAX); discriminate.
  - destruct (_ >? INT4_MAX); [discriminate|].
    destruct (messages_pkey_taken _ _); [discriminate|].
    destruct (uq_sender_msgnum_taken _ _ _); [discriminate|].
    assert (inserting_message (MessageRequest.sender_name (tx_msg t))
              (User.last_msg_num v + 1) other = false) as ->.
    { unfold inserting_message.
      destruct Hother as [->|[[j ->]|(u' & o' & j & ->)]]; reflexivity. }
    discriminate.
  - discriminate.
  - discriminate.
Qed.

Lemma step_none sd w :
  step sd w = None ->
  tx_step (committed w) (tx_of (flip sd) w) (tx_of sd w) = None.
Proof.
  unfold step. destruct (tx_step _ _ _) as [[d pc]|]; [discriminate|trivial].
Qed.

(** X11.  Two calls never wait for each other: when the statement of one
    of them has to wait, the other one is in the middle of its transaction
    and can run its next statement. *)
Theorem no_deadlock sd w :
  is_over (tx_of sd w) = false ->
  step sd w = None ->
  is_over (tx_of (flip sd) w) = false /\
  step (flip sd) w <> None.
Proof.
  intros Hover Hstep. apply step_none in Hstep.
  destruct (tx_step_waits _ _ _ Hover Hstep) as [Hpc Hheld].
  split.
  - unfold is_over. unfold row_held in Hheld.
    destruct (tx_pc (tx_of (flip sd) w)); try reflexivity;
      exfalso; apply Hheld; reflexivity.
  - pose proof (@tx_step_holder (committed w) (tx_of sd w)
                  (tx_of (flip sd) w) Hheld Hpc) as Hgo.
    unfold step. replace (flip (flip sd)) with sd by (now destruct sd).
    destruct (tx_step (committed w) (tx_of sd w) (tx_of (flip sd) w))
      as [[d pc]|]; [discriminate | contradiction].
Qed.

Lemma no_deadlock_witness :
  step L alice_locked = None /\ step R alice_locked <> None.
Proof.
  split; [reflexivity|].
  exact (proj2 (@no_deadlock L alice_locked eq_refl eq_refl)).
Defined.

(* ------------------------------------------------------------------ *)
(** ** Two calls at once: both end *)

Lemma tx_step_fewer d other t d' pc' :
  tx_step d other t = Some (d', pc') ->
  (statements_left pc' < statements_left (tx_pc t))%nat.
Proof.
  unfold tx_step.
  destruct (tx_pc t) as [| |i|v own|v own|v own i|v own m|v own m rows|m rows|e];
    intros H.
  - destruct (users_named _ _) as [|u [|u' l]].
    + inversion H; subst. cbn. lia.
    + destruct (locks_username _ other); inversion H; subst. cbn. lia.
    + inversion H; subst. cbn. lia.
  - destruct (_ >? INT4_MAX); inversion H; subst; cbn; lia.
  - destruct (users_pkey_taken _ _); [inversion H; subst; cbn; lia|].
    destruct (username_taken _ _); [inversion H; subst; cbn; lia|].
    destruct (inserting_username _ other); inversion H; subst. cbn. lia.
  - destruct (_ >? INT4_MAX); inversion H; subst; cbn; lia.
  - destruct (_ >? INT8_MAX); inversion H; subst; cbn; lia.
  - destruct (_ >? INT4_MAX); [inversion H; subst; cbn; lia|].
    destruct (messages_pkey_taken _ _); [inversion H; subst; cbn; lia|].
    destruct (uq_sender_msgnum_taken _ _ _);
      [inversion H; subst; cbn; lia|].
    destruct (inserting_message _ _ other); inversion H; subst. cbn. lia.
  - inversion H; subst. cbn. lia.
  - inversion H; subst. cbn. lia.
  - discriminate.
  - discriminate.
Qed.

Lemma step_fewer sd w w' :
  step sd w = Some w' ->
  (statements_left (tx_pc (tx_of sd w'))
   < statements_left (tx_pc (tx_of sd w)))%nat /\
  tx_of (flip sd) w' = tx_of (flip sd) w.
Proof.
  unfold step.
  destruct (tx_step _ _ _) as [[d pc]|] eqn:E; [|discriminate].
  apply tx_step_fewer in E. intros H. inversion H; subst.
  destruct sd; cbn in *; auto.
Qed.

Lemma is_over_left t :
  is_over t = true <-> statements_left (tx_pc t) = 0%nat.
Proof.
  unfold is_over. destruct (tx_pc t); cbn; split; intros H;
    try reflexivity; discriminate.
Qed.

Lemma statements_left_bound pc : (statements_left pc <= 8)%nat.
Proof. destruct pc; cbn; lia. Qed.

(** One round: each side has its turn.  Unless both calls are over, one
    of them has come nearer to its end, and none has gone back. *)
Lemma round_fewer w :
  let left w := (statements_left (tx_pc (left_tx w))
                 + statements_left (tx_pc (right_tx w)))%nat in
  (left (run [Go L; Go R] w) <= left w - 1)%nat.
Proof.
  cbn zeta. cbn [run turn].
  destruct (is_over (left_tx w)) eqn:OL.
  - (* the left call is over *)
    assert (step L w = None) as ->.
    { unfold step, tx_step. cbn [tx_of]. unfold is_over in OL.
      destruct (tx_pc (left_tx w)); try discriminate; reflexivity. }
    apply is_over_left in OL.
    destruct (step R w) as [w'|] eqn:ER.
    + apply step_fewer in ER as [Hlt Hsame]. cbn [tx_of flip] in *.
      rewrite Hsame. clear - OL Hlt. lia.
    + destruct (is_over (right_tx w)) eqn:OR.
      * apply is_over_left in OR. lia.
      * destruct (@no_deadlock R w OR ER) as [Hover _].
        cbn [flip tx_of] in Hover.
        apply is_over_left in OL. congruence.
  - destruct (step L w) as [w1|] eqn:EL.
    + apply step_fewer in EL as [Hlt Hsame]. cbn [tx_of flip] in *.
      destruct (step R w1) as [w2|] eqn:ER.
      * apply step_fewer in ER as [Hlt2 Hsame2]. cbn [tx_of flip] in *.
        rewrite Hsame2. rewrite Hsame in Hlt2. clear - Hlt Hlt2. lia.
      * rewrite Hsame. clear - Hlt. lia.
    + destruct (@no_deadlock L w OL EL) as [_ Hgo]. cbn [flip] in Hgo.
      destruct (step R w) as [w2|] eqn:ER; [|contradiction].
      apply step_fewer in ER as [Hlt2 Hsame2]. cbn [tx_of flip] in *.
      rewrite Hsame2. clear - Hlt2. lia.
Qed.

Lemma round_robin_fewer n : forall w,
  (statements_left (tx_pc (left_tx (run (round_robin n) w)))
   + statements_left (tx_pc (right_tx (run (round_robin n) w)))
   <= statements_left (tx_pc (left_tx w))
      + statements_left (tx_pc (right_tx w)) - n)%nat.
Proof.
  induction n as [|n IH]; intros w.
  - cbn. lia.
  - change (round_robin (S n)) with (Go L :: Go R :: round_robin n).
    change (run (Go L :: Go R :: round_robin n) w)
      with (run (round_robin n) (run [Go L; Go R] w)).
    specialize (IH (run [Go L; Go R] w)).
    pose proof (round_fewer w) as Hr. cbv beta zeta in Hr.
    set (w1 := run [Go L; Go R] w) in *. clearbody w1. lia.
Qed.

(** X12.  Two calls always end.  Wherever the two transactions stand,
    and whatever they hold, sixteen rounds in which each side has its turn
    bring both to their commit or to a rollback: no call waits for ever, none
    runs for ever. *)
Theorem round_robin_ends w :
  let w' := run (round_robin 16) w in
  is_over (left_tx w') = true /\ is_over (right_tx w') = true.
Proof.
  cbn zeta. pose proof (round_robin_fewer 16 w) as H.
  pose proof (statements_left_bound (tx_pc (left_tx w))) as HL.
  pose proof (statements_left_bound (tx_pc (right_tx w))) as HR.
  split; apply is_over_left; lia.
Qed.

(* ------------------------------------------------------------------ *)
(** ** Two calls at once: the store stays sequenced *)

Lemma name_free_no_row name us :
  username_taken name us = false -> users_named name us = [].
Proof.
  unfold username_taken, users_named.
  induction us as [|u us IH]; cbn; intros H; [reflexivity|].
  destruct (String.eqb (User.username u) name); cbn in H; [discriminate|].
  auto.
Qed.

Lemma users_pkey_free_not_in_ids i us :
  users_pkey_taken i us = false -> ~ In i (map User.id us).
Proof.
  intros Hf Hin. apply in_map_iff in Hin as (v & Hv & Hin).
  exact (users_pkey_free_not_in _ _ Hf Hin Hv).
Qed.

Lemma set_last_msg_num_new i n v us :
  ~ In i (map User.id us) ->
  set_last_msg_num i v (us ++ [User.mk i n 0]) = us ++ [User.mk i n v].
Proof.
  intros Hi. unfold set_last_msg_num. rewrite map_app.
  fold (set_last_msg_num i v us). rewrite set_last_msg_num_other.
  - cbn. now rewrite Z.eqb_refl.
  - intros u Hu Hid. apply Hi. rewrite <- Hid. now apply in_map.
Qed.

Lemma users_named_one name u :
  users_named name [u]
  = if String.eqb (User.username u) name then [u] else [].
Proof. reflexivity. Qed.

(** The commit of a call that inserted the row of its sender. *)
Lemma create_sequenced d n i m q1 q2 :
  sequenced d ->
  users_named n (users d) = [] ->
  ~ In i (map User.id (users d)) ->
  Message.sender_name m = n ->
  Message.user_msg_num m = 1 ->
  sequenced (mkDb (set_last_msg_num i (Message.user_msg_num m)
                     (users d ++ [User.mk i n 0]))
                  (messages d ++ [m]) q1 q2).
Proof.
  intros [Hn Hs] Hsel Hi Hname Hnum.
  rewrite set_last_msg_num_new by assumption. rewrite Hnum.
  split.
  - cbn [users]. rewrite map_app. cbn.
    apply (Permutation_NoDup (Permutation_cons_append _ _)).
    now constructor.
  - intros name. unfold sender_ok.
    rewrite sender_sequences_snoc, Hname, Hnum.
    cbn [users]. rewrite users_named_app, users_named_one.
    cbn [User.username].
    specialize (Hs name). unfold sender_ok, sender_sequences in Hs.
    destruct (String.eqb_spec n name) as [<-|Hne].
    + rewrite Hsel in *. cbn. split; [lia|]. rewrite Hs. reflexivity.
    + rewrite !app_nil_r. exact Hs.
Qed.

Lemma tx_inv_tables d d' t :
  users d' = users d -> incl (messages d) (messages d') ->
  users_id_seq d <= users_id_seq d' ->
  tx_inv d t -> tx_inv d' t.
Proof.
  intros Hu Hm Hq (H1 & H2 & H3). unfold tx_inv. rewrite Hu.
  split; [exact H1|]. split.
  - destruct (tx_pc t); try exact H2. apply Hm. exact H2.
  - intros i Hi. specialize (H3 i Hi). lia.
Qed.

Lemma pending_own t u :
  row_held t = Some (u, true) -> pending_id t = Some (User.id u).
Proof.
  unfold pending_id, row_held.
  destruct (tx_pc t); intros H; try discriminate; inversion H; reflexivity.
Qed.

(** What the commit of a call that had the row [u] under its lock leaves
    of the other transaction. *)
Lemma tx_inv_commit_found d u v m q other :
  sequenced d ->
  users_named (User.username u) (users d) = [u] ->
  tx_inv d other ->
  (row_held other <> None ->
   MessageRequest.sender_name (tx_msg other) <> User.username u) ->
  tx_inv (mkDb (set_last_msg_num (User.id u) v (users d))
               (messages d ++ [m]) (users_id_seq d) q) other.
Proof.
  intros [Hnd _] Hsel (H1 & H2 & H3) Hap. unfold tx_inv.
  cbn [users messages users_id_seq].
  split; [|split; [|exact H3]].
  - revert H1 Hap.
    destruct (row_held other) as [[u' [|]]|]; intros H1 Hap; [| |exact I].
    + destruct H1 as (Hn & Hl & Hnone & Hid).
      repeat split; auto.
      * rewrite users_named_set, Hnone. reflexivity.
      * now rewrite set_last_msg_num_ids.
    + rewrite users_named_set, H1. unfold set_last_msg_num. cbn.
      destruct (User.id u' =? User.id u) eqn:E; [|reflexivity].
      exfalso. apply Z.eqb_eq in E.
      assert (In u' (users d) /\ User.username u'
                = MessageRequest.sender_name (tx_msg other)) as [Hin' Hn'].
      { apply users_named_in. rewrite H1. now left. }
      assert (In u (users d)) as Hin.
      { eapply users_named_in. rewrite Hsel. now left. }
      assert (u' = u) by (eapply NoDup_map_eq; eauto). subst u'.
      apply Hap; [discriminate | now symmetry].
  - destruct (tx_pc other); try exact H2.
    apply in_or_app. now left.
Qed.

(** What the commit of a call that inserted the row of its sender leaves
    of the other transaction. *)
Lemma tx_inv_commit_created d i n v m q other :
  users_named n (users d) = [] ->
  ~ In i (map User.id (users d)) ->
  tx_inv d other ->
  (row_held other <> None ->
   MessageRequest.sender_name (tx_msg other) <> n) ->
  (forall j, pending_id other = Some j -> j <> i) ->
  tx_inv (mkDb (set_last_msg_num i v (users d ++ [User.mk i n 0]))
               (messages d ++ [m]) (users_id_seq d) q) other.
Proof.
  intros Hsel Hi (H1 & H2 & H3) Hap Hpend. unfold tx_inv.
  rewrite set_last_msg_num_new by assumption.
  cbn [users messages users_id_seq].
  split; [|split; [|exact H3]].
  - pose proof (@pending_own other) as Hown.
    revert H1 Hap Hown.
    destruct (row_held other) as [[u' [|]]|]; intros H1 Hap Hown;
      [| |exact I].
    + destruct H1 as (Hn & Hl & Hnone & Hid).
      assert (MessageRequest.sender_name (tx_msg other) <> n) as Hne
        by (apply Hap; discriminate).
      repeat split; auto.
      * rewrite users_named_app, Hnone, users_named_one. cbn.
        destruct (String.eqb_spec n (MessageRequest.sender_name
                                       (tx_msg other)));
          [congruence | reflexivity].
      * rewrite map_app. cbn. intros Hin. apply in_app_or in Hin as [Hin|Hin].
        -- contradiction.
        -- destruct Hin as [Hin|[]].
           apply (Hpend (User.id u') (Hown u' eq_refl)). now symmetry.
    + assert (MessageRequest.sender_name (tx_msg other) <> n) as Hne
        by (apply Hap; discriminate).
      rewrite users_named_app, H1, users_named_one. cbn.
      destruct (String.eqb_spec n (MessageRequest.sender_name
                                     (tx_msg other)));
        [congruence | reflexivity].
  - destruct (tx_pc other); try exact H2.
    apply in_or_app. now left.
Qed.

Lemma apart_sym t other : apart t other -> apart other t.
Proof.
  intros [H1 H2]. split.
  - intros Ho Ht E. exact (H1 Ht Ho (eq_sym E)).
  - intros i j Hi Hj E. exact (H2 j i Hj Hi (eq_sym E)).
Qed.

Ltac over_inv :=
  unfold tx_inv, row_held, pending_id; cbn;
  repeat split; try exact I; intros; discriminate.

Ltac over_apart :=
  unfold apart, row_held, pending_id; cbn;
  split; [intros H; exfalso; apply H; reflexivity | intros; discriminate].

Ltac same_count := unfold done_count; cbn; lia.

Ltac failed_case Hseq Ho :=
  split; [exact Hseq|]; split; [over_inv|]; split; [exact Ho|];
  split; [over_apart | same_count].

(** One statement of one of two transactions keeps what [pair_inv]
    says. *)
Lemma tx_step_pair_inv d other t d' pc' :
  sequenced d -> tx_inv d t -> tx_inv d other -> apart t other ->
  tx_step d other t = Some (d', pc') ->
  let t' := mkTxn (tx_msg t) (tx_now t) pc' in
  sequenced d' /\ tx_inv d' t' /\ tx_inv d' other /\ apart t' other /\
  Z.of_nat (List.length (messages d')) - done_count t'
  = Z.of_nat (List.length (messages d)) - done_count t.
Proof.
  intros Hseq Ht Ho Hap Hstep t'. subst t'.
  destruct t as [msg now pc]. unfold tx_step in Hstep.
  cbn [tx_pc tx_msg tx_now] in *.
  destruct pc as [| |i|u own|u own|u own i|u own m|u own m rows|m rows|e].
  - (* SELECT ... FOR UPDATE *)
    destruct (users_named (MessageRequest.sender_name msg) (users d))
      as [|u [|u' l]] eqn:Hsel.
    + inversion Hstep; subst. failed_case Hseq Ho.
    + destruct (locks_username (User.username u) other) eqn:El;
        [discriminate|].
      inversion Hstep; subst.
      split; [exact Hseq|]. split.
      { unfold tx_inv, row_held, pending_id. cbn.
        split; [exact Hsel|]. split; [exact I|]. intros; discriminate. }
      split; [exact Ho|]. split; [|same_count].
      split.
      * intros _ Hoh E. cbn [tx_msg] in E.
        destruct Ho as (Ho1 & _). revert Ho1 Hoh El.
        unfold locks_username.
        destruct (row_held other) as [[v [|]]|]; intros Ho1 Hoh El.
        -- destruct Ho1 as (_ & _ & Hnone & _). rewrite <- E in Hnone.
           congruence.
        -- rewrite <- E, Hsel in Ho1. inversion Ho1; subst v.
           rewrite String.eqb_refl in El. discriminate.
        -- now apply Hoh.
      * intros a b Ha. unfold pending_id, row_held in Ha. cbn in Ha.
        discriminate.
    + inversion Hstep; subst. failed_case Hseq Ho.
  - (* nextval of users.id *)
    destruct (users_id_seq d >? INT4_MAX) eqn:E; inversion Hstep; subst.
    + failed_case Hseq Ho.
    + apply gtb_false_le in E.
      split; [eapply sequenced_tables; [| |exact Hseq]; reflexivity|].
      split.
      { unfold tx_inv, row_held, pending_id. cbn.
        split; [exact I|]. split; [exact I|].
        intros j Hj. inversion Hj; subst. lia. }
      split.
      { eapply tx_inv_tables; [| | |exact Ho]; cbn;
          [reflexivity | apply incl_refl | lia]. }
      split; [|same_count].
      split.
      * intros H. exfalso. apply H. reflexivity.
      * intros a b Ha Hb. unfold pending_id, row_held in Ha. cbn in Ha.
        inversion Ha; subst. destruct Ho as (_ & _ & Ho3).
        specialize (Ho3 b Hb). lia.
  - (* INSERT INTO users *)
    destruct Ht as (_ & _ & Ht3).
    destruct (users_pkey_taken i (users d)) eqn:E1;
      [inversion Hstep; subst; failed_case Hseq Ho|].
    destruct (username_taken (MessageRequest.sender_name msg) (users d))
      eqn:E2; [inversion Hstep; subst; failed_case Hseq Ho|].
    destruct (inserting_username (MessageRequest.sender_name msg) other)
      eqn:E3; [discriminate|].
    inversion Hstep; subst.
    apply name_free_no_row in E2. apply users_pkey_free_not_in_ids in E1.
    split; [exact Hseq|]. split.
    { unfold tx_inv, row_held, pending_id. cbn.
      split; [repeat split; assumption|]. split; [exact I|].
      intros j Hj. apply Ht3. exact Hj. }
    split; [exact Ho|]. split; [|same_count].
    split.
    + intros _ Hoh E. cbn [tx_msg] in E.
      destruct Ho as (Ho1 & _). revert Ho1 Hoh E3.
      unfold inserting_username.
      destruct (row_held other) as [[v [|]]|]; intros Ho1 Hoh E3.
      * destruct Ho1 as (Hn & _). rewrite Hn, <- E in E3.
        rewrite String.eqb_refl in E3. discriminate.
      * rewrite <- E in Ho1. congruence.
      * now apply Hoh.
    + intros a b Ha Hb. apply (proj2 Hap a b); [exact Ha | exact Hb].
  - (* UPDATE users *)
    destruct (User.last_msg_num u + 1 >? INT4_MAX);
      inversion Hstep; subst; [failed_case Hseq Ho|].
    split; [exact Hseq|]. split; [exact Ht|]. split; [exact Ho|].
    split; [exact Hap | same_count].
  - (* nextval of messages.message_id *)
    destruct (messages_message_id_seq d >? INT8_MAX);
      inversion Hstep; subst; [failed_case Hseq Ho|].
    split; [eapply sequenced_tables; [| |exact Hseq]; reflexivity|].
    split.
    { eapply (@tx_inv_tables d); cbn;
        [reflexivity | apply incl_refl | lia | exact Ht]. }
    split.
    { eapply tx_inv_tables; [| | |exact Ho]; cbn;
        [reflexivity | apply incl_refl | lia]. }
    split; [exact Hap | same_count].
  - (* INSERT INTO messages *)
    destruct (User.last_msg_num u + 1 >? INT4_MAX);
      [inversion Hstep; subst; failed_case Hseq Ho|].
    destruct (messages_pkey_taken i (messages d));
      [inversion Hstep; subst; failed_case Hseq Ho|].
    destruct (uq_sender_msgnum_taken _ _ (messages d));
      [inversion Hstep; subst; failed_case Hseq Ho|].
    destruct (inserting_message _ _ other); [discriminate|].
    inversion Hstep; subst.
    split; [exact Hseq|]. split.
    { destruct Ht as (H1 & _ & H3).
      split; [exact H1|]. split; [split; reflexivity | exact H3]. }
    split; [exact Ho|]. split; [exact Hap | same_count].
  - (* the recent-window read *)
    inversion Hstep; subst.
    split; [exact Hseq|]. split; [exact Ht|]. split; [exact Ho|].
    split; [exact Hap | same_count].
  - (* COMMIT *)
    inversion Hstep; subst.
    destruct Ht as (H1 & [Hm1 Hm2] & H3).
    unfold row_held in H1. cbn [tx_pc tx_msg] in H1, Hm1, Hm2.
    assert (tx_inv (mkDb (set_last_msg_num (User.id u)
                            (Message.user_msg_num m)
                            (if own then users d ++ [u] else users d))
                         (messages d ++ [m]) (users_id_seq d)
                         (messages_message_id_seq d))
                   (mkTxn msg now (Done m rows))) as Hdone.
    { unfold tx_inv, row_held, pending_id. cbn.
      split; [exact I|]. split; [|intros; discriminate].
      apply in_or_app. right. now left. }
    assert (apart (mkTxn msg now (Done m rows)) other) as Hap'
      by over_apart.
    assert (row_held other <> None ->
            MessageRequest.sender_name (tx_msg other)
            <> MessageRequest.sender_name msg) as Hnames.
    { intros Hoh E. apply (proj1 Hap); [discriminate | exact Hoh |].
      cbn [tx_msg]. now symmetry. }
    assert (Z.of_nat (List.length (messages d ++ [m]))
            - done_count (mkTxn msg now (Done m rows))
            = Z.of_nat (List.length (messages d))
              - done_count (mkTxn msg now (AtCommit u own m rows))) as Hcnt.
    { rewrite length_app. unfold done_count. cbn. lia. }
    destruct own.
    + destruct u as [i nm l]. cbn in H1, Hm2 |- *.
      destruct H1 as (Hnm & Hl & Hnone & Hid). subst nm l.
      split; [apply create_sequenced; auto|].
      split; [exact Hdone|]. split; [|split; [exact Hap' | exact Hcnt]].
      apply tx_inv_commit_created; auto.
      intros j Hj. intros E. subst j.
      apply (proj2 Hap i i); [reflexivity | exact Hj | reflexivity].
    + destruct (@bump_sequenced d _ u m (users_id_seq d)
                  (messages_message_id_seq d) Hseq H1 Hm1 Hm2)
        as [Hseq' _].
      split; [exact Hseq'|].
      split; [exact Hdone|]. split; [|split; [exact Hap' | exact Hcnt]].
      pose proof (users_named_self _ _ H1) as Hu.
      apply tx_inv_commit_found; auto.
      * now rewrite Hu.
      * now rewrite Hu.
  - discriminate.
  - discriminate.
Qed.

Lemma step_pair_inv d0 sd w w' :
  pair_inv d0 w -> step sd w = Some w' -> pair_inv d0 w'.
Proof.
  intros (Hseq & HL & HR & Hap & Hcnt) Hstep.
  unfold step in Hstep.
  destruct (tx_step (committed w) (tx_of (flip sd) w) (tx_of sd w))
    as [[d pc]|] eqn:E; [|discriminate].
  inversion Hstep; subst w'; clear Hstep.
  destruct sd; cbn [tx_of flip] in E.
  - destruct (tx_step_pair_inv Hseq HL HR Hap E)
      as (Hseq' & HL' & HR' & Hap' & Hcnt').
    unfold pair_inv. cbn [committed left_tx right_tx tx_of].
    split; [exact Hseq'|]. split; [exact HL'|]. split; [exact HR'|].
    split; [exact Hap'|]. clear - Hcnt Hcnt'. lia.
  - destruct (tx_step_pair_inv Hseq HR HL (apart_sym Hap) E)
      as (Hseq' & HR' & HL' & Hap' & Hcnt').
    unfold pair_inv. cbn [committed left_tx right_tx tx_of].
    split; [exact Hseq'|]. split; [exact HL'|]. split; [exact HR'|].
    split; [exact (apart_sym Hap')|]. clear - Hcnt Hcnt'. lia.
Qed.

Lemma drop_pair_inv d0 sd w w' :
  pair_inv d0 w -> drop sd w = Some w' -> pair_inv d0 w'.
Proof.
  intros (Hseq & HL & HR & Hap & Hcnt) Hdrop.
  unfold drop in Hdrop.
  destruct (is_over (tx_of sd w)) eqn:Hover; [discriminate|].
  apply is_over_done_count in Hover.
  inversion Hdrop; subst w'; clear Hdrop.
  destruct sd; cbn [tx_of] in Hover; unfold pair_inv;
    cbn [committed left_tx right_tx].
  - split; [exact Hseq|]. split; [over_inv|]. split; [exact HR|].
    split; [over_apart|]. unfold done_count at 1. cbn [tx_pc].
    clear - Hcnt Hover. lia.
  - split; [exact Hseq|]. split; [exact HL|]. split; [over_inv|].
    split; [apply apart_sym; over_apart|]. unfold done_count at 2.
    cbn [tx_pc]. clear - Hcnt Hover. lia.
Qed.

Lemma run_pair_inv d0 sched : forall w,
  pair_inv d0 w -> pair_inv d0 (run sched w).
Proof.
  induction sched as [|tn sched IH]; intros w Hw; [exact Hw|].
  cbn [run]. apply IH.
  destruct (turn tn w) as [w'|] eqn:E; [|exact Hw].
  destruct tn as [sd|sd]; cbn [turn] in E.
  - eapply step_pair_inv; eassumption.
  - eapply drop_pair_inv; eassumption.
Qed.

Lemma start_pair_inv d x nowx y nowy :
  sequenced d -> pair_inv d (start d x nowx y nowy).
Proof.
  intros Hseq. unfold pair_inv, start. cbn [committed left_tx right_tx].
  split; [exact Hseq|]. split; [over_inv|]. split; [over_inv|].
  split; [over_apart|]. unfold done_count. cbn. lia.
Qed.

(** X13.  Two calls served at once, of one sender or of two, with or
    without a row of their own in [users], in any interleaving of their
    statements and with any loss of connection in between, leave a store
    in which every sender has at most one row and messages numbered
    [1 .. last_msg_num] in the order of their insertion; the table
    [messages] has grown by one row for each of the two calls that has
    committed, and the message a committed call answers for is in it. *)
Theorem two_calls_keep_the_store_sequenced d x nowx y nowy sched :
  sequenced d ->
  let w := run sched (start d x nowx y nowy) in
  sequenced (committed w) /\
  (forall name,
     (List.length (users_named name (users (committed w))) <= 1)%nat /\
     sender_sequences name (committed w)
     = one_to (stored name (committed w))) /\
  Z.of_nat (List.length (messages (committed w)))
  = Z.of_nat (List.length (messages d))
    + done_count (left_tx w) + done_count (right_tx w) /\
  forall sd m rows,
    tx_pc (tx_of sd w) = Done m rows -> In m (messages (committed w)).
Proof.
  intros Hseq w.
  destruct (run_pair_inv sched (start_pair_inv x nowx y nowy Hseq))
    as (Hseq' & HL & HR & _ & Hcnt).
  fold w in Hseq', HL, HR, Hcnt.
  split; [exact Hseq'|]. split; [|split; [exact Hcnt|]].
  - intros name. split; [now apply sequenced_one_row|].
    destruct Hseq' as [_ Hs]. specialize (Hs name).
    unfold sender_ok, stored in *.
    destruct (users_named name (users (committed w))) as [|u [|u' l]].
    + exact Hs.
    + exact (proj2 Hs).
    + contradiction.
  - intros sd m rows Hpc.
    destruct sd; cbn [tx_of] in Hpc.
    + destruct HL as (_ & H2 & _). rewrite Hpc in H2. exact H2.
    + destruct HR as (_ & H2 & _). rewrite Hpc in H2. exact H2.
Qed.

Lemma two_calls_keep_the_store_sequenced_witness :
  let w := run race_schedule (start empty_db bob_x 1 bob_y 2) in
  sequenced (committed w) /\
  Z.of_nat (List.length (messages (committed w)))
  = 0 + done_count (left_tx w) + done_count (right_tx w).
Proof.
  destruct (@two_calls_keep_the_store_sequenced empty_db bob_x 1 bob_y 2
              race_schedule empty_db_sequenced)
    as (Hs & _ & Hc & _).
  split; [exact Hs | exact Hc].
Defined.

(* ------------------------------------------------------------------ *)
(** ** Two calls at once: what the callers receive *)

Lemma not_in_ids_pkey_free i ms :
  ~ In i (ids ms) -> messages_pkey_taken i ms = false.
Proof.
  intros Hi. unfold messages_pkey_taken.
  destruct (existsb _ ms) eqn:E; [|reflexivity].
  apply existsb_exists in E as (m & Hin & He). apply Z.eqb_eq in He.
  exfalso. apply Hi. rewrite <- He. unfold ids. now apply in_map.
Qed.

Lemma ids_snoc_NoDup ms m :
  NoDup (ids ms) -> ~ In (Message.message_id m) (ids ms) ->
  NoDup (ids (ms ++ [m])).
Proof.
  intros Hn Hi. unfold ids. rewrite map_app. cbn.
  apply (Permutation_NoDup (Permutation_cons_append _ _)).
  now constructor.
Qed.

Lemma window_inv_tables d d' t :
  messages d' = messages d ->
  messages_message_id_seq d <= messages_message_id_seq d' ->
  window_inv d t -> window_inv d' t.
Proof.
  intros Hm Hq [H1 H2]. unfold window_inv. rewrite Hm.
  split; [|exact H2].
  intros i Hi. destruct (H1 i Hi) as [Hlt Hnin]. split; [lia | exact Hnin].
Qed.

(** What a commit of the message [m] leaves of the other transaction. *)
Lemma window_inv_commit d us q4 m other :
  window_inv d other ->
  (forall j, pending_message_id other = Some j ->
             j <> Message.message_id m) ->
  window_inv (mkDb us (messages d ++ [m]) q4 (messages_message_id_seq d))
             other.
Proof.
  intros [H1 H2] Hne. unfold window_inv. cbn [messages messages_message_id_seq].
  split.
  - intros j Hj. destruct (H1 j Hj) as [Hlt Hnin]. split; [exact Hlt|].
    unfold ids. rewrite map_app. cbn. intros Hin.
    apply in_app_or in Hin as [Hin|[Hin|[]]]; [now apply Hnin|].
    apply (Hne j Hj). now symmetry.
  - destruct (tx_pc other); try exact H2.
    + destruct H2 as (Hr & Hw & Hi). split; [exact Hr|]. split; [exact Hw|].
      intros r Hr'. apply Hi in Hr'.
      apply in_app_or in Hr' as [Hr'|Hr'];
        apply in_or_app; [left; apply in_or_app; now left | now right].
    + destruct H2 as (Hr & Hw & Hi). split; [exact Hr|]. split; [exact Hw|].
      intros r Hr'. apply in_or_app. left. now apply Hi.
Qed.

Ltac over_window :=
  unfold window_inv, pending_message_id; cbn;
  split; [intros; discriminate | exact I].

Ltac over_keys :=
  unfold keys_apart, pending_message_id; cbn; intros; discriminate.

Ltac quiet_case Hk Ho :=
  split; [exact Hk|]; split; [over_window|]; split; [exact Ho | over_keys].

(** One statement of one of two transactions keeps what [windows_inv]
    says. *)
Lemma tx_step_windows d other t d' pc' :
  messages_keyed d -> window_inv d t -> window_inv d other ->
  keys_apart t other ->
  tx_step d other t = Some (d', pc') ->
  let t' := mkTxn (tx_msg t) (tx_now t) pc' in
  messages_keyed d' /\ window_inv d' t' /\ window_inv d' other /\
  keys_apart t' other.
Proof.
  intros Hk Ht Ho Hap Hstep t'. subst t'.
  destruct t as [msg now pc]. unfold tx_step in Hstep.
  cbn [tx_pc tx_msg tx_now] in *.
  assert (forall q4,
            messages_keyed (mkDb (users d) (messages d) q4
                                 (messages_message_id_seq d))) as Hk4
    by (intros q4; exact Hk).
  destruct pc as [| |i|u own|u own|u own i|u own m|u own m rows|m rows|e].
  - (* SELECT ... FOR UPDATE *)
    destruct (users_named _ (users d)) as [|u [|u' l]].
    + inversion Hstep; subst. quiet_case Hk Ho.
    + destruct (locks_username _ other); [discriminate|].
      inversion Hstep; subst. quiet_case Hk Ho.
    + inversion Hstep; subst. quiet_case Hk Ho.
  - (* nextval of users.id *)
    destruct (users_id_seq d >? INT4_MAX); inversion Hstep; subst.
    + quiet_case Hk Ho.
    + split; [apply Hk4|]. split; [over_window|].
      split; [|over_keys].
      apply (@window_inv_tables d); [reflexivity | cbn; lia | exact Ho].
  - (* INSERT INTO users *)
    destruct (users_pkey_taken i (users d));
      [inversion Hstep; subst; quiet_case Hk Ho|].
    destruct (username_taken _ (users d));
      [inversion Hstep; subst; quiet_case Hk Ho|].
    destruct (inserting_username _ other); [discriminate|].
    inversion Hstep; subst. quiet_case Hk Ho.
  - (* UPDATE users *)
    destruct (User.last_msg_num u + 1 >? INT4_MAX);
      inversion Hstep; subst; quiet_case Hk Ho.
  - (* nextval of messages.message_id *)
    destruct (messages_message_id_seq d >? INT8_MAX);
      inversion Hstep; subst; [quiet_case Hk Ho|].
    destruct Hk as [Hn Hf].
    split.
    { split; [exact Hn|]. cbn.
      eapply Forall_impl; [|exact Hf]. cbn. intros; lia. }
    split.
    { unfold window_inv, pending_message_id. cbn.
      split; [|exact I]. intros j Hj. inversion Hj; subst. split; [lia|].
      intros Hin. rewrite Forall_forall in Hf. specialize (Hf _ Hin). lia. }
    split.
    { apply (@window_inv_tables d); [reflexivity | cbn; lia | exact Ho]. }
    intros a b Ha Hb. unfold pending_message_id in Ha. cbn in Ha.
    inversion Ha; subst. destruct (proj1 Ho b Hb) as [Hlt _]. lia.
  - (* INSERT INTO messages *)
    destruct (User.last_msg_num u + 1 >? INT4_MAX);
      [inversion Hstep; subst; quiet_case Hk Ho|].
    destruct (messages_pkey_taken i (messages d));
      [inversion Hstep; subst; quiet_case Hk Ho|].
    destruct (uq_sender_msgnum_taken _ _ (messages d));
      [inversion Hstep; subst; quiet_case Hk Ho|].
    destruct (inserting_message _ _ other); [discriminate|].
    inversion Hstep; subst.
    split; [exact Hk|]. split.
    { destruct Ht as [H1 _]. split; [exact H1|]. split; reflexivity. }
    split; [exact Ho | exact Hap].
  - (* the recent-window read *)
    inversion Hstep; subst.
    destruct Ht as [H1 H2].
    destruct (H1 _ eq_refl) as [Hlt Hnin].
    split; [exact Hk|]. split; [|split; [exact Ho | exact Hap]].
    split; [exact H1|]. split; [exact H2|]. split.
    + split; [|split].
      * apply recent_window_head. now apply not_in_ids_pkey_free.
      * apply recent_window_length.
      * apply recent_window_strict.
        apply ids_snoc_NoDup; [exact (proj1 Hk) | exact Hnin].
    + intros r Hr. now apply recent_window_incl in Hr.
  - (* COMMIT *)
    inversion Hstep; subst.
    destruct Ht as [H1 (Hr & Hw & Hi)].
    destruct (H1 _ eq_refl) as [Hlt Hnin].
    destruct Hk as [Hn Hf].
    split.
    { split; [now apply ids_snoc_NoDup|]. cbn.
      unfold ids. rewrite map_app. apply Forall_app. split; [exact Hf|].
      repeat constructor. exact Hlt. }
    split.
    { unfold window_inv, pending_message_id. cbn.
      split; [intros; discriminate|]. auto. }
    split; [|over_keys].
    apply window_inv_commit; [exact Ho|].
    intros j Hj E. apply (Hap _ _ eq_refl Hj). now symmetry.
  - discriminate.
  - discriminate.
Qed.

Lemma keys_apart_sym t other : keys_apart t other -> keys_apart other t.
Proof. intros H i j Hi Hj E. exact (H j i Hj Hi (eq_sym E)). Qed.

Lemma step_windows_inv sd w w' :
  windows_inv w -> step sd w = Some w' -> windows_inv w'.
Proof.
  intros (Hk & HL & HR & Hap) Hstep.
  unfold step in Hstep.
  destruct (tx_step (committed w) (tx_of (flip sd) w) (tx_of sd w))
    as [[d pc]|] eqn:E; [|discriminate].
  inversion Hstep; subst w'; clear Hstep.
  destruct sd; cbn [tx_of flip] in E.
  - destruct (tx_step_windows Hk HL HR Hap E) as (Hk' & HL' & HR' & Hap').
    unfold windows_inv. cbn [committed left_tx right_tx tx_of]. auto.
  - destruct (tx_step_windows Hk HR HL (keys_apart_sym Hap) E)
      as (Hk' & HR' & HL' & Hap').
    unfold windows_inv. cbn [committed left_tx right_tx tx_of].
    auto using keys_apart_sym.
Qed.

Lemma drop_windows_inv sd w w' :
  windows_inv w -> drop sd w = Some w' -> windows_inv w'.
Proof.
  intros (Hk & HL & HR & Hap) Hdrop.
  unfold drop in Hdrop.
  destruct (is_over (tx_of sd w)); [discriminate|].
  inversion Hdrop; subst w'; clear Hdrop.
  destruct sd; unfold windows_inv; cbn [committed left_tx right_tx].
  - split; [exact Hk|]. split; [over_window|]. split; [exact HR|over_keys].
  - split; [exact Hk|]. split; [exact HL|]. split; [over_window|].
    apply keys_apart_sym. over_keys.
Qed.

Lemma run_windows_inv sched : forall w,
  windows_inv w -> windows_inv (run sched w).
Proof.
  induction sched as [|tn sched IH]; intros w Hw; [exact Hw|].
  cbn [run]. apply IH.
  destruct (turn tn w) as [w'|] eqn:E; [|exact Hw].
  destruct tn as [sd|sd]; cbn [turn] in E.
  - eapply step_windows_inv; eassumption.
  - eapply drop_windows_inv; eassumption.
Qed.

Lemma run_tx_msg sched : forall w,
  tx_msg (left_tx (run sched w)) = tx_msg (left_tx w) /\
  tx_msg (right_tx (run sched w)) = tx_msg (right_tx w).
Proof.
  induction sched as [|tn sched IH]; intros w; [auto|].
  cbn [run].
  destruct (turn tn w) as [w'|] eqn:E; [|apply IH].
  destruct (IH w') as [IL IR]. rewrite IL, IR. clear IH IL IR.
  destruct tn as [sd|sd]; cbn [turn] in E.
  - unfold step in E.
    destruct (tx_step _ _ _) as [[d pc]|]; [|discriminate].
    inversion E; subst. destruct sd; auto.
  - unfold drop in E.
    destruct (is_over _); [discriminate|].
    inversion E; subst. destruct sd; auto.
Qed.

(** X14.  Two calls served at once on a table [messages] whose keys
    came from the sequence, in any interleaving and with any loss of
    connection: the keys stay pairwise different, and each call that commits
    answers with a window whose first row is its own message, carrying the
    sender and the text of its request, of at most ten rows with strictly
    descending keys, every one of them a committed row of the table. *)
Theorem two_calls_windows d x nowx y nowy sched :
  messages_keyed d ->
  let w := run sched (start d x nowx y nowy) in
  NoDup (ids (messages (committed w))) /\
  forall sd m rows,
    tx_pc (tx_of sd w) = Done m rows ->
    let req := match sd with L => x | R => y end in
    outcome (tx_of sd w) = Some (Ok (map to_response rows)) /\
    (exists rest, rows = m :: rest) /\
    Message.sender_name m = MessageRequest.sender_name req /\
    Message.text m = MessageRequest.text req /\
    (List.length rows <= 10)%nat /\
    StronglySorted Z.gt (ids rows) /\
    incl rows (messages (committed w)).
Proof.
  intros Hk w.
  assert (windows_inv (start d x nowx y nowy)) as Hstart.
  { unfold windows_inv, start. cbn [committed left_tx right_tx].
    split; [exact Hk|]. split; [over_window|]. split; [over_window|].
    over_keys. }
  destruct (run_windows_inv sched Hstart) as ([Hn _] & HL & HR & _).
  destruct (run_tx_msg sched (start d x nowx y nowy)) as [ML MR].
  fold w in Hn, HL, HR, ML, MR. cbn [start left_tx right_tx tx_msg] in ML, MR.
  split; [exact Hn|].
  intros sd m rows Hpc req.
  assert (window_inv (committed w) (tx_of sd w) /\
          tx_msg (tx_of sd w) = req) as [[_ H2] Hreq]
    by (destruct sd; cbn [tx_of]; auto).
  rewrite Hpc in H2. destruct H2 as ([Hname Htext] & (Hh & Hl & Hs) & Hi).
  rewrite Hreq in Hname, Htext.
  split; [unfold outcome; now rewrite Hpc|].
  auto 10.
Qed.

Lemma two_calls_windows_witness :
  let w := run race_schedule (start empty_db bob_x 1 bob_y 2) in
  NoDup (ids (messages (committed w))).
Proof.
  refine (proj1 (@two_calls_windows empty_db bob_x 1 bob_y 2 race_schedule
                   _)).
  split; constructor.
Defined.

(* ------------------------------------------------------------------ *)
(** ** What the status tells the caller *)

(** X15.  The status the route answers with tells what became of the
    request: 200 with a window whose first row is the message of the
    request, which is then the one row added to [messages]; 422 when the
    body is not valid, and then nothing was touched, not even the
    connection; 500 when the body is valid and the handler raised, and then
    both tables are as they were. *)
Theorem status_tells_the_store fits fault now body s :
  match route_post_messages fits fault now body s with
  | (Http200 r, s') =>
      exists msg m rest,
        validate_MessageRequest body = Some msg /\
        r = to_response m :: rest /\
        messages (db s') = messages (db s) ++ [m] /\
        Message.sender_name m = MessageRequest.sender_name msg /\
        Message.text m = MessageRequest.text msg
  | (Http422, s') =>
      validate_MessageRequest body = None /\ s' = s
  | (Http500, s') =>
      validate_MessageRequest body <> None /\
      users (db s') = users (db s) /\
      messages (db s') = messages (db s)
  end.
Proof.
  unfold route_post_messages.
  destruct (validate_MessageRequest body) as [msg|]; [|auto].
  destruct (post_message fits fault now msg s) as [[r|e] s'] eqn:H.
  - apply post_message_ok in H as (u & m & Hacc & ->).
    destruct (accepted_messages Hacc) as (Hms & Hfree & Hname & Htext & _).
    rewrite Hms.
    destruct (recent_window_head m (messages (db s)) 9 Hfree) as [rest Hw].
    exists msg, m, (map to_response rest). rewrite Hw. cbn [map]. auto.
  - apply post_message_raise in H as (Hu & Hm & _).
    split; [discriminate | auto].
Qed.
